(** * nettop-notch: the sampling-to-rate pipeline of [cli.py]

    A shallow embedding of the parts of [src/cli.py] that turn two
    successive [nettop] snapshots into display rows, together with the
    key dispatch of the interactive loop.

    Conventions of the embedding:
    - Python [int] is [Z]; Python [str] is [string], the bytes of the UTF-8
      text. [str.strip] removes the white space of Unicode; [str.lower]
      and [str.split] are those of ASCII text.
    - Python [float] is IEEE 754 binary64. The row builder is given twice.
      Module [B64] computes the rates in binary64, rounding, overflowing
      and raising as CPython does; the values of the rates are studied
      there. [build_rows] computes them over the rationals [Q] and always
      returns; it is used where only the shape of the result matters
      (which rows there are, their keys and their text). The rows of
      [B64.build_rows] are those of [build_rows], each with the binary64
      quadruple of its process ([build_rows64_exact]).
    - A Python [dict] iterates in insertion order and [build_rows] emits
      rows in that order, so a dict is an association list ([odict]):
      [dict_get] reads the first binding of a key, [dict_set] overwrites
      the binding in place or appends a new one at the end.
    - [try]/[except] blocks and exceptions that end a function are
      [option] computations, [None] standing for the raised exception.
    - The clock and the interval prompt of the loop are inputs of the step
      function; [float(s)] is a parameter of it, and [int(s)] a parameter
      of the parser. *)

From stdpp Require Import base option list strings numbers pretty.
From Stdlib Require Import Ascii QArith Qabs Lqa Sorted SpecFloat.

Open Scope string_scope.
Open Scope list_scope.
Open Scope Z_scope.

(** ** Insertion-ordered dictionaries *)

Section OrderedDict.
Context {K V : Type} `{EqDecision K}.

Definition odict := list (K * V).

(** [d.get(k)] *)
Fixpoint dict_get (k : K) (d : list (K * V)) : option V :=
  match d with
  | [] => None
  | (k', v) :: d' => if decide (k' = k) then Some v else dict_get k d'
  end.

(** [k in d] *)
Definition dict_mem (k : K) (d : list (K * V)) : bool :=
  match dict_get k d with Some _ => true | None => false end.

(** [d[k] = v]: an existing key keeps its position. *)
Fixpoint dict_set (k : K) (v : V) (d : list (K * V)) : list (K * V) :=
  match d with
  | [] => [(k, v)]
  | (k', v') :: d' =>
      if decide (k' = k) then (k', v) :: d' else (k', v') :: dict_set k v d'
  end.

(** [d.setdefault(k, v)], for the dictionary it leaves behind. *)
Definition dict_setdefault (k : K) (v : V) (d : list (K * V)) : list (K * V) :=
  if dict_mem k d then d else dict_set k v d.

Definition dict_keys (d : list (K * V)) : list K := d.*1.
Definition dict_values (d : list (K * V)) : list V := d.*2.

End OrderedDict.

Arguments odict : clear implicits.

(** ** Text helpers: the [str] methods the parser uses *)

(** White space, as [str.strip] and [str.split] see it: the code points
    U+0009..U+000D, U+001C..U+0020, U+0085, U+00A0, U+1680,
    U+2000..U+200A, U+2028, U+2029, U+202F, U+205F and U+3000. In UTF-8
    the first ten are one byte, U+0085 and U+00A0 are [C2 85] and [C2 A0],
    and the others take three bytes. *)

(** The one-byte white space. *)
Definition is_space (a : ascii) : bool :=
  let n := nat_of_ascii a in
  ((9 <=? n)%nat && (n <=? 13)%nat) || ((28 <=? n)%nat && (n <=? 32)%nat).

(** U+0085 and U+00A0. *)
Definition is_space2 (a b : ascii) : bool :=
  (nat_of_ascii a =? 194)%nat
  && ((nat_of_ascii b =? 133)%nat || (nat_of_ascii b =? 160)%nat).

(** U+1680 [E1 9A 80]; U+2000..U+200A, U+2028, U+2029, U+202F
    [E2 80 80..8A, A8, A9, AF]; U+205F [E2 81 9F]; U+3000 [E3 80 80]. *)
Definition is_space3 (a b c : ascii) : bool :=
  let '(x, y, z) := (nat_of_ascii a, nat_of_ascii b, nat_of_ascii c) in
  ((x =? 225)%nat && (y =? 154)%nat && (z =? 128)%nat)
  || ((x =? 226)%nat && (y =? 128)%nat
      && (((128 <=? z)%nat && (z <=? 138)%nat)
          || (z =? 168)%nat || (z =? 169)%nat || (z =? 175)%nat))
  || ((x =? 226)%nat && (y =? 129)%nat && (z =? 159)%nat)
  || ((x =? 227)%nat && (y =? 128)%nat && (z =? 128)%nat).

Definition nonempty (s : string) : bool :=
  match s with EmptyString => false | String _ _ => true end.

(** [s.lstrip()] *)
Fixpoint lstrip (s : string) : string :=
  match s with
  | EmptyString => EmptyString
  | String a s1 =>
      if is_space a then lstrip s1
      else
        match s1 with
        | EmptyString => s
        | String b s2 =>
            if is_space2 a b then lstrip s2
            else
              match s2 with
              | EmptyString => s
              | String c s3 => if is_space3 a b c then lstrip s3 else s
              end
        end
  end.

(** [s.rstrip()]: a text made of white space only becomes empty; in any
    other text the first byte stays and the rest is stripped. *)
Fixpoint rstrip (s : string) : string :=
  match s with
  | EmptyString => EmptyString
  | String a s' =>
      if nonempty (lstrip s) then String a (rstrip s') else EmptyString
  end.

(** [s.strip()] *)
Definition strip (s : string) : string := rstrip (lstrip s).

Definition lower_ascii (a : ascii) : ascii :=
  let n := nat_of_ascii a in
  if (65 <=? n)%nat && (n <=? 90)%nat then ascii_of_nat (n + 32) else a.

(** [s.lower()] *)
Fixpoint lower (s : string) : string :=
  match s with
  | EmptyString => EmptyString
  | String a s' => String (lower_ascii a) (lower s')
  end.

(** The rest of [s] after the prefix [p], when [s.startswith(p)]. *)
Fixpoint strip_prefix (p s : string) : option string :=
  match p, s with
  | EmptyString, _ => Some s
  | String a p', String b s' =>
      if decide (a = b) then strip_prefix p' s' else None
  | String _ _, EmptyString => None
  end.

Definition startswith (p s : string) : bool :=
  match strip_prefix p s with Some _ => true | None => false end.

(** [s.split(sep, 1)] when [sep] occurs in [s]: the text before and after
    the first occurrence; [None] when [sep] does not occur (the split is
    then the one-element list [[s]]). *)
Fixpoint split_once (sep s : string) : option (string * string) :=
  match strip_prefix sep s with
  | Some rest => Some (EmptyString, rest)
  | None =>
      match s with
      | EmptyString => None
      | String a s' =>
          match split_once sep s' with
          | Some (l, r) => Some (String a l, r)
          | None => None
          end
      end
  end.

(** [sep in s] *)
Definition contains (sep s : string) : bool :=
  match split_once sep s with Some _ => true | None => false end.

(** ** Snapshot records *)

(** One connection record, with the four keys [parse_snapshot] always
    stores: [{'iface', 'state', 'local', 'remote'}]. *)
Record Conn := mkConn {
  iface : string;
  state : string;
  local : string;
  remote : string
}.

(** [proc_totals]: process -> (bytes_in, bytes_out). *)
Definition Totals := odict string (Z * Z).

(** [proc_conns]: process -> connection records, in source order. *)
Definition ProcConns := odict string (list Conn).

(** ** [parse_snapshot], from the header and body that [run_csv] returns *)

Section Parser.

(** [int(s)] on the text of a cell: [None] is [ValueError]. *)
Variable py_int : string -> option Z.

Definition enumerate {A : Type} (l : list A) : list (nat * A) :=
  zip (seq 0 (length l)) l.

(** [idx = {name.lower(): i for i, name in enumerate(header)}] *)
Definition header_index (header : list string) : odict string nat :=
  fold_left (fun idx '(i, name) => dict_set (lower name) i idx)
            (enumerate header) [].

(** [r[col].strip() if col is not None and col < len(r) else ""] *)
Definition cell_text (col : option nat) (r : list string) : string :=
  match col with
  | Some i => match r !! i with Some s => strip s | None => "" end
  | None => ""
  end.

(** [int(r[col]) if col is not None and r[col] else 0], inside the [try]:
    [None] is the exception ([IndexError] of [r[col]] or [ValueError] of
    [int]). *)
Definition cell_int (col : option nat) (r : list string) : option Z :=
  match col with
  | None => Some 0
  | Some i =>
      match r !! i with
      | None => None
      | Some s => if nonempty s then py_int s else Some 0
      end
  end.

(** The [try ... except Exception: bin_, bout_ = 0, 0] block. *)
Definition parse_counters (col_in col_out : option nat) (r : list string)
  : Z * Z :=
  match (bin_ ← cell_int col_in r; bout_ ← cell_int col_out r;
         Some (bin_, bout_)) with
  | Some totals => totals
  | None => (0, 0)
  end.

(** [cell1]: the stripped second cell, [""] for a short row. *)
Definition cell1 (r : list string) : string :=
  match r !! 1%nat with Some s => strip s | None => "" end.

(** [is_conn = "<->" in cell1 or cell1.startswith(("tcp", "udp"))] *)
Definition is_conn (c1 : string) : bool :=
  contains "<->" c1 || (startswith "tcp" c1 || startswith "udp" c1).

Definition or_dash (s : string) : string := if nonempty s then s else "-".

(** The record appended for a connection row. *)
Definition conn_of_row (c1 iface_cell state_cell : string) : Conn :=
  match split_once "<->" c1 with
  | Some (l, r) => mkConn (or_dash iface_cell) (or_dash state_cell) (strip l) (strip r)
  | None => mkConn (or_dash iface_cell) (or_dash state_cell) (strip c1) ""
  end.

(** [d.setdefault(k, []).append(c)] *)
Definition dict_append (k : string) (c : Conn) (d : ProcConns) : ProcConns :=
  dict_set k (default [] (dict_get k d) ++ [c]) d.

(** State of the parsing loop: the two dictionaries and [cur_proc]. *)
Record ParseState := mkParse {
  proc_totals : Totals;
  proc_conns : ProcConns;
  cur_proc : option string
}.

(** One iteration of [for r in body]. *)
Definition parse_row (col_iface col_state col_in col_out : option nat)
    (st : ParseState) (r : list string) : ParseState :=
  let c1 := cell1 r in
  if is_conn c1 then
    match cur_proc st with
    | Some p =>
        mkParse (proc_totals st)
                (dict_append p
                   (conn_of_row c1 (cell_text col_iface r) (cell_text col_state r))
                   (proc_conns st))
                (cur_proc st)
    | None => st
    end
  else if nonempty c1 then
    mkParse (dict_set c1 (parse_counters col_in col_out r) (proc_totals st))
            (dict_setdefault c1 [] (proc_conns st))
            (Some c1)
  else st.

Definition parse_snapshot (header : list string) (body : list (list string))
  : Totals * ProcConns :=
  match header with
  | [] => ([], [])
  | _ =>
      let idx := header_index header in
      let st := fold_left (parse_row (dict_get "interface" idx)
                                     (dict_get "state" idx)
                                     (dict_get "bytes_in" idx)
                                     (dict_get "bytes_out" idx))
                          body (mkParse [] [] None) in
      (proc_totals st, proc_conns st)
  end.

End Parser.

(** ** Interface prioritization: [summarize_ifaces] *)

(** [c.get("iface") or "-"] *)
Definition iface_or_dash (c : Conn) : string := or_dash (iface c).

(** The [seen] dictionary: interface names in encounter order. *)
Definition seen_ifaces (conns : list Conn) : odict string unit :=
  fold_left (fun seen c =>
               let i := iface_or_dash c in
               if dict_mem i seen then seen else dict_set i tt seen)
            conns [].

Definition placeholder : list string := ["-"].
Definition loopbacks : list string := ["lo"; "lo0"].

Definition score (i : string) : Z :=
  if bool_decide (i ∈ placeholder) then -100
  else
    let n := lower i in
    if startswith "en" n then 100
    else if startswith "pdp_ip" n then 90
    else if startswith "utun" n then 80
    else if startswith "awdl" n then 40
    else if bool_decide (n ∈ loopbacks) then -10
    else 50.

(** [key(a) > key(b)] for the key [(score(i), i)]: tuples compare
    lexicographically, strings by code point. *)
Definition key_gt (a b : string) : bool :=
  (score b <? score a) || ((score a =? score b) && String.ltb b a).

(** [max(x :: xs, key=...)]: the first element with the greatest key. *)
Definition max_by_key (x : string) (xs : list string) : string :=
  fold_left (fun best i => if key_gt i best then i else best) xs x.

(** First connection on the primary interface, else the first connection. *)
Definition state_for (primary : string) (conns : list Conn) : string :=
  match list_find (fun c => iface_or_dash c = primary) conns with
  | Some (_, c) => state c
  | None => match conns with c :: _ => state c | [] => "-" end
  end.

Definition summarize_ifaces (conns : list Conn) : string * Z * string :=
  match conns with
  | [] => ("-", 0, "-")
  | _ =>
      let uniq := dict_keys (seen_ifaces conns) in
      let real_ifaces := filter (fun i => i ∉ placeholder) uniq in
      let externals := filter (fun i => i ∉ loopbacks) real_ifaces in
      let candidates :=
        match externals with
        | _ :: _ => externals
        | [] => match real_ifaces with _ :: _ => real_ifaces | [] => ["-"] end
        end in
      let primary :=
        match candidates with
        | x :: xs => max_by_key x xs
        | [] => "-"
        end in
      let extra_real :=
        match real_ifaces with
        | _ :: _ => Z.of_nat (length (remove_dups real_ifaces)) - 1
        | [] => 0
        end in
      (primary, Z.max 0 extra_real, state_for primary conns)
  end.

(** ** Rates and rows: [build_rows] *)

(** In this section the rates are rationals: the function always returns,
    and the rows it returns have the processes, keys and text fields of
    the rows the code builds. The rates as the code computes them are in
    module [B64] below. *)

(** A [proc_rate] entry: [(rin, rout, rsum, rdelta)]. *)
Definition Rate := (Q * Q * Q * Q)%type.

(** The two row shapes: [conn] in process grouping, [remote] and [locals]
    in remote grouping. *)
Inductive RowDetail :=
| ByProcess (conn : string)
| ByRemote (remote_ep : string) (locals : list string).

Record Row := mkRow {
  r_proc : string;
  r_iface : string;
  r_state : string;
  r_detail : RowDetail;
  rin : Q;
  rout : Q;
  rsum : Q;
  rdelta : Q
}.

(** [if dt_seconds <= 0: dt_seconds = 1e-6] *)
Definition floor_dt (dt_seconds : Q) : Q :=
  if Qle_bool dt_seconds 0 then 1e-6%Q else dt_seconds.

(** [max(0, now - prev)] *)
Definition delta (now prev : Z) : Z := Z.max 0 (now - prev).

(** Lines 173-177 over the rationals: the quadruple stored for a process. *)
Definition rate_of (din dout : Z) (dt : Q) : Rate :=
  let rin := (inject_Z din / dt)%Q in
  let rout := (inject_Z dout / dt)%Q in
  let rsum := (rin + rout)%Q in
  let rdelta := Qabs (rin - rout) in
  (rin, rout, rsum, rdelta).

(** [prev_totals.get(proc, (bin_now, bout_now))] *)
Definition prev_counters (prev_totals : Totals) (proc : string)
    (now : Z * Z) : Z * Z :=
  default now (dict_get proc prev_totals).

(** One iteration of [for proc, (bin_now, bout_now) in curr_totals.items()]. *)
Definition rate_step (prev_totals : Totals) (dt : Q)
    (proc_rate : odict string Rate) (item : string * (Z * Z))
  : odict string Rate :=
  let '(proc, (bin_now, bout_now)) := item in
  let '(bin_prev, bout_prev) := prev_counters prev_totals proc (bin_now, bout_now) in
  let din := delta bin_now bin_prev in
  let dout := delta bout_now bout_prev in
  if negb (din =? 0) || negb (dout =? 0)
  then dict_set proc (rate_of din dout dt) proc_rate
  else proc_rate.

Definition proc_rates (prev_totals curr_totals : Totals) (dt : Q)
  : odict string Rate :=
  fold_left (rate_step prev_totals dt) curr_totals [].

(** *** Remote grouping *)

Definition GroupKey := (string * string * string * string)%type.

Definition conn_key (proc : string) (c : Conn) : GroupKey :=
  (proc, iface c, state c, remote c).

(** [e["locals"].append(l)] *)
Definition add_local (l : string) (e : Row) : Row :=
  match r_detail e with
  | ByRemote r ls =>
      mkRow (r_proc e) (r_iface e) (r_state e) (ByRemote r (ls ++ [l]))
            (rin e) (rout e) (rsum e) (rdelta e)
  | ByProcess _ => e
  end.

(** One iteration of [for c in conns]. *)
Definition group_conn (proc : string) (rate : Rate)
    (grouped : odict GroupKey Row) (c : Conn) : odict GroupKey Row :=
  let '(rin, rout, rsum, rdelta) := rate in
  let key := conn_key proc c in
  match dict_get key grouped with
  | None =>
      dict_set key
        (mkRow proc (iface c) (state c) (ByRemote (remote c) [local c])
               rin rout rsum rdelta)
        grouped
  | Some e => dict_set key (add_local (local c) e) grouped
  end.

(** One iteration of [for proc, conns in curr_conns.items()]. *)
Definition group_proc (proc_rate : odict string Rate)
    (grouped : odict GroupKey Row) (item : string * list Conn)
  : odict GroupKey Row :=
  let '(proc, conns) := item in
  match dict_get proc proc_rate with
  | None => grouped
  | Some rate => fold_left (group_conn proc rate) conns grouped
  end.

(** *** Process grouping *)

Definition no_remote : string := "(no remote)".

(** [remotes = [c["remote"] for c in conns if c["remote"]]] *)
Definition remotes_of (conns : list Conn) : list string :=
  filter (fun r => nonempty r = true) (remote <$> conns).

Definition first_remote (conns : list Conn) : string :=
  match remotes_of conns with
  | r :: _ => r
  | [] => no_remote
  end.

(** The overflow annotation appended to the first remote. *)
Definition extra_note (conns : list Conn) : string :=
  let sockets := Z.of_nat (length conns) in
  let distinct_remotes := Z.of_nat (length (remove_dups (remotes_of conns))) in
  if (1 <? distinct_remotes) || (1 <? sockets) then
    "  [+" +:+ pretty (Z.max 0 (distinct_remotes - 1)) +:+ " remotes, +"
           +:+ pretty (Z.max 0 (sockets - 1)) +:+ " sockets]"
  else "".

Definition iface_disp (primary_iface : string) (extra_ifaces : Z) : string :=
  if extra_ifaces <=? 0 then primary_iface
  else primary_iface +:+ " (+" +:+ pretty extra_ifaces +:+ ")".

(** One iteration of [for proc, (rin, rout, rsum, rdelta) in proc_rate.items()]. *)
Definition process_row (curr_conns : ProcConns) (item : string * Rate) : Row :=
  let '(proc, (rin, rout, rsum, rdelta)) := item in
  let conns := default [] (dict_get proc curr_conns) in
  let '(primary_iface, extra_ifaces, state_for_primary) := summarize_ifaces conns in
  mkRow proc (iface_disp primary_iface extra_ifaces) state_for_primary
        (ByProcess (first_remote conns +:+ extra_note conns))
        rin rout rsum rdelta.

Definition build_rows (group : string) (prev_totals curr_totals : Totals)
    (curr_conns : ProcConns) (dt_seconds : Q) : list Row :=
  let dt := floor_dt dt_seconds in
  let proc_rate := proc_rates prev_totals curr_totals dt in
  if decide (group = "remote") then
    dict_values (fold_left (group_proc proc_rate) curr_conns [])
  else
    process_row curr_conns <$> proc_rate.

(** ** Rates in binary64 *)

(** Python's [float] is IEEE 754 binary64, rounding to nearest with ties to
    even. Its values and operations are those of the Standard Library's
    specification of floating-point arithmetic, at precision 53 and
    maximal exponent 1024. *)
Definition b64_prec : Z := 53.
Definition b64_emax : Z := 1024.

Definition float : Type := spec_float.

Definition f_zero : float := S754_zero false.
Definition f_inf : float := S754_infinity false.
Definition f_nan : float := S754_nan.

Definition fadd : float -> float -> float := SFadd b64_prec b64_emax.
Definition fsub : float -> float -> float := SFsub b64_prec b64_emax.
Definition fmul : float -> float -> float := SFmul b64_prec b64_emax.
Definition fdiv : float -> float -> float := SFdiv b64_prec b64_emax.
Definition fabs : float -> float := SFabs.

(** [x <= y], [x < y] and [x == y]: false when either side is NaN. *)
Definition fle (x y : float) : bool := SFleb x y.
Definition flt (x y : float) : bool := SFltb x y.
Definition feq (x y : float) : bool := SFeqb x y.

(** The float nearest to an integer. *)
Definition float_of_Z (z : Z) : float :=
  binary_normalize b64_prec b64_emax z 0 false.

(** The conversion of an [int] operand to [float]: [None] is the
    [OverflowError] of an integer that rounds beyond the largest float. *)
Definition float_of_int (z : Z) : option float :=
  match float_of_Z z with
  | S754_infinity _ => None
  | x => Some x
  end.

(** [int(x)] of a float, towards zero: [None] is the [OverflowError] of an
    infinity or the [ValueError] of NaN. *)
Definition int_of_float (x : float) : option Z :=
  match x with
  | S754_zero _ => Some 0
  | S754_finite s m e =>
      Some (cond_Zopp s (if 0 <=? e then Z.pos m * 2 ^ e
                         else Z.pos m / 2 ^ (- e)))
  | S754_infinity _ | S754_nan => None
  end.

(** [n / d] for an [int] [n] and a [float] [d]: [None] is [OverflowError]
    (of the conversion of [n]) or [ZeroDivisionError]. *)
Definition int_truediv (n : Z) (d : float) : option float :=
  x ← float_of_int n;
  match d with
  | S754_zero _ => None
  | _ => Some (fdiv x d)
  end.

(** The row builder as CPython computes it. [None] is the exception that
    ends [build_rows] before it returns. *)
Module B64.

(** A [proc_rate] entry: [(rin, rout, rsum, rdelta)]. *)
Definition Rate := (float * float * float * float)%type.

Record Row := mkRow {
  r_proc : string;
  r_iface : string;
  r_state : string;
  r_detail : RowDetail;
  rin : float;
  rout : float;
  rsum : float;
  rdelta : float
}.

(** The literal [1e-6]. *)
Definition micro : float := S754_finite false 4722366482869645 (-72).

(** [if dt_seconds <= 0: dt_seconds = 1e-6] *)
Definition floor_dt (dt_seconds : float) : float :=
  if fle dt_seconds f_zero then micro else dt_seconds.

(** Lines 173-177: the quadruple stored for a process. *)
Definition rate_of (din dout : Z) (dt : float) : option Rate :=
  rin ← int_truediv din dt;
  rout ← int_truediv dout dt;
  let rsum := fadd rin rout in
  let rdelta := fabs (fsub rin rout) in
  Some (rin, rout, rsum, rdelta).

(** One iteration of [for proc, (bin_now, bout_now) in curr_totals.items()]. *)
Definition rate_step (prev_totals : Totals) (dt : float)
    (proc_rate : odict string Rate) (item : string * (Z * Z))
  : option (odict string Rate) :=
  let '(proc, (bin_now, bout_now)) := item in
  let '(bin_prev, bout_prev) := prev_counters prev_totals proc (bin_now, bout_now) in
  let din := delta bin_now bin_prev in
  let dout := delta bout_now bout_prev in
  if negb (din =? 0) || negb (dout =? 0)
  then rate ← rate_of din dout dt; Some (dict_set proc rate proc_rate)
  else Some proc_rate.

Definition proc_rates (prev_totals curr_totals : Totals) (dt : float)
  : option (odict string Rate) :=
  fold_left (fun acc item => proc_rate ← acc; rate_step prev_totals dt proc_rate item)
            curr_totals (Some []).

(** [e["locals"].append(l)] *)
Definition add_local (l : string) (e : Row) : Row :=
  match r_detail e with
  | ByRemote r ls =>
      mkRow (r_proc e) (r_iface e) (r_state e) (ByRemote r (ls ++ [l]))
            (rin e) (rout e) (rsum e) (rdelta e)
  | ByProcess _ => e
  end.

(** One iteration of [for c in conns]. *)
Definition group_conn (proc : string) (rate : Rate)
    (grouped : odict GroupKey Row) (c : Conn) : odict GroupKey Row :=
  let '(rin, rout, rsum, rdelta) := rate in
  let key := conn_key proc c in
  match dict_get key grouped with
  | None =>
      dict_set key
        (mkRow proc (iface c) (state c) (ByRemote (remote c) [local c])
               rin rout rsum rdelta)
        grouped
  | Some e => dict_set key (add_local (local c) e) grouped
  end.

(** One iteration of [for proc, conns in curr_conns.items()]. *)
Definition group_proc (proc_rate : odict string Rate)
    (grouped : odict GroupKey Row) (item : string * list Conn)
  : odict GroupKey Row :=
  let '(proc, conns) := item in
  match dict_get proc proc_rate with
  | None => grouped
  | Some rate => fold_left (group_conn proc rate) conns grouped
  end.

(** One iteration of [for proc, (rin, rout, rsum, rdelta) in proc_rate.items()]. *)
Definition process_row (curr_conns : ProcConns) (item : string * Rate) : Row :=
  let '(proc, (rin, rout, rsum, rdelta)) := item in
  let conns := default [] (dict_get proc curr_conns) in
  let '(primary_iface, extra_ifaces, state_for_primary) := summarize_ifaces conns in
  mkRow proc (iface_disp primary_iface extra_ifaces) state_for_primary
        (ByProcess (first_remote conns +:+ extra_note conns))
        rin rout rsum rdelta.

Definition build_rows (group : string) (prev_totals curr_totals : Totals)
    (curr_conns : ProcConns) (dt_seconds : float) : option (list Row) :=
  let dt := floor_dt dt_seconds in
  proc_rate ← proc_rates prev_totals curr_totals dt;
  Some (if decide (group = "remote") then
          dict_values (fold_left (group_proc proc_rate) curr_conns [])
        else
          process_row curr_conns <$> proc_rate).

(** Some row of the list belongs to process [p]. *)
Definition has_row (p : string) (rows : list Row) : Prop :=
  ∃ e, e ∈ rows ∧ r_proc e = p.

(** The key of [rows.sort(key=..., reverse=True)] for a sort key. *)
Definition sort_metric (sort_key : string) (e : Row) : float :=
  if decide (sort_key = "in") then rin e
  else if decide (sort_key = "out") then rout e
  else rdelta e.

(** [list.sort(key=key, reverse=True)] for keys none of which is NaN:
    descending in the key, rows with equal keys in their original order.
    Each row is placed in the sorted rest, before the first row whose key
    is not greater. (With NaN among the keys the order [list.sort] leaves
    depends on the comparisons it happens to make.) *)
Fixpoint insert_desc (key : Row -> float) (x : Row) (l : list Row) : list Row :=
  match l with
  | [] => [x]
  | y :: l' =>
      if flt (key x) (key y) then y :: insert_desc key x l'
      else x :: y :: l'
  end.

Definition sort_desc (key : Row -> float) (rows : list Row) : list Row :=
  foldr (insert_desc key) [] rows.

Definition sort_rows (sort_key : string) (rows : list Row) : list Row :=
  sort_desc (sort_metric sort_key) rows.

(** [max(1e-6, now - prev_time)] *)
Definition tick_dt (now prev_time : float) : float :=
  let d := fsub now prev_time in
  if flt micro d then d else micro.

(** Lines 362-372: the rows of a tick, ranked. The snapshot and the clock
    reading are inputs. *)
Definition tick_rows (group sort_key : string) (prev_totals : Totals)
    (prev_time : float) (snapshot : Totals * ProcConns) (now : float)
  : option (list Row) :=
  let '(curr_totals, curr_conns) := snapshot in
  let dt := tick_dt now prev_time in
  rows ← build_rows group prev_totals curr_totals curr_conns dt;
  Some (sort_rows sort_key rows).

(** Lines 378-380: the key wait in milliseconds and the next tick target,
    for the reading [clock] of [time.monotonic()]. *)
Definition schedule (next_target interval clock : float) : option (Z * float) :=
  let next_target := fadd next_target interval in
  let d := fsub next_target clock in
  let remaining := if flt f_zero d then d else f_zero in
  ms ← int_of_float (fmul remaining (float_of_Z 1000));
  Some (Z.max 10 ms, next_target).

End B64.

(** ** The interactive loop: key dispatch of [ui_loop.loop] *)

(** What [poll_key] returns; [NoKey] is [None]. *)
Inductive Action :=
| Quit | Help | SortIn | SortOut | SortDelta | ToggleMetricColumn
| ChangeInterval | NoKey.

(** [poll_key]'s mapping of a typed character, lower-cased. *)
Definition action_of_char (ch : ascii) : Action :=
  let c := lower_ascii ch in
  if decide (c = "q"%char) then Quit
  else if decide (c = "h"%char) then Help
  else if decide (c = "i"%char) then SortIn
  else if decide (c = "o"%char) then SortOut
  else if decide (c = "d"%char) then SortDelta
  else if decide (c = "m"%char) then ToggleMetricColumn
  else if decide (c = "t"%char) then ChangeInterval
  else NoKey.

(** The variables the loop mutates: the [nonlocal] ones, [args.interval]
    and [next_target]. *)
Record LoopState := mkLoop {
  prev_totals : Totals;
  prev_time : Q;
  display_metric : string;
  sort_key : string;
  show_help : bool;
  interval : Q;
  next_target : Q
}.

Section KeyDispatch.

(** [float(s)]: [None] is [ValueError]. *)
Variable py_float : string -> option Q.

(** Lines 392-398: the interval after the prompt returned [s]. *)
Definition interval_after_prompt (old : Q) (s : string) : Q :=
  if nonempty s then
    match py_float s with
    | Some val => if Qlt_le_dec 0 val then val else old
    | None => old
    end
  else old.

(** Lines 383-399. [s] is the text [prompt_interval_blocking] returns and
    [now] the reading of [time.monotonic()] after it; both are consulted
    only for [ChangeInterval]. [None] is the [break]. *)
Definition apply_action (a : Action) (s : string) (now : Q) (st : LoopState)
  : option LoopState :=
  match a with
  | Quit => None
  | Help =>
      Some (mkLoop (prev_totals st) (prev_time st) (display_metric st)
                   (sort_key st) (negb (show_help st)) (interval st)
                   (next_target st))
  | SortIn =>
      Some (mkLoop (prev_totals st) (prev_time st) (display_metric st)
                   "in" (show_help st) (interval st) (next_target st))
  | SortOut =>
      Some (mkLoop (prev_totals st) (prev_time st) (display_metric st)
                   "out" (show_help st) (interval st) (next_target st))
  | SortDelta =>
      Some (mkLoop (prev_totals st) (prev_time st) (display_metric st)
                   "delta" (show_help st) (interval st) (next_target st))
  | ToggleMetricColumn =>
      Some (mkLoop (prev_totals st) (prev_time st)
                   (if decide (display_metric st = "delta") then "sum" else "delta")
                   (sort_key st) (show_help st) (interval st) (next_target st))
  | ChangeInterval =>
      Some (mkLoop (prev_totals st) (prev_time st) (display_metric st)
                   (sort_key st) (show_help st)
                   (interval_after_prompt (interval st) s) now)
  | NoKey => Some st
  end.

End KeyDispatch.

(** A reader for ASCII integer literals as [int] takes them with the
    default settings, used to instantiate [py_int] on concrete cells:
    optional sign, decimal digits with single underscores between them, at
    most 4300 digits, blanks of C's [isspace] around. *)

Definition digit_of (a : ascii) : option Z :=
  let n := nat_of_ascii a in
  if (48 <=? n)%nat && (n <=? 57)%nat then Some (Z.of_nat (n - 48)) else None.

Fixpoint int_digits (acc : Z) (s : string) : option Z :=
  match s with
  | EmptyString => Some acc
  | String a s' =>
      match digit_of a with
      | Some d => int_digits (10 * acc + d) s'
      | None =>
          if decide (a = "_"%char) then
            match s' with
            | String b s'' =>
                match digit_of b with
                | Some d => int_digits (10 * acc + d) s''
                | None => None
                end
            | EmptyString => None
            end
          else None
      end
  end.

Fixpoint digit_count (s : string) : Z :=
  match s with
  | EmptyString => 0
  | String a s' =>
      (match digit_of a with Some _ => 1 | None => 0 end) + digit_count s'
  end.

Definition int_unsigned (s : string) : option Z :=
  match s with
  | String a s' =>
      match digit_of a with
      | Some d => if 4300 <? digit_count s then None else int_digits d s'
      | None => None
      end
  | EmptyString => None
  end.

Definition is_c_space (a : ascii) : bool :=
  let n := nat_of_ascii a in
  ((9 <=? n)%nat && (n <=? 13)%nat) || (n =? 32)%nat.

Fixpoint ltrim_c (s : string) : string :=
  match s with
  | EmptyString => EmptyString
  | String a s' => if is_c_space a then ltrim_c s' else s
  end.

Fixpoint rtrim_c (s : string) : string :=
  match s with
  | EmptyString => EmptyString
  | String a s' =>
      let t := rtrim_c s' in
      if is_c_space a && negb (nonempty t) then EmptyString else String a t
  end.

Definition read_int (s : string) : option Z :=
  match rtrim_c (ltrim_c s) with
  | String "+" t => int_unsigned t
  | String "-" t => Z.opp <$> int_unsigned t
  | t => int_unsigned t
  end.

(** A reader for plain decimal literals ([12], [0.5], [-3.25], [.5], [2.]),
    used to instantiate [py_float] on concrete prompts. *)

Fixpoint frac_digits (num den : Z) (s : string) : option (Z * Z) :=
  match s with
  | EmptyString => Some (num, den)
  | String a s' =>
      match digit_of a with
      | Some d => frac_digits (10 * num + d) (10 * den) s'
      | None => None
      end
  end.

Fixpoint whole_digits (seen : bool) (acc : Z) (s : string) : option (Z * Z) :=
  match s with
  | EmptyString => if seen then Some (acc, 1) else None
  | String a s' =>
      match digit_of a with
      | Some d => whole_digits true (10 * acc + d) s'
      | None =>
          if decide (a = "."%char) then
            if seen || nonempty s' then frac_digits acc 1 s' else None
          else None
      end
  end.

Definition to_Q (nd : Z * Z) : Q := (inject_Z nd.1 / inject_Z nd.2)%Q.

Definition read_decimal (s : string) : option Q :=
  match strip s with
  | String "-" t => (fun nd => (- to_Q nd)%Q) <$> whole_digits false 0 t
  | String "+" t => to_Q <$> whole_digits false 0 t
  | t => to_Q <$> whole_digits false 0 t
  end.

(** ** The command line: [build_nettop_cmd] *)

(** [sep.join(l)] *)
Fixpoint join (sep : string) (l : list string) : string :=
  match l with
  | [] => ""
  | [x] => x
  | x :: l' => x +:+ sep +:+ join sep l'
  end.

(** [s.split()]: the maximal runs of characters that are not white space. *)
Fixpoint split_ws (s : string) : list string :=
  match s with
  | EmptyString => []
  | String a s' =>
      if is_space a then split_ws s'
      else
        match s' with
        | EmptyString => [String a EmptyString]
        | String b _ =>
            if is_space b then String a EmptyString :: split_ws s'
            else
              match split_ws s' with
              | w :: ws => String a w :: ws
              | [] => [String a EmptyString]
              end
        end
  end.

Definition build_nettop_cmd (nettop_args : list string) : list string :=
  let cmd := "nettop" :: nettop_args in
  let flat := lower (join " " cmd) in
  let cmd := if bool_decide ("-n" ∈ split_ws flat) then cmd else cmd ++ ["-n"] in
  let cmd := if bool_decide ("-x" ∈ split_ws flat) then cmd else cmd ++ ["-x"] in
  if negb (contains "-l" flat) && negb (contains "-L" flat)
  then cmd ++ ["-L"; "1"]
  else cmd.

(** ** Ranking and rendering of rows *)

(** The key of [rows.sort(key=..., reverse=True)] for a sort key. *)
Definition sort_metric (sort_key : string) (e : Row) : Q :=
  if decide (sort_key = "in") then rin e
  else if decide (sort_key = "out") then rout e
  else rdelta e.

(** [list.sort(key=key, reverse=True)]: descending in the key, rows with
    equal keys in their original order. Each row is placed in the sorted
    rest, before the first row whose key is not greater. *)
Fixpoint insert_desc (key : Row -> Q) (x : Row) (l : list Row) : list Row :=
  match l with
  | [] => [x]
  | y :: l' =>
      if Qlt_le_dec (key x) (key y) then y :: insert_desc key x l'
      else x :: y :: l'
  end.

Definition sort_desc (key : Row -> Q) (rows : list Row) : list Row :=
  foldr (insert_desc key) [] rows.

Definition sort_rows (sort_key : string) (rows : list Row) : list Row :=
  sort_desc (sort_metric sort_key) rows.

(** [e["rdelta"] if display_metric == "delta" else e["rsum"]] *)
Definition metric_val (display_metric : string) (e : Row) : Q :=
  if decide (display_metric = "delta") then rdelta e else rsum e.

(** [a > b] on rates. *)
Definition Qgtb (a b : Q) : bool := negb (Qle_bool a b).

(** [draw]: [thr_bytes > 0 and metric_val > thr_bytes]. *)
Definition hilite_ui (threshold mv : Q) : bool :=
  let thr_bytes := (threshold * 1024)%Q in
  Qgtb thr_bytes 0 && Qgtb mv thr_bytes.

(** [non_ui_loop]: [args.threshold > 0 and metric_val > thr_bytes]. *)
Definition hilite_stream (threshold mv : Q) : bool :=
  let thr_bytes := (threshold * 1024)%Q in
  Qgtb threshold 0 && Qgtb mv thr_bytes.

(** The connection column; [None] is the [KeyError] of a row that has not
    the shape of the grouping mode. *)
Definition conn_str (group : string) (e : Row) : option string :=
  if decide (group = "remote") then
    match r_detail e with
    | ByRemote r locals_list =>
        let prefix :=
          match locals_list with
          | first_local :: _ =>
              if nonempty first_local then first_local +:+ "<->" else ""
          | [] => ""
          end in
        let extra :=
          if (1 <? length locals_list)%nat
          then " [+" +:+ pretty (Z.of_nat (length locals_list) - 1) +:+ "]"
          else "" in
        Some (prefix +:+ r +:+ extra)
    | ByProcess _ => None
    end
  else
    match r_detail e with
    | ByProcess c => Some c
    | ByRemote _ _ => None
    end.

(** The row loop of [draw]: rows are drawn until [args.top] rows are shown
    or the line [top] reaches the last screen line [maxy - 1]. *)
Fixpoint drawn_rows (args_top maxy top shown : Z) (rows : list Row)
  : list Row :=
  match rows with
  | [] => []
  | e :: rest =>
      if (args_top <=? shown) || (maxy - 1 <=? top) then []
      else e :: drawn_rows args_top maxy (top + 1) (shown + 1) rest
  end.

(** The row loop of [non_ui_loop]: only [args.top] bounds it. *)
Fixpoint printed_rows (args_top shown : Z) (rows : list Row) : list Row :=
  match rows with
  | [] => []
  | e :: rest =>
      if args_top <=? shown then []
      else e :: printed_rows args_top (shown + 1) rest
  end.

(** ** One tick of the loops *)

(** [max(1e-6, now - prev_time)] *)
Definition tick_dt (now prev_time : Q) : Q :=
  if Qlt_le_dec 1e-6 (now - prev_time) then (now - prev_time)%Q else 1e-6%Q.


(** ** Views used to state the properties *)

(** The entry [rate_step] stores for one item of [curr_totals], if any. *)
Definition rate_entry (prev_totals : Totals) (dt : Q)
    (item : string * (Z * Z)) : option (string * Rate) :=
  let '(proc, (bin_now, bout_now)) := item in
  let '(bin_prev, bout_prev) := prev_counters prev_totals proc (bin_now, bout_now) in
  let din := delta bin_now bin_prev in
  let dout := delta bout_now bout_prev in
  if negb (din =? 0) || negb (dout =? 0)
  then Some (proc, rate_of din dout dt)
  else None.

(** The quadruple a row carries. *)
Definition row_rate (e : Row) : Rate := (rin e, rout e, rsum e, rdelta e).

(** The grouping key a remote-mode row stands for. *)
Definition row_key (e : Row) : GroupKey :=
  match r_detail e with
  | ByRemote r _ => (r_proc e, r_iface e, r_state e, r)
  | ByProcess _ => (r_proc e, r_iface e, r_state e, "")
  end.

Definition row_locals (e : Row) : list string :=
  match r_detail e with
  | ByRemote _ ls => ls
  | ByProcess _ => []
  end.

(** Some row of the list belongs to process [p]. *)
Definition has_row (p : string) (rows : list Row) : Prop :=
  ∃ e, e ∈ rows ∧ r_proc e = p.

(** Remote grouping seen as one loop: the connections of the processes
    that have a rate entry, each with its process and quadruple, in the
    order the nested loops visit them. *)
Definition Tagged := (string * Rate * Conn)%type.

Definition rated_conns (proc_rate : odict string Rate) (curr_conns : ProcConns)
  : list Tagged :=
  item ← curr_conns;
  match dict_get item.1 proc_rate with
  | Some rate => (fun c => (item.1, rate, c)) <$> item.2
  | None => []
  end.

Definition tag_key (x : Tagged) : GroupKey := conn_key x.1.1 x.2.

Definition group_step (grouped : odict GroupKey Row) (x : Tagged)
  : odict GroupKey Row :=
  group_conn x.1.1 x.1.2 grouped x.2.

(** The row of a group whose first connection is [x] and whose later
    connections are [ms]. *)
Definition group_row (x : Tagged) (ms : list Tagged) : Row :=
  let '(p, (ri, ro, rs, rd), c) := x in
  mkRow p (iface c) (state c)
        (ByRemote (remote c) (local c :: ((fun y : Tagged => local y.2) <$> ms)))
        ri ro rs rd.

(** Appending the locals of later connections to a row. *)
Definition extend (e : Row) (ms : list Tagged) : Row :=
  fold_left (fun e y => add_local (local y.2) e) ms e.

(** A dictionary proper: no key bound twice. *)
Definition wf_dict {K V : Type} (d : list (K * V)) : Prop := NoDup d.*1.

(** The invariant of the parsing loop: the two dictionaries bind the same processes, in the same order, each
    once, and [cur_proc] is one of them. *)
Definition parse_inv (st : ParseState) : Prop :=
  (proc_totals st).*1 = (proc_conns st).*1 ∧
  NoDup (proc_totals st).*1 ∧
  ∀ p, cur_proc st = Some p → p ∈ (proc_conns st).*1.

(** The candidate pool of [summarize_ifaces]: [externals or real_ifaces
    or ["-"]], for the names [uniq] met in the connections. *)
Definition candidate_pool (conns : list Conn) : list string :=
  let uniq := dict_keys (seen_ifaces conns) in
  let real_ifaces := filter (fun i => i ∉ placeholder) uniq in
  let externals := filter (fun i => i ∉ loopbacks) real_ifaces in
  match externals with
  | _ :: _ => externals
  | [] => match real_ifaces with _ :: _ => real_ifaces | [] => ["-"] end
  end.




(** Interface classes of the scoring, as properties of a name. *)
Definition peer_to_peer (i : string) : Prop :=
  startswith "awdl" (lower i) = true.

(** A real interface that is not a loopback and has none of the prefixes
    the scoring knows. *)
Definition unrecognized (i : string) : Prop :=
  i ≠ "" ∧ (i ∉ placeholder) ∧
  startswith "en" (lower i) = false ∧
  startswith "pdp_ip" (lower i) = false ∧
  startswith "utun" (lower i) = false ∧
  startswith "awdl" (lower i) = false ∧
  (lower i ∉ loopbacks).

(** A record that only names its interface: [summarize_ifaces] reads the
    state with default ["-"] and does not read the endpoints. *)
Definition iface_only (i : string) : Conn := mkConn i "-" "" "".

(** *** Binary64 *)

(** [x] is a number of sign [s]: a zero, a finite number or an infinity. *)
Definition signed (s : bool) (x : float) : Prop :=
  match x with
  | S754_nan => False
  | S754_zero s' | S754_infinity s' | S754_finite s' _ _ => s' = s
  end.

(** A zero or a finite number, of positive sign. *)
Definition finite_nonneg (x : float) : Prop :=
  match x with
  | S754_zero false | S754_finite false _ _ => True
  | _ => False
  end.

(** A float greater than zero. *)
Definition positive_float (x : float) : Prop :=
  match x with
  | S754_finite false _ _ | S754_infinity false => True
  | _ => False
  end.

(** The order of the floats that are not NaN: class (negative infinity,
    negative, zero, positive, positive infinity), then exponent, then
    mantissa. *)
Definition frank (x : float) : Z * Z * Z :=
  match x with
  | S754_infinity true => (-2, 0, 0)
  | S754_finite true m e => (-1, - e, Z.neg m)
  | S754_zero _ | S754_nan => (0, 0, 0)
  | S754_finite false m e => (1, e, Z.pos m)
  | S754_infinity false => (2, 0, 0)
  end.

Definition lex_lt (a b : Z * Z * Z) : Prop :=
  a.1.1 < b.1.1 ∨ (a.1.1 = b.1.1 ∧ (a.1.2 < b.1.2 ∨ (a.1.2 = b.1.2 ∧ a.2 < b.2))).

Definition lex_eq (a b : Z * Z * Z) : Prop :=
  a.1.1 = b.1.1 ∧ a.1.2 = b.1.2 ∧ a.2 = b.2.

(** What one iteration of the binary64 rate loop does with an item of
    [curr_totals]: nothing ([Some None]), an entry, or an exception
    ([None]). *)
Definition rate_entry64 (prev_totals : Totals) (dt : float)
    (item : string * (Z * Z)) : option (option B64.Rate) :=
  let '(proc, (bin_now, bout_now)) := item in
  let '(bin_prev, bout_prev) := prev_counters prev_totals proc (bin_now, bout_now) in
  let din := delta bin_now bin_prev in
  let dout := delta bout_now bout_prev in
  if negb (din =? 0) || negb (dout =? 0)
  then Some <$> B64.rate_of din dout dt
  else Some None.

(** A row of the exact pipeline with the binary64 quadruple of its
    process. *)
Definition with_rate (proc_rate : odict string B64.Rate) (e : Row) : B64.Row :=
  let '(ri, ro, rs, rd) :=
    default (f_zero, f_zero, f_zero, f_zero) (dict_get (r_proc e) proc_rate) in
  B64.mkRow (r_proc e) (r_iface e) (r_state e) (r_detail e) ri ro rs rd.

(** Every clamped delta of the tick converts to a float. *)
Definition deltas_convert (prev_totals curr_totals : Totals) : Prop :=
  ∀ p bin_now bout_now bin_prev bout_prev,
    (p, (bin_now, bout_now)) ∈ curr_totals →
    dict_get p prev_totals = Some (bin_prev, bout_prev) →
    is_Some (float_of_int (Z.max 0 (bin_now - bin_prev))) ∧
    is_Some (float_of_int (Z.max 0 (bout_now - bout_prev))).

(** ** Sample ticks *)

(** Process [P] received 1024 bytes; the counters of [Q] went down on the
    inbound side and up by 200 on the outbound side. *)
Definition tick_prev : Totals := [("P", (0, 0)); ("Q", (500, 100))].
Definition tick_curr : Totals := [("P", (1024, 0)); ("Q", (20, 300))].

(** [P] has two sockets to the same remote on the same interface, [Q] has
    no connection record. *)
Definition tick_conns : ProcConns :=
  [("P", [mkConn "en0" "Established" "10.0.0.2:50001" "93.184.216.34:443";
          mkConn "en0" "Established" "10.0.0.2:50002" "93.184.216.34:443"]);
   ("Q", [])].

Definition tick_row_P_process : Row :=
  mkRow "P" "en0" "Established"
        (ByProcess "93.184.216.34:443  [+0 remotes, +1 sockets]")
        (inject_Z 1024 / 1) (inject_Z 0 / 1)
        (inject_Z 1024 / 1 + inject_Z 0 / 1)
        (Qabs (inject_Z 1024 / 1 - inject_Z 0 / 1)).

Definition tick_row_Q_process : Row :=
  mkRow "Q" "-" "-" (ByProcess "(no remote)")
        (inject_Z 0 / 1) (inject_Z 200 / 1)
        (inject_Z 0 / 1 + inject_Z 200 / 1)
        (Qabs (inject_Z 0 / 1 - inject_Z 200 / 1)).

Definition tick_row_P_remote : Row :=
  mkRow "P" "en0" "Established"
        (ByRemote "93.184.216.34:443" ["10.0.0.2:50001"; "10.0.0.2:50002"])
        (inject_Z 1024 / 1) (inject_Z 0 / 1)
        (inject_Z 1024 / 1 + inject_Z 0 / 1)
        (Qabs (inject_Z 1024 / 1 - inject_Z 0 / 1)).

(** A process whose only socket is listening: [parse_snapshot] records an
    empty remote for a connection row without the [<->] separator. *)
Definition listen_conns : ProcConns :=
  [("P", [mkConn "en0" "Listen" "tcp4 *:8080" ""])].

Definition tick_row_P_listen : Row :=
  mkRow "P" "en0" "Listen" (ByProcess "(no remote)")
        (inject_Z 1024 / 1) (inject_Z 0 / 1)
        (inject_Z 1024 / 1 + inject_Z 0 / 1)
        (Qabs (inject_Z 1024 / 1 - inject_Z 0 / 1)).

(** A [nettop -x] header as [run_csv] returns it (second column renamed
    to [process]) and a process-summary row whose bytes-out cell is not an
    integer. *)
Definition nettop_header : list string :=
  ["time"; "process"; "interface"; "state"; "bytes_in"; "bytes_out"].

Definition garbled_row : list string :=
  ["12:00:00.000000"; "Safari.1234"; ""; ""; "100"; "1.2 KiB"].

(** A loop state: three-second interval, next tick due at time 5. *)
Definition loop_state_0 : LoopState := mkLoop [] 0 "delta" "delta" true 3 5.

(** *** A tick in binary64 *)

(** Elapsed times: [3.0], [0.5] and [0.25]. *)
Definition three_seconds : float := float_of_Z 3.
Definition half_second : float := fdiv (float_of_Z 1) (float_of_Z 2).
Definition quarter_second : float := fdiv (float_of_Z 1) (float_of_Z 4).

(** Over three seconds [P] received 1024 bytes and sent 300; the inbound
    counter of [Q] went down and its outbound counter up by 200. *)
Definition tick64_prev : Totals := [("P", (700, 100)); ("Q", (500, 100))].
Definition tick64_curr : Totals := [("P", (1724, 400)); ("Q", (20, 300))].

(** The rates of [P] are the floats nearest to 1024/3, 100, then their
    float sum and difference (341.3333333333333, 100.0, 441.3333333333333
    and 241.33333333333331); those of [Q] are 0.0 and the float nearest to
    200/3. *)
Definition tick64_row_P_process : B64.Row :=
  B64.mkRow "P" "en0" "Established"
    (ByProcess "93.184.216.34:443  [+0 remotes, +1 sockets]")
    (S754_finite false 6004799503160661 (-44))
    (S754_finite false 7036874417766400 (-46))
    (S754_finite false 7764018107602261 (-44))
    (S754_finite false 8491161797438122 (-45)).

Definition tick64_row_Q_process : B64.Row :=
  B64.mkRow "Q" "-" "-" (ByProcess "(no remote)")
    (S754_zero false)
    (S754_finite false 4691249611844267 (-46))
    (S754_finite false 4691249611844267 (-46))
    (S754_finite false 4691249611844267 (-46)).

Definition tick64_row_P_remote : B64.Row :=
  B64.mkRow "P" "en0" "Established"
    (ByRemote "93.184.216.34:443" ["10.0.0.2:50001"; "10.0.0.2:50002"])
    (S754_finite false 6004799503160661 (-44))
    (S754_finite false 7036874417766400 (-46))
    (S754_finite false 7764018107602261 (-44))
    (S754_finite false 8491161797438122 (-45)).

(** Counters so large that both rates exceed the largest float. *)
Definition huge_prev : Totals := [("P", (0, 0))].
Definition huge_curr : Totals := [("P", (10 ^ 308, 10 ^ 308))].

Definition huge_row_process : B64.Row :=
  B64.mkRow "P" "-" "-" (ByProcess "(no remote)") f_inf f_inf f_inf f_nan.

Definition surge_curr : Totals := [("P", (10 ^ 308, 5 * 10 ^ 307))].

Definition surge_row_remote : B64.Row :=
  B64.mkRow "P" "en0" "Established"
    (ByRemote "93.184.216.34:443" ["10.0.0.2:50001"; "10.0.0.2:50002"])
    f_inf f_inf f_inf f_nan.

(** A counter too large to convert to a float. *)
Definition beyond_curr : Totals := [("P", (10 ^ 400, 5))].

(** * Properties *)

(** Closed decidable facts, by evaluation. *)
Ltac by_decide := apply (bool_decide_unpack _); vm_compute; exact I.

(** ** Facts about ordered dictionaries *)

Section DictFacts.
Context {K V : Type} `{EqDecision K}.
Implicit Types (k : K) (v : V) (d : list (K * V)).

Lemma dict_get_Some_elem k v d : dict_get k d = Some v → (k, v) ∈ d.
Proof.
  induction d as [|[k' v'] d IH]; simpl; [done|].
  case_decide as Hk.
  - intros Hg. injection Hg as <-. rewrite Hk. left.
  - intros Hg. right. auto.
Qed.

Lemma dict_get_None k d : dict_get k d = None ↔ k ∉ d.*1.
Proof.
  induction d as [|[k' v'] d IH]; simpl.
  - split; [intros _; apply not_elem_of_nil|done].
  - case_decide as Hk.
    + subst. split; [done|]. intros Hn. exfalso. apply Hn. left.
    + rewrite IH, not_elem_of_cons. split; [intros Hn; split; [congruence|done]|].
      by intros [_ Hn].
Qed.

Lemma dict_get_is_Some k d : is_Some (dict_get k d) ↔ k ∈ d.*1.
Proof.
  destruct (dict_get k d) eqn:Hg.
  - split; [intros _|by eauto].
    apply dict_get_Some_elem in Hg. apply list_elem_of_fmap. by exists (k, v).
  - apply dict_get_None in Hg. split; [by intros [? ?]|done].
Qed.

Lemma dict_get_elem_wf k v d : wf_dict d → (k, v) ∈ d → dict_get k d = Some v.
Proof.
  unfold wf_dict. induction d as [|[k' v'] d IH]; simpl.
  - intros _ Hin. by apply elem_of_nil in Hin.
  - intros Hnd Hin. apply NoDup_cons in Hnd as [Hk' Hnd].
    apply elem_of_cons in Hin as [Heq|Hin].
    + injection Heq as -> ->. by rewrite decide_True.
    + rewrite decide_False; [by apply IH|].
      intros ->. apply Hk'. apply list_elem_of_fmap. by exists (k, v).
Qed.

Lemma dict_get_set_eq k v d : dict_get k (dict_set k v d) = Some v.
Proof.
  induction d as [|[k' v'] d IH]; simpl.
  - by rewrite decide_True.
  - case_decide as Hk; simpl.
    + by rewrite decide_True.
    + by rewrite decide_False.
Qed.

Lemma dict_get_set_ne k k' v d :
  k ≠ k' → dict_get k' (dict_set k v d) = dict_get k' d.
Proof.
  intros Hne. induction d as [|[k0 v0] d IH]; simpl.
  - by rewrite decide_False.
  - case_decide as Hk; simpl.
    + subst k0. by rewrite !decide_False.
    + by rewrite IH.
Qed.

Lemma dict_set_fresh k v d : k ∉ d.*1 → dict_set k v d = d ++ [(k, v)].
Proof.
  induction d as [|[k' v'] d IH]; simpl; [done|].
  intros Hn. apply not_elem_of_cons in Hn as [Hne Hn].
  rewrite decide_False by done. by rewrite IH.
Qed.

Lemma dict_set_keys_bound k v d : k ∈ d.*1 → (dict_set k v d).*1 = d.*1.
Proof.
  induction d as [|[k' v'] d IH]; simpl.
  - intros Hin. by apply elem_of_nil in Hin.
  - intros Hin. case_decide as Hk; csimpl; [done|].
    apply elem_of_cons in Hin as [->|Hin]; [done|]. f_equal. by apply IH.
Qed.

Lemma dict_set_wf k v d : wf_dict d → wf_dict (dict_set k v d).
Proof.
  unfold wf_dict. intros Hnd.
  destruct (decide (k ∈ d.*1)) as [Hin|Hn].
  - by rewrite dict_set_keys_bound.
  - rewrite dict_set_fresh, fmap_app by done. simpl.
    apply NoDup_app. split_and!; [done| |apply NoDup_singleton].
    intros x Hx Hx'. apply list_elem_of_singleton in Hx'. by subst.
Qed.

Lemma dict_set_elem k v k' v' d :
  (k', v') ∈ dict_set k v d → (k' = k ∧ v' = v) ∨ (k', v') ∈ d.
Proof.
  induction d as [|[k0 v0] d IH]; simpl.
  - intros Hin. apply list_elem_of_singleton in Hin. left. by injection Hin.
  - case_decide as Hk.
    + intros Hin. apply elem_of_cons in Hin as [Heq|Hin].
      * left. injection Heq as -> ->. done.
      * right. by right.
    + intros Hin. apply elem_of_cons in Hin as [Heq|Hin].
      * right. rewrite Heq. left.
      * destruct (IH Hin) as [?|?]; [by left|right; by right].
Qed.

Lemma dict_set_values (P : V → Prop) k v d :
  P v → Forall P d.*2 → Forall P (dict_set k v d).*2.
Proof.
  intros Hv. induction d as [|[k0 v0] d IH]; simpl.
  - intros _. by constructor.
  - intros Hall. apply Forall_cons in Hall as [H0 Hall].
    case_decide; simpl; constructor; auto.
Qed.

End DictFacts.

Lemma dict_set_keys {K V : Type} `{EqDecision K} (k : K) (v : V)
    (d : list (K * V)) :
  (dict_set k v d).*1 = if decide (k ∈ d.*1) then d.*1 else d.*1 ++ [k].
Proof.
  case_decide as Hin.
  - by apply dict_set_keys_bound.
  - by rewrite dict_set_fresh, fmap_app.
Qed.

(** ** The rate engine *)

Lemma floor_dt_pos dt : (0 < floor_dt dt)%Q.
Proof.
  unfold floor_dt. destruct (Qle_bool dt 0) eqn:Hle; [reflexivity|].
  apply Qnot_le_lt. intros Hc. apply Qle_bool_iff in Hc. congruence.
Qed.

Lemma delta_nonneg now prev : 0 ≤ delta now prev.
Proof. unfold delta. lia. Qed.

(** What [rate_step] does, through [rate_entry]. *)
Lemma rate_step_entry prev dt acc item :
  rate_step prev dt acc item =
  match rate_entry prev dt item with
  | Some (p, r) => dict_set p r acc
  | None => acc
  end.
Proof.
  unfold rate_step, rate_entry. destruct item as [p [bn bo]].
  destruct (prev_counters prev p (bn, bo)) as [bpi bpo].
  by destruct (negb (delta bn bpi =? 0) || negb (delta bo bpo =? 0)).
Qed.

Lemma rate_entry_proc prev dt item p r :
  rate_entry prev dt item = Some (p, r) → p = item.1.
Proof.
  unfold rate_entry. destruct item as [p' [bn bo]].
  destruct (prev_counters prev p' (bn, bo)) as [bpi bpo].
  destruct (negb _ || negb _); [|done]. by intros [= -> _].
Qed.

(** An entry is stored exactly for a non-zero clamped delta, and holds the
    quadruple computed from the two clamped deltas. *)
Lemma rate_entry_spec prev dt p bn bo :
  let '(bpi, bpo) := prev_counters prev p (bn, bo) in
  (delta bn bpi ≠ 0 ∨ delta bo bpo ≠ 0 →
     rate_entry prev dt (p, (bn, bo))
     = Some (p, rate_of (delta bn bpi) (delta bo bpo) dt)) ∧
  (delta bn bpi = 0 ∧ delta bo bpo = 0 →
     rate_entry prev dt (p, (bn, bo)) = None).
Proof.
  unfold rate_entry. destruct (prev_counters prev p (bn, bo)) as [bpi bpo].
  split.
  - intros Hnz.
    destruct (Z.eqb_spec (delta bn bpi) 0), (Z.eqb_spec (delta bo bpo) 0);
      simpl; try done. lia.
  - intros [-> ->]. done.
Qed.

(** Every entry of [proc_rate] was computed from an item of [curr_totals]. *)
Lemma proc_rates_sound prev curr dt p r :
  (p, r) ∈ proc_rates prev curr dt →
  ∃ item, item ∈ curr ∧ rate_entry prev dt item = Some (p, r).
Proof.
  unfold proc_rates.
  assert (Hgen : ∀ acc,
    (p, r) ∈ fold_left (rate_step prev dt) curr acc →
    (p, r) ∈ acc ∨ ∃ item, item ∈ curr ∧ rate_entry prev dt item = Some (p, r)).
  { induction curr as [|item curr IH]; simpl; intros acc Hin; [by left|].
    destruct (IH _ Hin) as [Hacc|(it & Hit & He)].
    - rewrite rate_step_entry in Hacc.
      destruct (rate_entry prev dt item) as [[p' r']|] eqn:He.
      + apply dict_set_elem in Hacc as [[-> ->]|Hacc]; [|by left].
        right. exists item. split; [left|done].
      + by left.
    - right. exists it. split; [by right|done]. }
  intros Hin. destruct (Hgen [] Hin) as [Hnil|?]; [|done].
  by apply elem_of_nil in Hnil.
Qed.

(** On a dictionary proper, [proc_rate] is the list of stored entries, in
    the order of [curr_totals]. *)
Lemma proc_rates_omap prev curr dt :
  wf_dict curr → proc_rates prev curr dt = omap (rate_entry prev dt) curr.
Proof.
  unfold proc_rates, wf_dict.
  assert (Hgen : ∀ acc,
    NoDup curr.*1 → (∀ k, k ∈ curr.*1 → k ∉ acc.*1) →
    fold_left (rate_step prev dt) curr acc = acc ++ omap (rate_entry prev dt) curr).
  { induction curr as [|item curr IH]; csimpl; intros acc Hnd Hdis.
    - by rewrite app_nil_r.
    - apply NoDup_cons in Hnd as [Hfresh Hnd].
      rewrite rate_step_entry.
      destruct (rate_entry prev dt item) as [[p r]|] eqn:He.
      + pose proof (rate_entry_proc _ _ _ _ _ He) as ->.
        rewrite IH; [|done|].
        * rewrite dict_set_fresh by (apply Hdis; left).
          by rewrite <- app_assoc.
        * intros k Hk. rewrite dict_set_fresh by (apply Hdis; left).
          rewrite fmap_app, elem_of_app. intros [Hacc|Hitem].
          -- by apply (Hdis k); [right|].
          -- apply list_elem_of_singleton in Hitem. simpl in Hitem. by subst.
      + apply IH; [done|]. intros k Hk. apply Hdis. by right. }
  intros Hnd. rewrite Hgen; [done|done|].
  intros k _. apply not_elem_of_nil.
Qed.

Lemma proc_rates_wf prev curr dt : wf_dict (proc_rates prev curr dt).
Proof.
  unfold proc_rates.
  assert (Hgen : ∀ acc, wf_dict acc →
                        wf_dict (fold_left (rate_step prev dt) curr acc)).
  { induction curr as [|item curr IH]; simpl; intros acc Hacc; [done|].
    apply IH. rewrite rate_step_entry.
    destruct (rate_entry prev dt item) as [[p r]|]; [|done].
    by apply dict_set_wf. }
  apply Hgen. apply NoDup_nil_2.
Qed.

(** ** Remote grouping *)

Lemma group_proc_tagged proc_rate curr_conns :
  fold_left (group_proc proc_rate) curr_conns []
  = fold_left group_step (rated_conns proc_rate curr_conns) [].
Proof.
  unfold rated_conns. generalize (@nil (GroupKey * Row)) as g.
  induction curr_conns as [|[p cs] rest IH]; intros g; csimpl; [done|].
  rewrite fold_left_app, <- IH. f_equal.
  destruct (dict_get p proc_rate) as [rate|]; [|done].
  clear IH. revert g. induction cs as [|c cs IHc]; intros g; csimpl; [done|].
  by rewrite <- IHc.
Qed.

Lemma extend_remote p i s r ls ri ro rs rd ms :
  extend (mkRow p i s (ByRemote r ls) ri ro rs rd) ms
  = mkRow p i s (ByRemote r (ls ++ ((fun y : Tagged => local y.2) <$> ms)))
          ri ro rs rd.
Proof.
  unfold extend. revert ls. induction ms as [|y ms IH]; intros ls; csimpl.
  - by rewrite app_nil_r.
  - unfold add_local at 2. simpl. rewrite IH. by rewrite <- app_assoc.
Qed.

Lemma extend_group_row x ms : extend (group_row x []) ms = group_row x ms.
Proof.
  destruct x as [[p [[[ri ro] rs] rd]] c]. unfold group_row.
  by rewrite extend_remote.
Qed.

(** One step of the grouping loop as a single update of its key. *)
Lemma group_step_set g x :
  group_step g x =
  dict_set (tag_key x)
           (match dict_get (tag_key x) g with
            | Some e => add_local (local x.2) e
            | None => group_row x []
            end) g.
Proof.
  destruct x as [[p [[[ri ro] rs] rd]] c].
  unfold group_step, group_conn, tag_key; simpl.
  by destruct (dict_get (conn_key p c) g).
Qed.

(** The binding of a key after the grouping loop, from its binding before
    and the connections of that key, in order. *)
Lemma group_fold_get xs : ∀ g k,
  dict_get k (fold_left group_step xs g) =
  match dict_get k g with
  | Some e => Some (extend e (filter (fun x => tag_key x = k) xs))
  | None =>
      match filter (fun x => tag_key x = k) xs with
      | [] => None
      | x :: ms => Some (group_row x ms)
      end
  end.
Proof.
  induction xs as [|x xs IH]; intros g k; simpl.
  - by destruct (dict_get k g).
  - rewrite IH, filter_cons, group_step_set.
    destruct (decide (tag_key x = k)) as [<-|Hne].
    + rewrite dict_get_set_eq.
      destruct (dict_get (tag_key x) g) as [e|]; [done|].
      by rewrite extend_group_row.
    + by rewrite dict_get_set_ne.
Qed.

Lemma group_fold_wf xs : ∀ g, wf_dict g → wf_dict (fold_left group_step xs g).
Proof.
  induction xs as [|x xs IH]; intros g Hg; simpl; [done|].
  apply IH. rewrite group_step_set. by apply dict_set_wf.
Qed.

(** The grouped dictionary of a tick, looked up by key. *)
Lemma grouped_get xs k :
  dict_get k (fold_left group_step xs []) =
  match filter (fun x => tag_key x = k) xs with
  | [] => None
  | x :: ms => Some (group_row x ms)
  end.
Proof. by rewrite group_fold_get. Qed.

Lemma group_row_key x ms : row_key (group_row x ms) = tag_key x.
Proof. by destruct x as [[p [[[ri ro] rs] rd]] c]. Qed.

Lemma group_row_proc x ms : r_proc (group_row x ms) = x.1.1.
Proof. by destruct x as [[p [[[ri ro] rs] rd]] c]. Qed.

Lemma group_row_rate x ms : row_rate (group_row x ms) = x.1.2.
Proof. by destruct x as [[p [[[ri ro] rs] rd]] c]. Qed.


(** A row of the grouped dictionary is the row of its key's group. *)
Lemma grouped_elem xs k e :
  (k, e) ∈ fold_left group_step xs [] →
  ∃ x ms, filter (fun x => tag_key x = k) xs = x :: ms ∧ e = group_row x ms.
Proof.
  intros Hin. apply dict_get_elem_wf in Hin.
  - rewrite grouped_get in Hin.
    destruct (filter _ xs) as [|x ms]; [done|]. injection Hin as <-. eauto.
  - apply group_fold_wf, NoDup_nil_2.
Qed.

Lemma filter_head_key (xs : list Tagged) k x ms :
  filter (fun x => tag_key x = k) xs = x :: ms → tag_key x = k.
Proof.
  intros Hf. assert (Hin : x ∈ filter (fun x => tag_key x = k) xs)
    by (rewrite Hf; left).
  by apply list_elem_of_filter in Hin as [? _].
Qed.


Lemma rated_conns_elem pr conns p r c :
  (p, r, c) ∈ rated_conns pr conns ↔
  ∃ cs, (p, cs) ∈ conns ∧ c ∈ cs ∧ dict_get p pr = Some r.
Proof.
  unfold rated_conns. rewrite list_elem_of_bind. split.
  - intros ([q cs] & Hin & Hitem). simpl in Hin.
    destruct (dict_get q pr) as [r'|] eqn:Hq; [|by apply elem_of_nil in Hin].
    apply list_elem_of_fmap in Hin as (c' & [= -> -> ->] & Hc). eauto.
  - intros (cs & Hitem & Hc & Hr). exists (p, cs). split; [|done].
    simpl. rewrite Hr. apply list_elem_of_fmap. eauto.
Qed.





(** ** Rows and the rate entries behind them *)

Lemma build_rows_remote prev curr conns dt :
  build_rows "remote" prev curr conns dt
  = dict_values (fold_left group_step
                   (rated_conns (proc_rates prev curr (floor_dt dt)) conns) []).
Proof. unfold build_rows. simpl. by rewrite group_proc_tagged. Qed.

Lemma build_rows_process group prev curr conns dt :
  group ≠ "remote" →
  build_rows group prev curr conns dt
  = process_row conns <$> proc_rates prev curr (floor_dt dt).
Proof. intros Hg. unfold build_rows. by rewrite decide_False. Qed.

Lemma process_row_proc conns p r : r_proc (process_row conns (p, r)) = p.
Proof.
  unfold process_row. destruct r as [[[ri ro] rs] rd].
  by destruct (summarize_ifaces _) as [[? ?] ?].
Qed.

Lemma process_row_rate conns p r : row_rate (process_row conns (p, r)) = r.
Proof.
  unfold process_row. destruct r as [[[ri ro] rs] rd].
  by destruct (summarize_ifaces _) as [[? ?] ?].
Qed.

Lemma process_row_detail conns p r :
  r_detail (process_row conns (p, r))
  = ByProcess (first_remote (default [] (dict_get p conns))
               +:+ extra_note (default [] (dict_get p conns))).
Proof.
  unfold process_row. destruct r as [[[ri ro] rs] rd].
  by destruct (summarize_ifaces _) as [[? ?] ?].
Qed.

(** A remote-mode row is the row of its key's group. *)
Lemma remote_row_group prev curr conns dt e :
  e ∈ build_rows "remote" prev curr conns dt →
  ∃ x ms,
    filter (fun x => tag_key x = row_key e)
           (rated_conns (proc_rates prev curr (floor_dt dt)) conns) = x :: ms
    ∧ e = group_row x ms.
Proof.
  rewrite build_rows_remote. unfold dict_values.
  intros Hin. apply list_elem_of_fmap in Hin as ([k e'] & -> & Hin). simpl.
  destruct (grouped_elem _ _ _ Hin) as (x & ms & Hf & ->).
  exists x, ms. split; [|done].
  rewrite group_row_key. by rewrite (filter_head_key _ _ _ _ Hf).
Qed.

(** In either mode a row carries the rate entry of its process. *)
Lemma row_rate_entry group prev curr conns dt e :
  e ∈ build_rows group prev curr conns dt →
  (r_proc e, row_rate e) ∈ proc_rates prev curr (floor_dt dt).
Proof.
  destruct (decide (group = "remote")) as [->|Hg].
  - intros Hin. destruct (remote_row_group _ _ _ _ _ Hin) as (x & ms & Hf & ->).
    rewrite group_row_proc, group_row_rate.
    assert (Hx : x ∈ rated_conns (proc_rates prev curr (floor_dt dt)) conns).
    { eapply (list_elem_of_filter (fun x => tag_key x = _)).
      rewrite Hf. left. }
    destruct x as [[p r] c]. apply rated_conns_elem in Hx as (cs & _ & _ & Hr).
    by apply dict_get_Some_elem.
  - rewrite build_rows_process by done. intros Hin.
    apply list_elem_of_fmap in Hin as ([p r] & -> & Hin).
    by rewrite process_row_proc, process_row_rate.
Qed.

Lemma rate_entry_inv prev dt p bn bo p' r :
  rate_entry prev dt (p, (bn, bo)) = Some (p', r) →
  p' = p ∧
  r = rate_of (delta bn (prev_counters prev p (bn, bo)).1)
              (delta bo (prev_counters prev p (bn, bo)).2) dt ∧
  (delta bn (prev_counters prev p (bn, bo)).1 ≠ 0
   ∨ delta bo (prev_counters prev p (bn, bo)).2 ≠ 0).
Proof.
  unfold rate_entry. destruct (prev_counters prev p (bn, bo)) as [bpi bpo]. simpl.
  destruct (Z.eqb_spec (delta bn bpi) 0), (Z.eqb_spec (delta bo bpo) 0);
    simpl; try done; intros [= <- <-]; auto.
Qed.

(** The counters and clamped deltas behind a row, in either mode. *)
Lemma row_rate_spec group prev curr conns dt e :
  e ∈ build_rows group prev curr conns dt →
  ∃ bin_now bout_now,
    (r_proc e, (bin_now, bout_now)) ∈ curr ∧
    row_rate e =
      rate_of (delta bin_now (prev_counters prev (r_proc e) (bin_now, bout_now)).1)
              (delta bout_now (prev_counters prev (r_proc e) (bin_now, bout_now)).2)
              (floor_dt dt) ∧
    (delta bin_now (prev_counters prev (r_proc e) (bin_now, bout_now)).1 ≠ 0
     ∨ delta bout_now (prev_counters prev (r_proc e) (bin_now, bout_now)).2 ≠ 0).
Proof.
  intros Hin. apply row_rate_entry, proc_rates_sound in Hin
    as ([p [bn bo]] & Hitem & He).
  apply rate_entry_inv in He as (Hp & Hr & Hnz).
  exists bn, bo. rewrite Hp. split_and!; done.
Qed.

Example tick_rows_process :
  build_rows "process" tick_prev tick_curr tick_conns 1
  = [tick_row_P_process; tick_row_Q_process].
Proof. reflexivity. Qed.

Example tick_rows_remote :
  build_rows "remote" tick_prev tick_curr tick_conns 1 = [tick_row_P_remote].
Proof. reflexivity. Qed.

(** ** Which processes get an entry, and which a row *)

Lemma wf_dict_functional {K V : Type} (d : list (K * V)) k v v' :
  wf_dict d → (k, v) ∈ d → (k, v') ∈ d → v = v'.
Proof.
  unfold wf_dict. induction d as [|[k0 v0] d IH]; csimpl.
  - intros _ Hin. by apply elem_of_nil in Hin.
  - intros Hnd Hv Hv'. apply NoDup_cons in Hnd as [Hfresh Hnd].
    assert (Hkey : ∀ w, (k0, w) ∈ d → False).
    { intros w Hw. apply Hfresh, list_elem_of_fmap. by exists (k0, w). }
    apply elem_of_cons in Hv as [Hv|Hv], Hv' as [Hv'|Hv'].
    + congruence.
    + injection Hv as -> ->. by destruct (Hkey v').
    + injection Hv' as -> ->. by destruct (Hkey v).
    + by apply IH.
Qed.

(** The entry of a process of [curr_totals], read back from [proc_rate]. *)
Lemma proc_rates_get prev curr dt p bn bo :
  wf_dict curr → (p, (bn, bo)) ∈ curr →
  dict_get p (proc_rates prev curr dt) = snd <$> rate_entry prev dt (p, (bn, bo)).
Proof.
  intros Hwf Hitem.
  destruct (rate_entry prev dt (p, (bn, bo))) as [[p' r]|] eqn:He; simpl.
  - pose proof (rate_entry_proc _ _ _ _ _ He) as Hp. simpl in Hp. subst p'.
    apply dict_get_elem_wf; [apply proc_rates_wf|].
    rewrite proc_rates_omap by done. apply list_elem_of_omap. eauto.
  - apply dict_get_None. intros Hin.
    apply list_elem_of_fmap in Hin as ([p' r] & Hp & Hin). simpl in Hp. subst p'.
    apply proc_rates_sound in Hin as ([q [bn' bo']] & Hq & Heq).
    pose proof (rate_entry_proc _ _ _ _ _ Heq) as Hp. simpl in Hp. subst q.
    assert ((bn', bo') = (bn, bo)) as [= -> ->]
      by (eapply wf_dict_functional; eauto).
    congruence.
Qed.

Lemma proc_rates_entry_iff prev curr dt p bn bo :
  wf_dict curr → (p, (bn, bo)) ∈ curr →
  is_Some (dict_get p (proc_rates prev curr dt)) ↔
  (delta bn (prev_counters prev p (bn, bo)).1 ≠ 0
   ∨ delta bo (prev_counters prev p (bn, bo)).2 ≠ 0).
Proof.
  intros Hwf Hitem. rewrite (proc_rates_get _ _ _ _ _ _ Hwf Hitem).
  pose proof (rate_entry_spec prev dt p bn bo) as Hspec.
  destruct (prev_counters prev p (bn, bo)) as [bpi bpo]. cbn [fst snd].
  destruct Hspec as [Hsome Hnone]. split.
  - intros [r Hr] .
    destruct (decide (delta bn bpi = 0)) as [Hi|Hi]; [|by left].
    destruct (decide (delta bo bpo = 0)) as [Ho|Ho]; [|by right].
    rewrite Hnone in Hr by done. done.
  - intros Hnz. rewrite Hsome by done. simpl. eauto.
Qed.

(** Process grouping: one row per entry of [proc_rate]. *)
Lemma has_row_process group prev curr conns dt p :
  group ≠ "remote" →
  has_row p (build_rows group prev curr conns dt) ↔
  is_Some (dict_get p (proc_rates prev curr (floor_dt dt))).
Proof.
  intros Hg. rewrite build_rows_process by done.
  rewrite dict_get_is_Some. unfold has_row. split.
  - intros (e & Hin & Hp). apply list_elem_of_fmap in Hin as ([q r] & -> & Hin).
    rewrite process_row_proc in Hp. subst q.
    apply list_elem_of_fmap. by exists (p, r).
  - intros Hin. apply list_elem_of_fmap in Hin as ([q r] & Hq & Hin).
    simpl in Hq. subst q. exists (process_row conns (p, r)). split.
    + apply list_elem_of_fmap. eauto.
    + apply process_row_proc.
Qed.

(** Remote grouping: a process has a row when it has an entry and a
    connection record. *)
Lemma has_row_remote prev curr conns dt p :
  has_row p (build_rows "remote" prev curr conns dt) ↔
  is_Some (dict_get p (proc_rates prev curr (floor_dt dt)))
  ∧ ∃ cs c, (p, cs) ∈ conns ∧ c ∈ cs.
Proof.
  unfold has_row. split.
  - intros (e & Hin & Hp).
    destruct (remote_row_group _ _ _ _ _ Hin) as (x & ms & Hf & ->).
    rewrite group_row_proc in Hp.
    assert (Hx : x ∈ rated_conns (proc_rates prev curr (floor_dt dt)) conns).
    { eapply (list_elem_of_filter (fun x => tag_key x = _)). rewrite Hf. left. }
    destruct x as [[q r] c]. simpl in Hp. subst q.
    apply rated_conns_elem in Hx as (cs & Hcs & Hc & Hr). eauto.
  - intros [[r Hr] (cs & c & Hcs & Hc)].
    assert (Hx : (p, r, c) ∈ rated_conns (proc_rates prev curr (floor_dt dt)) conns)
      by (apply rated_conns_elem; eauto).
    pose proof (grouped_get
      (rated_conns (proc_rates prev curr (floor_dt dt)) conns)
      (conn_key p c)) as Hget.
    destruct (filter _ _) as [|x ms] eqn:Hf.
    + exfalso. eapply (filter_nil_not_elem_of _ _ _ Hf); [|exact Hx]. done.
    + exists (group_row x ms). split.
      * rewrite build_rows_remote. apply list_elem_of_fmap.
        exists (conn_key p c, group_row x ms). split; [done|].
        by apply dict_get_Some_elem.
      * rewrite group_row_proc. apply filter_head_key in Hf.
        unfold tag_key, conn_key in Hf. congruence.
Qed.

(** ** Binary64 arithmetic: signs *)

Section Rounding.
Variables prec emax : Z.

Lemma shr_1_nonneg mrs : 0 ≤ shr_m mrs → 0 ≤ shr_m (shr_1 mrs).
Proof.
  destruct mrs as [m r s]. simpl. intros Hm.
  destruct m as [|[p|p|]|p]; simpl; lia.
Qed.

Lemma iter_pos_shr_1_nonneg p : ∀ mrs,
  0 ≤ shr_m mrs → 0 ≤ shr_m (iter_pos shr_1 p mrs).
Proof.
  induction p as [p IH|p IH|]; intros mrs Hm; simpl.
  - by apply IH, IH, shr_1_nonneg.
  - by apply IH, IH.
  - by apply shr_1_nonneg.
Qed.

Lemma shr_fexp_nonneg m e l :
  0 ≤ m → 0 ≤ shr_m (shr_fexp prec emax m e l).1.
Proof.
  intros Hm. unfold shr_fexp, shr.
  assert (H0 : 0 ≤ shr_m (shr_record_of_loc m l)).
  { by destruct l as [|[]]. }
  destruct (_ - e)%Z; simpl; [done| |done].
  by apply iter_pos_shr_1_nonneg.
Qed.

Lemma round_nearest_even_nonneg m l : 0 ≤ m → 0 ≤ round_nearest_even m l.
Proof.
  intros Hm. destruct l as [|[]]; simpl; try lia.
  destruct (Z.even m); lia.
Qed.

(** Rounding a non-negative mantissa gives a number of the given sign,
    never NaN. *)
Lemma binary_round_aux_signed s m e l :
  0 ≤ m → signed s (binary_round_aux prec emax s m e l).
Proof.
  intros Hm. unfold binary_round_aux.
  pose proof (shr_fexp_nonneg m e l Hm) as H1.
  destruct (shr_fexp prec emax m e l) as [mrs' e'] eqn:E1. simpl in H1.
  pose proof (shr_fexp_nonneg
    (round_nearest_even (shr_m mrs') (loc_of_shr_record mrs')) e' loc_Exact
    (round_nearest_even_nonneg _ _ H1)) as H2.
  destruct (shr_fexp prec emax (round_nearest_even _ _) e' loc_Exact)
    as [mrs'' e''] eqn:E2. simpl in H2.
  destruct (shr_m mrs'') as [|p|p]; simpl; [done| |lia].
  by destruct (_ <=? _).
Qed.

Lemma binary_round_signed s m e : signed s (binary_round prec emax s m e).
Proof.
  unfold binary_round. destruct (shl_align _ _ _) as [mz ez].
  by apply binary_round_aux_signed.
Qed.

Lemma binary_normalize_signed m e :
  signed (m <? 0) (binary_normalize prec emax m e false).
Proof.
  destruct m as [|p|p]; simpl; [done|apply binary_round_signed..].
Qed.

Lemma SFdiv_core_nonneg m1 e1 m2 e2 :
  0 ≤ (SFdiv_core_binary prec emax (Z.pos m1) e1 (Z.pos m2) e2).1.1.
Proof.
  unfold SFdiv_core_binary.
  set (s := (_ - _ - _)%Z).
  set (m' := match s with
             | Z.pos _ => Z.shiftl (Z.pos m1) s
             | 0 => Z.pos m1
             | Z.neg _ => 0
             end).
  assert (Hm' : 0 ≤ m').
  { unfold m'. destruct s; [lia| |lia]. apply Z.shiftl_nonneg. lia. }
  pose proof (Z_div_mod m' (Z.pos m2) eq_refl) as Hdiv.
  destruct (Z.div_eucl m' (Z.pos m2)) as [q r]. simpl.
  destruct Hdiv as [Heq Hr]. nia.
Qed.

End Rounding.

(** [0 <= x] holds of the numbers of positive sign. *)
Lemma signed_nonneg x : signed false x → fle f_zero x = true.
Proof. destruct x as [[]|[]| |[] m e]; simpl; done. Qed.

Lemma float_of_int_nonneg z x :
  0 ≤ z → float_of_int z = Some x → finite_nonneg x.
Proof.
  intros Hz. unfold float_of_int, float_of_Z.
  pose proof (binary_normalize_signed b64_prec b64_emax z 0) as Hs.
  replace (z <? 0) with false in Hs by (symmetry; apply Z.ltb_ge; lia).
  destruct (binary_normalize _ _ z 0 false) as [s|s| |s m e]; simpl in Hs;
    try done; subst s; by intros [= <-].
Qed.

Lemma fdiv_signed x y :
  finite_nonneg x → positive_float y → signed false (fdiv x y).
Proof.
  destruct x as [[]|[]| |[] mx ex]; try done;
    destruct y as [[]|[]| |[] my ey]; try done; intros _ _; simpl.
  unfold fdiv, SFdiv.
  pose proof (SFdiv_core_nonneg b64_prec b64_emax mx ex my ey) as Hq.
  destruct (SFdiv_core_binary _ _ _ _ _ _) as [[mz ez] lz]. simpl in Hq.
  by apply binary_round_aux_signed.
Qed.

Lemma fadd_signed x y : signed false x → signed false y → signed false (fadd x y).
Proof.
  destruct x as [[]|[]| |[] mx ex]; try done;
    destruct y as [[]|[]| |[] my ey]; try done; intros _ _; simpl; try done.
  unfold fadd, SFadd. cbn [cond_Zopp].
  apply (binary_normalize_signed b64_prec b64_emax (Z.pos _ + Z.pos _) _).
Qed.

(** The difference of two numbers of positive sign is a number, unless
    both are infinite. *)
Lemma fsub_nan x y :
  signed false x → signed false y →
  fsub x y = f_nan ↔ x = f_inf ∧ y = f_inf.
Proof.
  destruct x as [[]|[]| |[] mx ex]; try done;
    destruct y as [[]|[]| |[] my ey]; try done; intros _ _; simpl;
    try (split; [discriminate|intros [? ?]; discriminate]).
  unfold fsub, SFsub. cbn [cond_Zopp].
  set (m := (_ - _)%Z).
  pose proof (binary_normalize_signed b64_prec b64_emax m (Z.min ex ey)) as Hs.
  split; [|intros [? ?]; discriminate].
  intros Hn. rewrite Hn in Hs. done.
Qed.

Lemma fabs_nonneg x : x ≠ f_nan → fle f_zero (fabs x) = true.
Proof. destruct x as [[]|[]| |[] m e]; simpl; done. Qed.

(** The elapsed time the rates are computed for is greater than zero,
    unless [dt_seconds] is NaN. *)
Lemma floor_dt64_positive dt :
  dt ≠ f_nan → positive_float (if fle dt f_zero then B64.micro else dt).
Proof. destruct dt as [[]|[]| |[] m e]; simpl; done. Qed.

(** Integers below 2^53 are floats: the conversion does not overflow. *)
Lemma digits2_pos_bound p : ∀ n, 0 ≤ n → Z.pos p < 2 ^ n → Z.pos (digits2_pos p) ≤ n.
Proof.
  induction p as [p IH|p IH|]; intros n Hn Hp; simpl.
  - assert (n ≠ 0) by (intros ->; simpl in Hp; lia).
    replace n with (Z.succ (n - 1)) in Hp by lia.
    rewrite Z.pow_succ_r in Hp by lia.
    specialize (IH (n - 1)). lia.
  - assert (n ≠ 0) by (intros ->; simpl in Hp; lia).
    replace n with (Z.succ (n - 1)) in Hp by lia.
    rewrite Z.pow_succ_r in Hp by lia.
    specialize (IH (n - 1)). lia.
  - assert (n ≠ 0) by (intros ->; simpl in Hp; lia). lia.
Qed.

Lemma digits2_pos_iter_xO k : ∀ p,
  Z.pos (digits2_pos (Pos.iter xO p k)) = Z.pos (digits2_pos p) + Z.pos k.
Proof.
  induction k as [|k IH] using Pos.peano_ind; intros p.
  - simpl. lia.
  - rewrite Pos.iter_succ. simpl. rewrite Pos2Z.inj_succ, IH. lia.
Qed.

Lemma binary_round_small s p :
  Z.pos p < 2 ^ 53 →
  ∃ m e, binary_round b64_prec b64_emax s p 0 = S754_finite s m e.
Proof.
  intros Hp. pose proof (digits2_pos_bound p 53 ltac:(lia) Hp) as Hd.
  unfold binary_round.
  assert (Hfexp : ∀ d, 1 ≤ d ≤ 53 → fexp b64_prec b64_emax d = d - 53).
  { intros d Hd'. unfold fexp, emin, b64_prec, b64_emax. lia. }
  rewrite Z.add_0_r, Hfexp by lia.
  assert (Hnoshift : ∀ mz ez,
    Z.pos (digits2_pos mz) = 53 → -52 ≤ ez ≤ 0 →
    binary_round_aux b64_prec b64_emax s (Z.pos mz) ez loc_Exact
    = S754_finite s mz ez).
  { intros mz ez Hmz Hez. unfold binary_round_aux.
    assert (Hshr : shr_fexp b64_prec b64_emax (Z.pos mz) ez loc_Exact
                   = ({| shr_m := Z.pos mz; shr_r := false; shr_s := false |}, ez)).
    { unfold shr_fexp. cbn [Zdigits2]. rewrite Hmz.
      replace (fexp b64_prec b64_emax (53 + ez) - ez) with 0; [done|].
      unfold fexp, emin, b64_prec, b64_emax. lia. }
    rewrite Hshr. cbn [shr_m loc_of_shr_record round_nearest_even].
    rewrite Hshr. cbn [shr_m].
    replace (ez <=? b64_emax - b64_prec) with true; [done|].
    symmetry. apply Z.leb_le. unfold b64_emax, b64_prec. lia. }
  unfold shl_align.
  destruct (Z.pos (digits2_pos p) - 53 - 0) as [|k|k] eqn:Hk; [|lia|].
  - exists p, 0. apply Hnoshift; lia.
  - exists (Pos.iter xO p k), (Z.pos (digits2_pos p) - 53).
    apply Hnoshift; [|lia]. rewrite digits2_pos_iter_xO. lia.
Qed.

Lemma float_of_int_small z : - 2 ^ 53 < z < 2 ^ 53 → is_Some (float_of_int z).
Proof.
  intros Hz. unfold float_of_int, float_of_Z.
  destruct z as [|p|p]; simpl; [by eexists| |].
  - destruct (binary_round_small false p) as (m & e & ->); [lia|]. by eexists.
  - destruct (binary_round_small true p) as (m & e & ->); [lia|]. by eexists.
Qed.

(** Larger integers: the conversion overflows for integers of 2^1024 and
    more, and for none below 2^1023. *)
Lemma digits2_pos_upper p : Z.pos p < 2 ^ Z.pos (digits2_pos p).
Proof.
  induction p as [p IH|p IH|]; simpl digits2_pos;
    rewrite ?Pos2Z.inj_succ, ?Z.pow_succ_r by lia; [lia|lia|done].
Qed.

Lemma digits2_pos_lower p : 2 ^ (Z.pos (digits2_pos p) - 1) ≤ Z.pos p.
Proof.
  induction p as [p IH|p IH|]; simpl digits2_pos; [| |done].
  - rewrite Pos2Z.inj_succ.
    replace (Z.succ (Z.pos (digits2_pos p)) - 1)
      with (Z.succ (Z.pos (digits2_pos p) - 1)) by lia.
    rewrite Z.pow_succ_r by lia. lia.
  - rewrite Pos2Z.inj_succ.
    replace (Z.succ (Z.pos (digits2_pos p)) - 1)
      with (Z.succ (Z.pos (digits2_pos p) - 1)) by lia.
    rewrite Z.pow_succ_r by lia. lia.
Qed.

Lemma Zdigits2_shr_1 mrs :
  0 ≤ shr_m mrs →
  Zdigits2 (shr_m (shr_1 mrs)) = Z.max 0 (Zdigits2 (shr_m mrs) - 1).
Proof.
  destruct mrs as [m r s]. simpl. intros Hm.
  destruct m as [|[p|p|]|p]; simpl; rewrite ?Pos2Z.inj_succ; lia.
Qed.

Lemma Zdigits2_iter_shr_1 k : ∀ mrs,
  0 ≤ shr_m mrs →
  Zdigits2 (shr_m (iter_pos shr_1 k mrs))
  = Z.max 0 (Zdigits2 (shr_m mrs) - Z.pos k).
Proof.
  induction k as [k IH|k IH|]; intros mrs Hm; simpl iter_pos.
  - rewrite !IH, Zdigits2_shr_1;
      auto using iter_pos_shr_1_nonneg, shr_1_nonneg. lia.
  - rewrite !IH; auto using iter_pos_shr_1_nonneg. lia.
  - by apply Zdigits2_shr_1.
Qed.

Lemma Zdigits2_pos_bounds m n :
  0 < n → 2 ^ (n - 1) ≤ m < 2 ^ n → Zdigits2 m = n.
Proof.
  intros Hn [Hlo Hhi].
  assert (0 < m) by (pose proof (Z.pow_pos_nonneg 2 (n - 1)); lia).
  destruct m as [|p|p]; [lia| |lia]. simpl.
  pose proof (digits2_pos_bound p n ltac:(lia) Hhi) as Hle.
  pose proof (digits2_pos_upper p) as Hup.
  destruct (decide (Z.pos (digits2_pos p) ≤ n - 1)) as [Hlt|]; [|lia].
  exfalso.
  assert (2 ^ Z.pos (digits2_pos p) ≤ 2 ^ (n - 1))
    by (apply Z.pow_le_mono_r; lia).
  lia.
Qed.

(** The float of an integer of more than 53 bits: a mantissa of 53 bits at
    the exponent that the bit length gives, or at the next one when
    rounding carries. *)
Lemma binary_round_large s p :
  53 < Z.pos (digits2_pos p) →
  ∃ m e,
    Z.pos (digits2_pos p) - 53 ≤ e ≤ Z.pos (digits2_pos p) - 52 ∧
    binary_round b64_prec b64_emax s p 0
    = if e <=? 971 then S754_finite s m e else S754_infinity s.
Proof.
  set (d := Z.pos (digits2_pos p)). intros Hd.
  assert (Hfexp : ∀ x, 53 < x → fexp b64_prec b64_emax x = x - 53).
  { intros x Hx. unfold fexp, emin, b64_prec, b64_emax. lia. }
  unfold binary_round. fold d. rewrite Z.add_0_r, Hfexp by done.
  unfold shl_align. destruct (d - 53 - 0) as [|k|k] eqn:Hk; [lia| |lia].
  unfold binary_round_aux.
  (* the first shift *)
  assert (Hshr1 : shr_fexp b64_prec b64_emax (Z.pos p) 0 loc_Exact
                  = (iter_pos shr_1 k {| shr_m := Z.pos p; shr_r := false;
                                         shr_s := false |}, d - 53)).
  { unfold shr_fexp. cbn [Zdigits2]. fold d.
    rewrite Z.add_0_r, Hfexp, Z.sub_0_r by done. unfold shr.
    replace (d - 53) with (Z.pos k) by lia. done. }
  rewrite Hshr1.
  set (mrs' := iter_pos shr_1 k _).
  assert (Hq0 : 0 ≤ shr_m mrs') by (by apply iter_pos_shr_1_nonneg).
  assert (Hqd : Zdigits2 (shr_m mrs') = 53).
  { unfold mrs'. rewrite Zdigits2_iter_shr_1 by done. simpl. fold d. lia. }
  set (q := shr_m mrs') in *.
  assert (Hq : 2 ^ 52 ≤ q < 2 ^ 53).
  { destruct q as [|q0|q0]; [done| |lia]. simpl in Hqd.
    pose proof (digits2_pos_upper q0) as Hu.
    pose proof (digits2_pos_lower q0) as Hl.
    rewrite Hqd in Hu, Hl. simpl in Hl. lia. }
  (* rounding *)
  set (q' := round_nearest_even q (loc_of_shr_record mrs')).
  assert (Hq' : q' = q ∨ q' = q + 1).
  { unfold q'. destruct (loc_of_shr_record mrs') as [|[]]; simpl; auto.
    destruct (Z.even q); auto. }
  assert (Hq'd : Zdigits2 q' = 53 ∨ (q' = 2 ^ 53 ∧ Zdigits2 q' = 54)).
  { destruct (decide (q' < 2 ^ 53)) as [Hlt|Hge].
    - left. apply Zdigits2_pos_bounds; lia.
    - right. assert (q' = 2 ^ 53) as -> by lia. done. }
  (* the second shift *)
  unfold shr_fexp. cbn [shr_record_of_loc].
  destruct Hq'd as [Hd'|[Heq Hd']]; rewrite Hd'.
  - rewrite Hfexp by lia.
    replace (53 + (d - 53) - 53 - (d - 53)) with 0 by lia.
    cbn [shr shr_m].
    destruct q' as [|m|m] eqn:Em; [lia| |lia].
    exists m, (d - 53). split; [lia|done].
  - rewrite Hfexp by lia.
    replace (54 + (d - 53) - 53 - (d - 53)) with 1 by lia.
    rewrite Heq. cbn.
    eexists _, (d - 53 + 1). split; [lia|done].
Qed.

Lemma float_of_int_finite z : - 2 ^ 1023 < z < 2 ^ 1023 → is_Some (float_of_int z).
Proof.
  intros Hz. unfold float_of_int, float_of_Z.
  assert (Hpos : ∀ s p, Z.pos p < 2 ^ 1023 →
    ∃ m e, binary_round b64_prec b64_emax s p 0 = S754_finite s m e).
  { intros s p Hp.
    destruct (decide (Z.pos p < 2 ^ 53)) as [Hs|Hl];
      [by apply binary_round_small|].
    pose proof (digits2_pos_bound p 1023 ltac:(lia) Hp) as Hd.
    pose proof (digits2_pos_upper p) as Hu.
    assert (53 < Z.pos (digits2_pos p)).
    { destruct (decide (Z.pos (digits2_pos p) ≤ 53)) as [Hle|]; [|lia].
      assert (2 ^ Z.pos (digits2_pos p) ≤ 2 ^ 53)
        by (apply Z.pow_le_mono_r; lia).
      lia. }
    destruct (binary_round_large s p) as (m & e & He & ->); [done|].
    replace (e <=? 971) with true by (symmetry; apply Z.leb_le; lia).
    eauto. }
  destruct z as [|p|p]; simpl; [by eexists| |].
  - destruct (Hpos false p) as (m & e & ->); [lia|]. by eexists.
  - destruct (Hpos true p) as (m & e & ->); [lia|]. by eexists.
Qed.

Lemma float_of_int_overflow z : 2 ^ 1024 ≤ Z.abs z → float_of_int z = None.
Proof.
  intros Hz. unfold float_of_int, float_of_Z.
  assert (Hpos : ∀ s p, 2 ^ 1024 ≤ Z.pos p →
    binary_round b64_prec b64_emax s p 0 = S754_infinity s).
  { intros s p Hp.
    pose proof (digits2_pos_upper p) as Hu.
    assert (1024 < Z.pos (digits2_pos p)).
    { destruct (decide (Z.pos (digits2_pos p) ≤ 1024)) as [Hle|]; [|lia].
      assert (2 ^ Z.pos (digits2_pos p) ≤ 2 ^ 1024)
        by (apply Z.pow_le_mono_r; lia).
      lia. }
    destruct (binary_round_large s p) as (m & e & He & ->); [lia|].
    replace (e <=? 971) with false by (symmetry; apply Z.leb_gt; lia).
    done. }
  destruct z as [|p|p]; simpl.
  - simpl in Hz. pose proof (Z.pow_pos_nonneg 2 1024). lia.
  - by rewrite Hpos by lia.
  - by rewrite Hpos by lia.
Qed.

(** ** The rate engine in binary64 *)

Lemma rate_step64_entry prev dt acc item :
  B64.rate_step prev dt acc item =
  e ← rate_entry64 prev dt item;
  Some (match e with Some r => dict_set item.1 r acc | None => acc end).
Proof.
  unfold B64.rate_step, rate_entry64. destruct item as [p [bn bo]].
  destruct (prev_counters prev p (bn, bo)) as [bpi bpo].
  destruct (negb (delta bn bpi =? 0) || negb (delta bo bpo =? 0)); [|done].
  by destruct (B64.rate_of _ _ dt).
Qed.

(** The binary64 engine stores an entry for the items the exact one does. *)
Lemma rate_entry64_exact prev dt dtq item e :
  rate_entry64 prev dt item = Some e →
  is_Some e ↔ is_Some (rate_entry prev dtq item).
Proof.
  unfold rate_entry64, rate_entry. destruct item as [p [bn bo]].
  destruct (prev_counters prev p (bn, bo)) as [bpi bpo].
  destruct (negb (delta bn bpi =? 0) || negb (delta bo bpo =? 0)).
  - destruct (B64.rate_of _ _ dt); [|done]. intros [= <-]. split; eauto.
  - intros [= <-]. split; intros [? ?]; done.
Qed.

(** An entry is stored for a process of the previous snapshot with a
    non-zero clamped delta, and holds the quadruple of the two deltas. *)
Lemma rate_entry64_inv prev dt p bn bo r :
  rate_entry64 prev dt (p, (bn, bo)) = Some (Some r) →
  ∃ bpi bpo,
    dict_get p prev = Some (bpi, bpo) ∧
    (Z.max 0 (bn - bpi) ≠ 0 ∨ Z.max 0 (bo - bpo) ≠ 0) ∧
    B64.rate_of (Z.max 0 (bn - bpi)) (Z.max 0 (bo - bpo)) dt = Some r.
Proof.
  unfold rate_entry64, prev_counters, delta.
  destruct (dict_get p prev) as [[bpi bpo]|]; simpl.
  - destruct (Z.eqb_spec (Z.max 0 (bn - bpi)) 0), (Z.eqb_spec (Z.max 0 (bo - bpo)) 0);
      simpl; try done;
      destruct (B64.rate_of _ _ dt) as [r'|] eqn:Hr; simpl; try done;
      intros [= <-]; exists bpi, bpo; auto.
  - rewrite !Z.sub_diag. done.
Qed.

Lemma rate_entry64_None prev dt p bn bo :
  dict_get p prev = None → rate_entry64 prev dt (p, (bn, bo)) = Some None.
Proof.
  intros Hp. unfold rate_entry64, prev_counters, delta. rewrite Hp. simpl.
  by rewrite !Z.sub_diag.
Qed.

Lemma rate_of64_is_Some din dout dt :
  (∀ s, dt ≠ S754_zero s) →
  is_Some (B64.rate_of din dout dt)
  ↔ is_Some (float_of_int din) ∧ is_Some (float_of_int dout).
Proof.
  intros Hdt. unfold B64.rate_of, int_truediv.
  destruct (float_of_int din) as [x|]; simpl;
    [|split; [intros [? ?]; done|intros [[? ?] _]; done]].
  destruct (float_of_int dout) as [y|]; simpl.
  - destruct dt as [s| | |]; [by destruct (Hdt s)|simpl; split; eauto..].
  - destruct dt as [s| | |]; [by destruct (Hdt s)|..]; simpl;
      (split; [intros [? ?]; done|intros [_ [? ?]]; done]).
Qed.

Lemma rate_of64_inv din dout dt ri ro rs rd :
  B64.rate_of din dout dt = Some (ri, ro, rs, rd) →
  ∃ fin fout,
    float_of_int din = Some fin ∧ float_of_int dout = Some fout ∧
    (∀ s, dt ≠ S754_zero s) ∧
    ri = fdiv fin dt ∧ ro = fdiv fout dt ∧
    rs = fadd ri ro ∧ rd = fabs (fsub ri ro).
Proof.
  unfold B64.rate_of, int_truediv.
  destruct (float_of_int din) as [x|]; [|done].
  destruct (float_of_int dout) as [y|]; simpl.
  - destruct dt as [s| | |]; simpl; [done|..]; intros [= <- <- <- <-];
      exists x, y; split_and!; done.
  - by destruct dt.
Qed.

Lemma floor_dt64_nonzero dt s : B64.floor_dt dt ≠ S754_zero s.
Proof. unfold B64.floor_dt. destruct dt as [[]|[]| |[] m e]; simpl; done. Qed.

Lemma rate_fold64_None prev dt curr :
  fold_left (fun acc item => proc_rate ← acc; B64.rate_step prev dt proc_rate item)
            curr None = None.
Proof. induction curr as [|item curr IH]; simpl; done. Qed.

(** What the rate loop leaves, when it ends without an exception. *)
Lemma rate_fold64_Some prev dt curr : ∀ acc pr,
  fold_left (fun acc item => proc_rate ← acc; B64.rate_step prev dt proc_rate item)
            curr (Some acc) = Some pr →
  (∀ item, item ∈ curr → is_Some (rate_entry64 prev dt item)) ∧
  (∀ dtq accq, acc.*1 = accq.*1 →
     pr.*1 = (fold_left (rate_step prev dtq) curr accq).*1) ∧
  (∀ p r, (p, r) ∈ pr →
     (p, r) ∈ acc ∨
     ∃ bn bo, (p, (bn, bo)) ∈ curr
              ∧ rate_entry64 prev dt (p, (bn, bo)) = Some (Some r)).
Proof.
  induction curr as [|item curr IH]; intros acc pr; simpl.
  - intros [= <-]. split_and!; [|done|by left].
    intros item Hin. by apply elem_of_nil in Hin.
  - rewrite rate_step64_entry.
    destruct (rate_entry64 prev dt item) as [e|] eqn:He; simpl;
      [|by rewrite rate_fold64_None].
    intros Hfold. destruct (IH _ _ Hfold) as (Hall & Hkeys & Hsound).
    split_and!.
    + intros it Hit. apply elem_of_cons in Hit as [->|Hit]; [by rewrite He|auto].
    + intros dtq accq Hacc. apply Hkeys. rewrite rate_step_entry.
      pose proof (rate_entry64_exact prev dt dtq item e He) as Hsame.
      destruct e as [r|], (rate_entry prev dtq item) as [[p' rq]|] eqn:Hq.
      * pose proof (rate_entry_proc _ _ _ _ _ Hq) as ->.
        by rewrite !dict_set_keys, Hacc.
      * exfalso. assert (is_Some (@None (string * Rate))) as [? ?]; [|done].
        apply Hsame. eauto.
      * exfalso. assert (is_Some (@None B64.Rate)) as [? ?]; [|done].
        apply Hsame. eauto.
      * done.
    + intros p r Hin. destruct (Hsound p r Hin) as [Hacc|(bn & bo & Hit & Hr)].
      * destruct e as [r'|]; [|by left].
        apply dict_set_elem in Hacc as [[-> ->]|Hacc]; [|by left].
        right. destruct item as [p' [bn bo]]. exists bn, bo. split; [left|done].
      * right. exists bn, bo. split; [by right|done].
Qed.

Lemma rate_fold64_total prev dt curr : ∀ acc,
  (∀ item, item ∈ curr → is_Some (rate_entry64 prev dt item)) →
  is_Some (fold_left
             (fun acc item => proc_rate ← acc; B64.rate_step prev dt proc_rate item)
             curr (Some acc)).
Proof.
  induction curr as [|item curr IH]; intros acc Hall; simpl; [by eexists|].
  rewrite rate_step64_entry.
  destruct (Hall item) as [e He]; [left|]. rewrite He. simpl.
  apply IH. intros it Hit. apply Hall. by right.
Qed.

(** The rate loop ends without an exception exactly when every item
    passes. *)
Lemma proc_rates64_is_Some prev curr dt :
  is_Some (B64.proc_rates prev curr dt)
  ↔ ∀ item, item ∈ curr → is_Some (rate_entry64 prev dt item).
Proof.
  unfold B64.proc_rates. split.
  - intros [pr Hpr]. by destruct (rate_fold64_Some _ _ _ _ _ Hpr) as (Hall & _).
  - apply rate_fold64_total.
Qed.

Lemma rate_entry64_is_Some prev dt p bn bo :
  (∀ s, dt ≠ S754_zero s) →
  is_Some (rate_entry64 prev dt (p, (bn, bo)))
  ↔ ∀ bpi bpo, dict_get p prev = Some (bpi, bpo) →
      is_Some (float_of_int (Z.max 0 (bn - bpi))) ∧
      is_Some (float_of_int (Z.max 0 (bo - bpo))).
Proof.
  intros Hdt. destruct (dict_get p prev) as [[bpi bpo]|] eqn:Hp.
  - unfold rate_entry64, prev_counters, delta. rewrite Hp. simpl.
    destruct (negb (Z.max 0 (bn - bpi) =? 0) || negb (Z.max 0 (bo - bpo) =? 0))
      eqn:Hm.
    + rewrite fmap_is_Some, rate_of64_is_Some by done. split.
      * intros H ? ? [= <- <-]. done.
      * intros H. by apply H.
    + apply orb_false_iff in Hm as [Hi Ho].
      apply negb_false_iff, Z.eqb_eq in Hi, Ho. split; [|by eexists].
      intros _ ? ? [= <- <-]. rewrite Hi, Ho. split; by eexists.
  - rewrite rate_entry64_None by done. split; [done|by eexists].
Qed.

(** [build_rows] returns exactly when every clamped delta of the tick
    converts to a float. *)
Lemma build_rows64_is_Some group prev curr conns dt :
  is_Some (B64.build_rows group prev curr conns dt) ↔ deltas_convert prev curr.
Proof.
  unfold B64.build_rows. cbv zeta.
  assert (Hret : is_Some (B64.proc_rates prev curr (B64.floor_dt dt))
                 ↔ deltas_convert prev curr).
  { rewrite proc_rates64_is_Some. unfold deltas_convert. split.
    - intros Hall p bn bo bpi bpo Hin Hp.
      apply (rate_entry64_is_Some prev (B64.floor_dt dt) p bn bo);
        [apply floor_dt64_nonzero|by apply Hall|done].
    - intros Hconv [p [bn bo]] Hin.
      apply rate_entry64_is_Some; [apply floor_dt64_nonzero|]. eauto. }
  rewrite <- Hret.
  destruct (B64.proc_rates prev curr (B64.floor_dt dt)); simpl;
    split; intros [? ?]; eauto; done.
Qed.

(** ** Rows in binary64: the exact rows with the binary64 quadruples *)

Lemma dict_get_fmap {K V W : Type} `{EqDecision K} (f : V → W) (k : K)
    (d : list (K * V)) :
  dict_get k (prod_map id f <$> d) = f <$> dict_get k d.
Proof.
  induction d as [|[k' v] d IH]; csimpl; [done|]. by case_decide.
Qed.

Lemma dict_set_fmap {K V W : Type} `{EqDecision K} (f : V → W) (k : K) (v : V)
    (d : list (K * V)) :
  dict_set k (f v) (prod_map id f <$> d) = prod_map id f <$> dict_set k v d.
Proof.
  induction d as [|[k' v'] d IH]; csimpl; [done|].
  case_decide; csimpl; [done|]. by rewrite IH.
Qed.

Lemma with_rate_add_local pr l e :
  B64.add_local l (with_rate pr e) = with_rate pr (add_local l e).
Proof.
  unfold B64.add_local, add_local, with_rate.
  destruct e as [p i s [c|r ls] ri ro rs rd]; simpl;
    by destruct (default (f_zero, f_zero, f_zero, f_zero) (dict_get p pr))
      as [[[? ?] ?] ?].
Qed.

Lemma group_conn64_exact pr p r rq g c :
  dict_get p pr = Some r →
  B64.group_conn p r (prod_map id (with_rate pr) <$> g) c
  = prod_map id (with_rate pr) <$> group_conn p rq g c.
Proof.
  intros Hp. unfold B64.group_conn, group_conn.
  destruct r as [[[ri ro] rs] rd], rq as [[[qi qo] qs] qd].
  rewrite dict_get_fmap. destruct (dict_get (conn_key p c) g) as [e|]; simpl.
  - by rewrite with_rate_add_local, dict_set_fmap.
  - rewrite <- dict_set_fmap. f_equal. unfold with_rate. simpl. by rewrite Hp.
Qed.

Lemma group_proc64_exact pr prq conns :
  pr.*1 = prq.*1 → ∀ g,
  fold_left (B64.group_proc pr) conns (prod_map id (with_rate pr) <$> g)
  = prod_map id (with_rate pr) <$> fold_left (group_proc prq) conns g.
Proof.
  intros Hkeys. induction conns as [|[p cs] conns IH]; intros g; simpl; [done|].
  rewrite <- IH. f_equal.
  destruct (dict_get p pr) as [r|] eqn:Hr, (dict_get p prq) as [rq|] eqn:Hq.
  - clear IH. revert g. induction cs as [|c cs IHc]; intros g; simpl; [done|].
    by rewrite <- IHc, (group_conn64_exact pr p r rq).
  - exfalso. apply dict_get_None in Hq. apply Hq. rewrite <- Hkeys.
    apply dict_get_is_Some. eauto.
  - exfalso. apply dict_get_None in Hr. apply Hr. rewrite Hkeys.
    apply dict_get_is_Some. eauto.
  - done.
Qed.

Lemma process_row64_exact pr conns p r rq :
  dict_get p pr = Some r →
  B64.process_row conns (p, r) = with_rate pr (process_row conns (p, rq)).
Proof.
  intros Hp. unfold B64.process_row, process_row, with_rate.
  destruct r as [[[ri ro] rs] rd], rq as [[[qi qo] qs] qd].
  destruct (summarize_ifaces _) as [[primary extra] st]. simpl. by rewrite Hp.
Qed.

Lemma process_rows64_exact pr conns : ∀ l lq,
  l.*1 = lq.*1 → (∀ p r, (p, r) ∈ l → dict_get p pr = Some r) →
  B64.process_row conns <$> l = with_rate pr <$> (process_row conns <$> lq).
Proof.
  induction l as [|[p r] l IH]; intros [|[p' rq] lq]; csimpl; try done.
  intros [= <- Hkeys] Hget. f_equal.
  - apply process_row64_exact, Hget. left.
  - apply IH; [done|]. intros q r' Hin. apply Hget. by right.
Qed.

(** The rows in binary64 are the rows of the exact pipeline, each with the
    binary64 quadruple of its process; the elapsed time of the exact
    pipeline does not matter. *)
Lemma build_rows64_exact group prev curr conns dt dtq rows :
  B64.build_rows group prev curr conns dt = Some rows →
  ∃ pr,
    B64.proc_rates prev curr (B64.floor_dt dt) = Some pr ∧
    pr.*1 = (proc_rates prev curr (floor_dt dtq)).*1 ∧
    wf_dict pr ∧
    rows = with_rate pr <$> build_rows group prev curr conns dtq.
Proof.
  unfold B64.build_rows. cbv zeta.
  destruct (B64.proc_rates prev curr (B64.floor_dt dt)) as [pr|] eqn:Hpr; [|done].
  simpl. intros [= <-]. exists pr.
  assert (Hkeys : pr.*1 = (proc_rates prev curr (floor_dt dtq)).*1).
  { unfold B64.proc_rates in Hpr.
    destruct (rate_fold64_Some _ _ _ _ _ Hpr) as (_ & Hkeys & _).
    by apply Hkeys. }
  assert (Hwf : wf_dict pr).
  { unfold wf_dict. rewrite Hkeys. apply proc_rates_wf. }
  split_and!; [done..|]. unfold build_rows. cbv zeta.
  case_decide.
  - pose proof (group_proc64_exact pr _ conns Hkeys []) as Hg. simpl in Hg.
    rewrite Hg. unfold dict_values. rewrite <- !list_fmap_compose.
    apply list_fmap_ext. by intros i [k e] _.
  - apply process_rows64_exact; [done|].
    intros p r Hin. by apply dict_get_elem_wf.
Qed.

Lemma with_rate_proc pr e : B64.r_proc (with_rate pr e) = r_proc e.
Proof.
  unfold with_rate.
  by destruct (default (f_zero, f_zero, f_zero, f_zero) (dict_get (r_proc e) pr))
    as [[[? ?] ?] ?].
Qed.

Lemma has_row64_exact pr p rows :
  B64.has_row p (with_rate pr <$> rows) ↔ has_row p rows.
Proof.
  unfold B64.has_row, has_row. split.
  - intros (e & Hin & Hp). apply list_elem_of_fmap in Hin as (e0 & -> & Hin).
    rewrite with_rate_proc in Hp. eauto.
  - intros (e0 & Hin & Hp). exists (with_rate pr e0).
    split; [apply list_elem_of_fmap; eauto|by rewrite with_rate_proc].
Qed.

(** The counters and the quadruple behind a row, in either mode. *)
Lemma row64_rate_spec group prev curr conns dt rows e :
  B64.build_rows group prev curr conns dt = Some rows → e ∈ rows →
  ∃ bn bo bpi bpo,
    (B64.r_proc e, (bn, bo)) ∈ curr ∧
    dict_get (B64.r_proc e) prev = Some (bpi, bpo) ∧
    (Z.max 0 (bn - bpi) ≠ 0 ∨ Z.max 0 (bo - bpo) ≠ 0) ∧
    B64.rate_of (Z.max 0 (bn - bpi)) (Z.max 0 (bo - bpo)) (B64.floor_dt dt)
    = Some (B64.rin e, B64.rout e, B64.rsum e, B64.rdelta e).
Proof.
  intros Hrows Hin.
  destruct (build_rows64_exact _ _ _ _ _ 1%Q _ Hrows) as (pr & Hpr & Hkeys & Hwf & ->).
  apply list_elem_of_fmap in Hin as (e0 & -> & Hin).
  apply row_rate_entry in Hin.
  assert (Hsome : is_Some (dict_get (r_proc e0) pr)).
  { apply dict_get_is_Some. rewrite Hkeys. apply list_elem_of_fmap.
    by exists (r_proc e0, row_rate e0). }
  destruct Hsome as [r Hr].
  assert (Hrate : (B64.rin (with_rate pr e0), B64.rout (with_rate pr e0),
                   B64.rsum (with_rate pr e0), B64.rdelta (with_rate pr e0)) = r).
  { unfold with_rate. rewrite Hr. by destruct r as [[[? ?] ?] ?]. }
  rewrite with_rate_proc, Hrate.
  unfold B64.proc_rates in Hpr.
  destruct (rate_fold64_Some _ _ _ _ _ Hpr) as (_ & _ & Hsound).
  destruct (Hsound _ _ (dict_get_Some_elem _ _ _ Hr)) as [Hnil|(bn & bo & Hit & He)].
  { by apply elem_of_nil in Hnil. }
  apply rate_entry64_inv in He as (bpi & bpo & Hp & Hmoved & Hrate').
  exists bn, bo, bpi, bpo. done.
Qed.

(** ** Sample ticks in binary64 *)

Example tick64_rows_process :
  B64.build_rows "process" tick64_prev tick64_curr tick_conns three_seconds
  = Some [tick64_row_P_process; tick64_row_Q_process].
Proof. reflexivity. Qed.

Example tick64_rows_remote :
  B64.build_rows "remote" tick64_prev tick64_curr tick_conns three_seconds
  = Some [tick64_row_P_remote].
Proof. reflexivity. Qed.

(** An elapsed time that is not positive counts as a microsecond. *)
Example tick64_rows_floor :
  B64.build_rows "remote" tick64_prev tick64_curr tick_conns f_zero
  = B64.build_rows "remote" tick64_prev tick64_curr tick_conns B64.micro
  ∧ B64.micro = fdiv (float_of_Z 1) (float_of_Z 1000000).
Proof. split; reflexivity. Qed.

(** A delta of 10^400 ends [build_rows] with [OverflowError]; the largest
    integer that converts is just below 2^1024 - 2^970. *)
Example build_rows_overflow :
  B64.build_rows "process" huge_prev beyond_curr [] three_seconds = None ∧
  float_of_int (2 ^ 1024 - 2 ^ 970) = None ∧
  float_of_int (2 ^ 1024 - 2 ^ 970 - 1)
  = Some (S754_finite false 9007199254740991 971).
Proof. split_and!; reflexivity. Qed.

(** ** Clamped deltas and the sign of rates *)

(** The signs of a quadruple computed from two non-negative deltas. *)
Lemma rate_of64_signs din dout dt ri ro rs rd :
  0 ≤ din → 0 ≤ dout → positive_float dt →
  B64.rate_of din dout dt = Some (ri, ro, rs, rd) →
  signed false ri ∧ signed false ro ∧ signed false rs ∧
  (rd = f_nan ↔ ri = f_inf ∧ ro = f_inf) ∧
  (fle f_zero rd = true ↔ ¬ (ri = f_inf ∧ ro = f_inf)).
Proof.
  intros Hi Ho Hdt Hrate.
  apply rate_of64_inv in Hrate as (x & y & Hx & Hy & _ & -> & -> & -> & ->).
  pose proof (fdiv_signed x dt (float_of_int_nonneg _ _ Hi Hx) Hdt) as Hri.
  pose proof (fdiv_signed y dt (float_of_int_nonneg _ _ Ho Hy) Hdt) as Hro.
  pose proof (fsub_nan _ _ Hri Hro) as Hnan.
  assert (Habs : fabs (fsub (fdiv x dt) (fdiv y dt)) = f_nan
                 ↔ fsub (fdiv x dt) (fdiv y dt) = f_nan).
  { by destruct (fsub (fdiv x dt) (fdiv y dt)). }
  split_and!; [done|done|by apply fadd_signed|by rewrite Habs|].
  rewrite <- Hnan. split.
  - intros Hle Hn. rewrite Hn in Hle. done.
  - intros Hn. by apply fabs_nonneg.
Qed.

(** C1, as stated, fails: counters that grew by 10^308 in half a second give
    a row whose [rdelta] is NaN, for which [0 <= rdelta] is false. *)
Lemma huge_counters_rdelta_nan :
  B64.build_rows "process" huge_prev huge_curr [] half_second
  = Some [huge_row_process] ∧
  B64.rdelta huge_row_process = f_nan ∧
  fle f_zero (B64.rdelta huge_row_process) = false.
Proof. split_and!; reflexivity. Qed.

(** C1, amended. The delta the rate engine uses is [curr - prev] when the
    counter did not go down and [0] when it did. Every row, in either
    grouping, belongs to a process of the previous snapshot; its [rin] and
    [rout] are the clamped deltas of that process, converted to floats,
    divided by the elapsed time (one microsecond when [dt_seconds] is not
    positive). Unless [dt_seconds] is NaN, [rin], [rout] and [rsum] are not
    negative, and [rdelta] is not negative unless [rin] and [rout] are both
    infinite: then it is NaN. *)
Theorem delta_clamp_rates_nonneg :
  (∀ prev curr : Z,
     (prev ≤ curr → delta curr prev = curr - prev) ∧
     (curr < prev → delta curr prev = 0)) ∧
  (∀ group prev_totals curr_totals curr_conns dt_seconds rows e,
     B64.build_rows group prev_totals curr_totals curr_conns dt_seconds
     = Some rows →
     e ∈ rows →
     ∃ bin_now bout_now bin_prev bout_prev delta_in delta_out,
       (B64.r_proc e, (bin_now, bout_now)) ∈ curr_totals ∧
       dict_get (B64.r_proc e) prev_totals = Some (bin_prev, bout_prev) ∧
       float_of_int (delta bin_now bin_prev) = Some delta_in ∧
       float_of_int (delta bout_now bout_prev) = Some delta_out ∧
       let elapsed := if fle dt_seconds f_zero then B64.micro else dt_seconds in
       B64.rin e = fdiv delta_in elapsed ∧
       B64.rout e = fdiv delta_out elapsed ∧
       (dt_seconds ≠ f_nan →
        fle f_zero (B64.rin e) = true ∧
        fle f_zero (B64.rout e) = true ∧
        fle f_zero (B64.rsum e) = true ∧
        (fle f_zero (B64.rdelta e) = true
         ↔ ¬ (B64.rin e = f_inf ∧ B64.rout e = f_inf)) ∧
        (B64.rdelta e = f_nan ↔ B64.rin e = f_inf ∧ B64.rout e = f_inf))).
Proof.
  split.
  - intros prev curr. unfold delta. lia.
  - intros group prev curr conns dt rows e Hrows Hin.
    destruct (row64_rate_spec _ _ _ _ _ _ _ Hrows Hin)
      as (bn & bo & bpi & bpo & Hitem & Hprev & _ & Hrate).
    pose proof Hrate as Hinv.
    apply rate_of64_inv in Hinv as (x & y & Hx & Hy & _ & Hri & Hro & _ & _).
    exists bn, bo, bpi, bpo, x, y. unfold delta. cbv zeta.
    split_and!; [done..|]. intros Hdt.
    destruct (rate_of64_signs _ _ _ _ _ _ _ (Z.le_max_l 0 _) (Z.le_max_l 0 _)
                (floor_dt64_positive dt Hdt) Hrate)
      as (Hsi & Hso & Hss & Hnan & Hd).
    split_and!; [by apply signed_nonneg..|done|done].
Qed.

Lemma delta_clamp_rates_nonneg_witness :
  delta 1724 700 = 1024 ∧ delta 20 500 = 0 ∧
  B64.build_rows "process" tick64_prev tick64_curr tick_conns three_seconds
  = Some [tick64_row_P_process; tick64_row_Q_process] ∧
  three_seconds ≠ f_nan ∧
  fle f_zero (B64.rin tick64_row_Q_process) = true ∧
  fle f_zero (B64.rout tick64_row_Q_process) = true ∧
  fle f_zero (B64.rsum tick64_row_Q_process) = true ∧
  fle f_zero (B64.rdelta tick64_row_Q_process) = true.
Proof.
  assert (Hrows : B64.build_rows "process" tick64_prev tick64_curr tick_conns
                                 three_seconds
                  = Some [tick64_row_P_process; tick64_row_Q_process])
    by reflexivity.
  assert (Hin : tick64_row_Q_process
                ∈ [tick64_row_P_process; tick64_row_Q_process]).
  { apply list_elem_of_In. right. left. reflexivity. }
  assert (Hdt : three_seconds ≠ f_nan) by discriminate.
  destruct (proj2 delta_clamp_rates_nonneg "process" tick64_prev tick64_curr
              tick_conns three_seconds _ _ Hrows Hin)
    as (bn & bo & bpi & bpo & x & y & _ & _ & _ & _ & _ & _ & Hsigns).
  destruct (Hsigns Hdt) as (Hi & Ho & Hs & Hd & _).
  split; [apply (proj1 delta_clamp_rates_nonneg 700 1724); lia|].
  split; [apply (proj1 delta_clamp_rates_nonneg 500 20); lia|].
  split; [exact Hrows|]. split; [exact Hdt|].
  split; [exact Hi|]. split; [exact Ho|]. split; [exact Hs|].
  apply Hd. intros [Hinf _]. discriminate Hinf.
Defined.

(** ** The derived fields *)

(** C2, as stated, fails: with both rates beyond the largest float, [rsum]
    is infinite and [rdelta] is NaN, which is not non-negative. *)
Lemma surge_rdelta_not_nonneg :
  B64.build_rows "remote" huge_prev surge_curr tick_conns quarter_second
  = Some [surge_row_remote] ∧
  fle f_zero (B64.rdelta surge_row_remote) = false.
Proof. split; reflexivity. Qed.

(** C2, amended. In every row, of either grouping mode, [rin] and [rout] are
    the clamped deltas of the row's process, converted to floats, divided by
    the elapsed time (one microsecond when [dt_seconds] is not positive);
    [rsum] is the float sum [rin + rout] and [rdelta] the float
    [abs(rin - rout)]. Unless [dt_seconds] is NaN, [rsum] is not negative,
    and [rdelta] is not negative unless both rates are infinite: then it
    is NaN. *)
Theorem row_derived_fields
    group prev_totals curr_totals curr_conns dt_seconds rows e :
  B64.build_rows group prev_totals curr_totals curr_conns dt_seconds = Some rows →
  e ∈ rows →
  ∃ bin_now bout_now bin_prev bout_prev delta_in delta_out,
    (B64.r_proc e, (bin_now, bout_now)) ∈ curr_totals ∧
    dict_get (B64.r_proc e) prev_totals = Some (bin_prev, bout_prev) ∧
    float_of_int (Z.max 0 (bin_now - bin_prev)) = Some delta_in ∧
    float_of_int (Z.max 0 (bout_now - bout_prev)) = Some delta_out ∧
    let elapsed := if fle dt_seconds f_zero then B64.micro else dt_seconds in
    B64.rin e = fdiv delta_in elapsed ∧
    B64.rout e = fdiv delta_out elapsed ∧
    B64.rsum e = fadd (B64.rin e) (B64.rout e) ∧
    B64.rdelta e = fabs (fsub (B64.rin e) (B64.rout e)) ∧
    (dt_seconds ≠ f_nan →
     fle f_zero (B64.rsum e) = true ∧
     (fle f_zero (B64.rdelta e) = true
      ↔ ¬ (B64.rin e = f_inf ∧ B64.rout e = f_inf)) ∧
     (B64.rdelta e = f_nan ↔ B64.rin e = f_inf ∧ B64.rout e = f_inf)).
Proof.
  intros Hrows Hin.
  destruct (row64_rate_spec _ _ _ _ _ _ _ Hrows Hin)
    as (bn & bo & bpi & bpo & Hitem & Hprev & _ & Hrate).
  pose proof Hrate as Hinv.
  apply rate_of64_inv in Hinv as (x & y & Hx & Hy & _ & Hri & Hro & Hrs & Hrd).
  exists bn, bo, bpi, bpo, x, y. cbv zeta.
  split_and!; [done..|]. intros Hdt.
  destruct (rate_of64_signs _ _ _ _ _ _ _ (Z.le_max_l 0 _) (Z.le_max_l 0 _)
              (floor_dt64_positive dt_seconds Hdt) Hrate)
    as (_ & _ & Hss & Hnan & Hd).
  split_and!; [by apply signed_nonneg|done|done].
Qed.

Lemma row_derived_fields_witness :
  B64.build_rows "remote" tick64_prev tick64_curr tick_conns three_seconds
  = Some [tick64_row_P_remote] ∧
  three_seconds ≠ f_nan ∧
  B64.rin tick64_row_P_remote = fdiv (float_of_Z 1024) three_seconds ∧
  B64.rout tick64_row_P_remote = fdiv (float_of_Z 300) three_seconds ∧
  B64.rsum tick64_row_P_remote
  = fadd (B64.rin tick64_row_P_remote) (B64.rout tick64_row_P_remote) ∧
  B64.rdelta tick64_row_P_remote
  = fabs (fsub (B64.rin tick64_row_P_remote) (B64.rout tick64_row_P_remote)) ∧
  fle f_zero (B64.rsum tick64_row_P_remote) = true ∧
  fle f_zero (B64.rdelta tick64_row_P_remote) = true.
Proof.
  assert (Hrows : B64.build_rows "remote" tick64_prev tick64_curr tick_conns
                                 three_seconds
                  = Some [tick64_row_P_remote]) by reflexivity.
  assert (Hin : tick64_row_P_remote ∈ [tick64_row_P_remote]).
  { apply list_elem_of_In. left. reflexivity. }
  assert (Hdt : three_seconds ≠ f_nan) by discriminate.
  destruct (row_derived_fields "remote" tick64_prev tick64_curr tick_conns
              three_seconds _ _ Hrows Hin)
    as (bn & bo & bpi & bpo & x & y & _ & _ & _ & _ & _ & _ & Hs & Hd & Hsigns).
  destruct (Hsigns Hdt) as (Hsum & Hdelta & _).
  split; [exact Hrows|]. split; [exact Hdt|].
  split; [reflexivity|]. split; [reflexivity|].
  split; [exact Hs|]. split; [exact Hd|].
  split; [exact Hsum|]. apply Hdelta. intros [Hinf _]. discriminate Hinf.
Defined.

(** ** Which processes get an entry, and which a row, in binary64 *)

(** One second. *)
Example one_second_literal : float_of_Z 1 = S754_finite false 4503599627370496 (-52).
Proof. reflexivity. Qed.

(** [build_rows] returns when every clamped delta is below 2^1023, and
    raises when one is 2^1024 or more. *)
Lemma deltas_convert_below prev curr :
  (∀ p bn bo bpi bpo,
     (p, (bn, bo)) ∈ curr → dict_get p prev = Some (bpi, bpo) →
     bn - bpi < 2 ^ 1023 ∧ bo - bpo < 2 ^ 1023) →
  deltas_convert prev curr.
Proof.
  intros Hsmall p bn bo bpi bpo Hin Hp.
  destruct (Hsmall p bn bo bpi bpo Hin Hp) as [Hi Ho].
  pose proof (Z.pow_pos_nonneg 2 1023 ltac:(lia) ltac:(lia)).
  split; apply float_of_int_finite; lia.
Qed.

Lemma deltas_convert_overflow prev curr p bn bo bpi bpo :
  (p, (bn, bo)) ∈ curr → dict_get p prev = Some (bpi, bpo) →
  2 ^ 1024 ≤ bn - bpi ∨ 2 ^ 1024 ≤ bo - bpo →
  ¬ deltas_convert prev curr.
Proof.
  intros Hin Hp Hbig Hconv.
  destruct (Hconv p bn bo bpi bpo Hin Hp) as [[x Hx] [y Hy]].
  pose proof (Z.pow_pos_nonneg 2 1024 ltac:(lia) ltac:(lia)).
  destruct Hbig as [Hb|Hb].
  - rewrite float_of_int_overflow in Hx by lia. done.
  - rewrite float_of_int_overflow in Hy by lia. done.
Qed.

(** C3, as stated, fails in remote grouping: [Q] of the sample tick has a
    non-zero clamped outbound delta, yet no row, because it has no
    connection record. *)
Lemma entry_without_remote_row :
  ¬ (∀ rows,
       B64.build_rows "remote" tick_prev tick_curr tick_conns (float_of_Z 1)
       = Some rows →
       B64.has_row "Q" rows ↔
       (Z.max 0 (20 - 500) ≠ 0 ∨ Z.max 0 (300 - 100) ≠ 0)).
Proof.
  intros Hrow.
  destruct (Hrow [B64.mkRow "P" "en0" "Established"
                    (ByRemote "93.184.216.34:443"
                              ["10.0.0.2:50001"; "10.0.0.2:50002"])
                    (float_of_Z 1024) f_zero (float_of_Z 1024) (float_of_Z 1024)]
              eq_refl) as [_ Hhas].
  destruct Hhas as (e & Hin & Hp).
  - right. vm_compute. discriminate.
  - apply list_elem_of_singleton in Hin. subst e. discriminate Hp.
Qed.

(** C3, amended. [build_rows] returns exactly when every clamped delta of
    the tick converts to a float: it does when the deltas are below 2^1023,
    and it raises when one is 2^1024 or more. When it returns, a process of
    [curr_totals] has a rate entry if and only if it is in the previous
    snapshot and one of its clamped deltas is not zero. In process
    grouping the process then has a row, and only then; in remote grouping
    it has a row if and only if, besides, it has a connection record. A
    process that is new, or whose counters are those of the previous
    snapshot, has no entry and no row. *)
Theorem entry_iff_nonzero_delta
    prev_totals curr_totals curr_conns dt_seconds p bin_now bout_now :
  wf_dict curr_totals →
  (p, (bin_now, bout_now)) ∈ curr_totals →
  let moved :=
    ∃ bin_prev bout_prev,
      dict_get p prev_totals = Some (bin_prev, bout_prev) ∧
      (Z.max 0 (bin_now - bin_prev) ≠ 0 ∨ Z.max 0 (bout_now - bout_prev) ≠ 0) in
  let rows group :=
    B64.build_rows group prev_totals curr_totals curr_conns dt_seconds in
  (∀ group, is_Some (rows group) ↔ deltas_convert prev_totals curr_totals) ∧
  ((∀ q bn bo bpi bpo,
      (q, (bn, bo)) ∈ curr_totals → dict_get q prev_totals = Some (bpi, bpo) →
      bn - bpi < 2 ^ 1023 ∧ bo - bpo < 2 ^ 1023) →
   ∀ group, is_Some (rows group)) ∧
  (∀ q bn bo bpi bpo,
     (q, (bn, bo)) ∈ curr_totals → dict_get q prev_totals = Some (bpi, bpo) →
     2 ^ 1024 ≤ bn - bpi ∨ 2 ^ 1024 ≤ bo - bpo →
     ∀ group, rows group = None) ∧
  (∀ dt proc_rate,
     B64.proc_rates prev_totals curr_totals dt = Some proc_rate →
     is_Some (dict_get p proc_rate) ↔ moved) ∧
  (∀ group rs, group ≠ "remote" → rows group = Some rs →
     B64.has_row p rs ↔ moved) ∧
  (∀ rs, rows "remote" = Some rs →
     B64.has_row p rs ↔ moved ∧ ∃ cs c, (p, cs) ∈ curr_conns ∧ c ∈ cs) ∧
  (dict_get p prev_totals = None
   ∨ dict_get p prev_totals = Some (bin_now, bout_now) →
   ¬ moved ∧ ∀ group rs, rows group = Some rs → ¬ B64.has_row p rs).
Proof.
  intros Hwf Hitem moved rows.
  assert (Hexact : ∀ dtq,
    is_Some (dict_get p (proc_rates prev_totals curr_totals dtq)) ↔ moved).
  { intros dtq. rewrite (proc_rates_entry_iff _ _ _ _ _ _ Hwf Hitem).
    unfold moved, prev_counters, delta.
    destruct (dict_get p prev_totals) as [[bpi bpo]|]; simpl.
    - split; [intros Hm; by exists bpi, bpo|].
      by intros (? & ? & [= <- <-] & Hm).
    - rewrite !Z.sub_diag. split; [intros [?|?]; done|].
      by intros (? & ? & ? & _). }
  assert (Hentry : ∀ dt proc_rate,
    B64.proc_rates prev_totals curr_totals dt = Some proc_rate →
    is_Some (dict_get p proc_rate) ↔ moved).
  { intros dt pr Hpr. unfold B64.proc_rates in Hpr.
    destruct (rate_fold64_Some _ _ _ _ _ Hpr) as (_ & Hkeys & _).
    rewrite dict_get_is_Some, (Hkeys 1%Q []) by done.
    rewrite <- dict_get_is_Some. apply Hexact. }
  assert (Hproc : ∀ group rs, group ≠ "remote" → rows group = Some rs →
                              B64.has_row p rs ↔ moved).
  { intros group rs Hg Hrs. unfold rows in Hrs.
    destruct (build_rows64_exact _ _ _ _ _ 1%Q _ Hrs) as (pr & _ & _ & _ & ->).
    by rewrite has_row64_exact, has_row_process, Hexact. }
  assert (Hrem : ∀ rs, rows "remote" = Some rs →
                       B64.has_row p rs
                       ↔ moved ∧ ∃ cs c, (p, cs) ∈ curr_conns ∧ c ∈ cs).
  { intros rs Hrs. unfold rows in Hrs.
    destruct (build_rows64_exact _ _ _ _ _ 1%Q _ Hrs) as (pr & _ & _ & _ & ->).
    by rewrite has_row64_exact, has_row_remote, Hexact. }
  split_and!; [intros group; apply build_rows64_is_Some| | |done..|].
  { intros Hsmall group. apply build_rows64_is_Some.
    by apply deltas_convert_below. }
  { intros q bn bo bpi bpo Hq Hprev Hbig group.
    destruct (rows group) as [rs|] eqn:Hrs; [|done]. exfalso.
    apply (deltas_convert_overflow _ _ _ _ _ _ _ Hq Hprev Hbig).
    apply (build_rows64_is_Some group _ _ curr_conns dt_seconds).
    unfold rows in Hrs. rewrite Hrs. by eexists. }
  intros Hsame.
  assert (Hstill : ¬ moved).
  { intros (bpi & bpo & Hp & Hm).
    destruct Hsame as [Hn|Hs]; [congruence|].
    rewrite Hs in Hp. injection Hp as <- <-. rewrite !Z.sub_diag in Hm.
    by destruct Hm. }
  split; [done|]. intros group rs Hrs Hrow.
  destruct (decide (group = "remote")) as [->|Hg].
  - apply (Hrem rs Hrs) in Hrow as [? _]. done.
  - apply (Hproc group rs Hg Hrs) in Hrow. done.
Qed.

Lemma entry_iff_nonzero_delta_witness :
  wf_dict tick64_curr ∧ ("P", (1724, 400)) ∈ tick64_curr ∧
  B64.build_rows "process" tick64_prev tick64_curr tick_conns three_seconds
  = Some [tick64_row_P_process; tick64_row_Q_process] ∧
  (B64.has_row "P" [tick64_row_P_process; tick64_row_Q_process]
   ↔ ∃ bin_prev bout_prev,
       dict_get "P" tick64_prev = Some (bin_prev, bout_prev) ∧
       (Z.max 0 (1724 - bin_prev) ≠ 0 ∨ Z.max 0 (400 - bout_prev) ≠ 0)).
Proof.
  assert (Hwf : wf_dict tick64_curr) by by_decide.
  assert (Hitem : ("P", (1724, 400)) ∈ tick64_curr) by by_decide.
  assert (Hg : "process" ≠ "remote") by discriminate.
  assert (Hrows : B64.build_rows "process" tick64_prev tick64_curr tick_conns
                                 three_seconds
                  = Some [tick64_row_P_process; tick64_row_Q_process])
    by reflexivity.
  split; [exact Hwf|]. split; [exact Hitem|]. split; [exact Hrows|].
  exact (proj1 (proj2 (proj2 (proj2 (proj2
           (entry_iff_nonzero_delta tick64_prev tick64_curr tick_conns
              three_seconds "P" 1724 400 Hwf Hitem)))))
           "process" _ Hg Hrows).
Defined.

(** ** Processes without connection records *)



(** ** Remote grouping, row by row *)







(** ** The connection field in process grouping *)

Lemma nonempty_true s : nonempty s = true ↔ s ≠ "".
Proof. destruct s; simpl; split; congruence. Qed.

Lemma string_app_nil_r (s : string) : s +:+ "" = s.
Proof.
  induction s as [|a s IH]; [done|].
  change (String a (s +:+ "") = String a s). by rewrite IH.
Qed.

Lemma remotes_of_cons c cs :
  remotes_of (c :: cs)
  = if nonempty (remote c) then remote c :: remotes_of cs else remotes_of cs.
Proof.
  unfold remotes_of. csimpl. rewrite filter_cons.
  destruct (nonempty (remote c)) eqn:Hn.
  - by rewrite decide_True.
  - by rewrite decide_False by congruence.
Qed.

Lemma first_remote_none cs :
  Forall (fun c => remote c = "") cs → first_remote cs = no_remote.
Proof.
  unfold first_remote. induction 1 as [|c cs Hc _ IH]; [done|].
  rewrite remotes_of_cons, Hc. simpl. exact IH.
Qed.

Lemma first_remote_some cs c :
  c ∈ cs → remote c ≠ "" →
  ∃ pre c0 post,
    cs = pre ++ c0 :: post ∧ Forall (fun c => remote c = "") pre ∧
    remote c0 ≠ "" ∧ first_remote cs = remote c0.
Proof.
  unfold first_remote. induction cs as [|c1 cs IH]; intros Hin Hne.
  - by apply elem_of_nil in Hin.
  - rewrite remotes_of_cons. destruct (nonempty (remote c1)) eqn:Hn.
    + exists [], c1, cs. split_and!; [done|constructor| |done].
      by apply nonempty_true.
    + assert (Hc1 : remote c1 = "") by (by destruct (remote c1)).
      apply elem_of_cons in Hin as [->|Hin]; [done|].
      destruct (IH Hin Hne) as (pre & c0 & post & -> & Hpre & Hc0 & Hfirst).
      exists (c1 :: pre), c0, post. split_and!; [done|by constructor|done..].
Qed.

(** C8, as stated, fails: the process of [listen_conns] has a connection,
    and its row shows the placeholder. *)
Lemma placeholder_with_connection :
  ¬ (∀ e, e ∈ build_rows "process" tick_prev tick_curr listen_conns 1 →
          r_detail e = ByProcess no_remote ↔
          default [] (dict_get (r_proc e) listen_conns) = []).
Proof.
  intros Hall. destruct (Hall tick_row_P_listen) as [Hempty _].
  { apply list_elem_of_In. left. reflexivity. }
  discriminate (Hempty eq_refl).
Qed.

(** C8, amended. In process grouping the connection field of a row is the
    first remote followed by the overflow annotation. For a process without
    connection records the field is exactly the placeholder; when no
    connection of the process has a non-empty remote the placeholder stands
    for the first remote; otherwise the first remote is the remote of the
    first connection that has a non-empty one. *)
Theorem process_row_conn_field
    group prev_totals curr_totals curr_conns dt_seconds e :
  group ≠ "remote" →
  e ∈ build_rows group prev_totals curr_totals curr_conns dt_seconds →
  let conns := default [] (dict_get (r_proc e) curr_conns) in
  r_detail e = ByProcess (first_remote conns +:+ extra_note conns) ∧
  (conns = [] → r_detail e = ByProcess no_remote) ∧
  (Forall (fun c => remote c = "") conns → first_remote conns = no_remote) ∧
  (∀ c, c ∈ conns → remote c ≠ "" →
     ∃ pre c0 post,
       conns = pre ++ c0 :: post ∧ Forall (fun c => remote c = "") pre ∧
       remote c0 ≠ "" ∧ first_remote conns = remote c0).
Proof.
  intros Hg Hin conns.
  assert (Hfield : r_detail e
                   = ByProcess (first_remote conns +:+ extra_note conns)).
  { rewrite build_rows_process in Hin by done.
    apply list_elem_of_fmap in Hin as ([p r] & -> & _).
    unfold conns. rewrite process_row_proc. apply process_row_detail. }
  split_and!; [done| |apply first_remote_none|apply first_remote_some].
  intros Hnil. rewrite Hfield, Hnil. done.
Qed.

Lemma process_row_conn_field_witness :
  "process" ≠ "remote" ∧
  tick_row_P_listen ∈ build_rows "process" tick_prev tick_curr listen_conns 1 ∧
  Forall (fun c => remote c = "")
         (default [] (dict_get (r_proc tick_row_P_listen) listen_conns)) ∧
  first_remote (default [] (dict_get (r_proc tick_row_P_listen) listen_conns))
  = no_remote.
Proof.
  assert (Hg : "process" ≠ "remote") by discriminate.
  assert (Hin : tick_row_P_listen
                ∈ build_rows "process" tick_prev tick_curr listen_conns 1).
  { apply list_elem_of_In. left. reflexivity. }
  assert (Hall : Forall (fun c => remote c = "")
                   (default [] (dict_get (r_proc tick_row_P_listen) listen_conns))).
  { repeat constructor. }
  split_and!; [done..|].
  by apply (process_row_conn_field _ _ _ _ _ _ Hg Hin).
Defined.

(** ** Interface prioritization *)

Lemma dict_mem_true {V : Type} (k : string) (d : list (string * V)) :
  dict_mem k d = true ↔ k ∈ d.*1.
Proof.
  unfold dict_mem. rewrite <- dict_get_is_Some.
  destruct (dict_get k d) as [v|].
  - split; [by eauto|done].
  - split; [done|by intros [? ?]].
Qed.

(** [seen] holds each interface name of the connections once. *)
Lemma seen_ifaces_keys conns :
  NoDup (dict_keys (seen_ifaces conns)) ∧
  ∀ i, i ∈ dict_keys (seen_ifaces conns) ↔ i ∈ iface_or_dash <$> conns.
Proof.
  unfold seen_ifaces, dict_keys.
  assert (Hgen : ∀ (acc : list (string * unit)), NoDup acc.*1 →
    let seen := fold_left (fun seen c =>
                  let i := iface_or_dash c in
                  if dict_mem i seen then seen else dict_set i tt seen)
                  conns acc in
    NoDup seen.*1 ∧
    ∀ i, i ∈ seen.*1 ↔ i ∈ acc.*1 ∨ i ∈ iface_or_dash <$> conns).
  { induction conns as [|c conns IH]; intros acc Hacc; csimpl.
    - split; [done|]. intros i. rewrite elem_of_nil. tauto.
    - destruct (dict_mem (iface_or_dash c) acc) eqn:Hmem.
      + destruct (IH acc Hacc) as [Hnd Hiff]. split; [done|].
        intros i. rewrite Hiff, elem_of_cons.
        apply dict_mem_true in Hmem. split; [tauto|].
        intros [?|[->|?]]; tauto.
      + assert (Hfresh : iface_or_dash c ∉ acc.*1).
        { intros Hin. apply dict_mem_true in Hin. congruence. }
        destruct (IH (dict_set (iface_or_dash c) tt acc)) as [Hnd Hiff].
        { by apply dict_set_wf. }
        split; [done|]. intros i. rewrite Hiff, elem_of_cons.
        rewrite dict_set_fresh, fmap_app, elem_of_app by done. csimpl.
        rewrite list_elem_of_singleton. tauto. }
  destruct (Hgen [] (NoDup_nil_2)) as [Hnd Hiff]. split; [done|].
  intros i. rewrite Hiff, elem_of_nil. csimpl. tauto.
Qed.

Lemma two_element_list {A : Type} (l : list A) a b :
  NoDup l → (∀ x, x ∈ l ↔ x = a ∨ x = b) → a ≠ b →
  l = [a; b] ∨ l = [b; a].
Proof.
  intros Hnd Hiff Hab.
  assert (Ha : a ∈ l) by (apply Hiff; by left).
  assert (Hb : b ∈ l) by (apply Hiff; by right).
  destruct l as [|x [|y [|z l]]].
  - by apply elem_of_nil in Ha.
  - apply list_elem_of_singleton in Ha, Hb. congruence.
  - apply NoDup_cons in Hnd as [Hxy _]. rewrite list_elem_of_singleton in Hxy.
    assert (Hx : x = a ∨ x = b) by (apply Hiff; left).
    assert (Hy : y = a ∨ y = b) by (apply Hiff; right; left).
    destruct Hx as [->| ->], Hy as [->| ->]; auto; done.
  - exfalso. apply NoDup_cons in Hnd as [Hx Hnd].
    apply NoDup_cons in Hnd as [Hy _].
    apply not_elem_of_cons in Hx as [Hxy Hx].
    apply not_elem_of_cons in Hx as [Hxz _].
    apply not_elem_of_cons in Hy as [Hyz _].
    assert (Hx' : x = a ∨ x = b) by (apply Hiff; left).
    assert (Hy' : y = a ∨ y = b) by (apply Hiff; right; left).
    assert (Hz' : z = a ∨ z = b) by (apply Hiff; right; right; left).
    destruct Hx' as [->| ->], Hy' as [->| ->], Hz' as [->| ->]; done.
Qed.

Lemma startswith_awdl n :
  startswith "awdl" n = true →
  startswith "en" n = false ∧ startswith "pdp_ip" n = false ∧
  startswith "utun" n = false ∧ n ≠ "-".
Proof.
  unfold startswith. destruct n as [|c n]; simpl; [done|].
  case_decide as Hc; [subst c|done]. intros _.
  split_and!; [done..|]. discriminate.
Qed.

Lemma lower_dash i : i ∈ placeholder → lower i = "-".
Proof. intros Hin. apply list_elem_of_singleton in Hin. by subst. Qed.

Lemma score_peer_to_peer i : peer_to_peer i → score i = 40.
Proof.
  unfold peer_to_peer, score. intros Hp.
  destruct (startswith_awdl _ Hp) as (He & Hpd & Hu & Hdash).
  rewrite bool_decide_eq_false_2, He, Hpd, Hu, Hp; [done|].
  intros Hin. by apply lower_dash in Hin.
Qed.

Lemma score_unrecognized i : unrecognized i → score i = 50.
Proof.
  unfold unrecognized, score. intros (_ & Hreal & He & Hpd & Hu & Ha & Hlo).
  rewrite bool_decide_eq_false_2 by done.
  rewrite He, Hpd, Hu, Ha. by rewrite bool_decide_eq_false_2.
Qed.

Lemma peer_to_peer_real i :
  peer_to_peer i → i ≠ "" ∧ (i ∉ placeholder) ∧ (i ∉ loopbacks).
Proof.
  unfold peer_to_peer, placeholder, loopbacks. intros Hp.
  split_and!.
  - intros ->. discriminate Hp.
  - intros Hin. apply list_elem_of_singleton in Hin. subst. discriminate Hp.
  - intros Hin. apply elem_of_cons in Hin as [->|Hin]; [discriminate Hp|].
    apply list_elem_of_singleton in Hin. subst. discriminate Hp.
Qed.

Lemma unrecognized_external i : unrecognized i → i ∉ loopbacks.
Proof.
  unfold unrecognized, loopbacks. intros (_ & _ & _ & _ & _ & _ & Hlo) Hin.
  apply Hlo. apply elem_of_cons in Hin as [->|Hin]; [left|].
  apply list_elem_of_singleton in Hin. subst. right. left.
Qed.

(** The summary of connections over exactly two names, one peer-to-peer
    and one unrecognized, whatever the encounter order [uniq]. *)
Lemma summarize_two conns a b uniq :
  conns ≠ [] → dict_keys (seen_ifaces conns) = uniq →
  uniq = [a; b] ∨ uniq = [b; a] →
  peer_to_peer a → unrecognized b →
  (summarize_ifaces conns).1 = (b, 1).
Proof.
  intros Hne Huniq Horder Ha Hb.
  pose proof (score_peer_to_peer _ Ha) as Hsa.
  pose proof (score_unrecognized _ Hb) as Hsb.
  destruct (peer_to_peer_real _ Ha) as (_ & Hra & Hea).
  pose proof (unrecognized_external _ Hb) as Heb.
  destruct Hb as (_ & Hrb & Hb).
  assert (Hab : a ≠ b).
  { intros ->. unfold peer_to_peer in Ha. destruct Hb as (_ & _ & _ & Hb & _).
    congruence. }
  unfold summarize_ifaces. destruct conns as [|c0 cs]; [done|].
  cbv zeta. rewrite Huniq.
  assert (Hlen : ∀ x y : string, x ≠ y → length (remove_dups [x; y]) = 2%nat).
  { intros x y Hxy. cbn [remove_dups].
    destruct (decide_rel _ x [y]) as [Hin|?]; [|done].
    by apply list_elem_of_singleton in Hin. }
  assert (Hkeep : ∀ (P : string → Prop) `{!∀ x, Decision (P x)} x y,
                     P x → P y → filter P [x; y] = [x; y]).
  { intros P HP x y Hx Hy.
    by rewrite !filter_cons_True, filter_nil by done. }
  destruct Horder as [-> | ->].
  - rewrite !Hkeep by done. rewrite Hlen by done. unfold max_by_key, key_gt. simpl.
    by rewrite Hsa, Hsb.
  - rewrite !Hkeep by done. rewrite Hlen by done. unfold max_by_key, key_gt. simpl.
    by rewrite Hsa, Hsb.
Qed.

(** C6, as stated, fails: two real interfaces leave one extra. *)
Lemma en0_lo0_extra_not_zero :
  (summarize_ifaces [iface_only "en0"; iface_only "lo0"]).1 ≠ ("en0", 0).
Proof. vm_compute. discriminate. Qed.

(** C6, amended. For the two connections on [en0] and [lo0], whatever their
    states and endpoints, the primary interface is [en0] and the extra count
    is 1: the loopback is a real interface and counts; the state is that of
    the [en0] connection. *)
Theorem summarize_en0_lo0 s1 l1 r1 s2 l2 r2 :
  summarize_ifaces [mkConn "en0" s1 l1 r1; mkConn "lo0" s2 l2 r2]
  = ("en0", 1, s1).
Proof. reflexivity. Qed.

(** C7, as stated, fails: [bridge0] has none of the known prefixes, scores
    above the peer-to-peer [awdl0], and is the primary interface. *)
Lemma awdl_not_primary :
  ¬ (score "bridge0" < score "awdl0") ∧
  (summarize_ifaces [iface_only "awdl0"; iface_only "bridge0"]).1.1 ≠ "awdl0".
Proof. split; [vm_compute; discriminate|vm_compute; discriminate]. Qed.

(** C7, amended. A peer-to-peer interface scores 40, below the 50 of a real
    interface with none of the known prefixes: when the connections of a
    process are on exactly two interfaces, one of each kind, the one without
    a known prefix is the primary interface and the extra count is 1. *)
Theorem unrecognized_outranks_peer_to_peer conns a b :
  peer_to_peer a → unrecognized b →
  (∀ c, c ∈ conns → iface c = a ∨ iface c = b) →
  (∃ c, c ∈ conns ∧ iface c = a) →
  (∃ c, c ∈ conns ∧ iface c = b) →
  score a = 40 ∧ score b = 50 ∧ (summarize_ifaces conns).1 = (b, 1).
Proof.
  intros Ha Hb Hall (ca & Hca & Hia) (cb & Hcb & Hib).
  split; [by apply score_peer_to_peer|].
  split; [by apply score_unrecognized|].
  destruct (peer_to_peer_real _ Ha) as (Hna & _ & _).
  assert (Hnb : b ≠ "") by apply Hb.
  assert (Hab : a ≠ b).
  { intros ->. unfold peer_to_peer in Ha.
    destruct Hb as (_ & _ & _ & _ & _ & Hb & _). congruence. }
  assert (Hdash : ∀ c, c ∈ conns → iface_or_dash c = iface c).
  { intros c Hc. unfold iface_or_dash, or_dash.
    destruct (Hall c Hc) as [Hi|Hi]; rewrite Hi.
    - by destruct a.
    - by destruct b. }
  destruct (seen_ifaces_keys conns) as [Hnd Hkeys].
  apply (summarize_two conns a b (dict_keys (seen_ifaces conns))); try done.
  - intros ->. by apply elem_of_nil in Hca.
  - apply two_element_list; [done| |done].
    intros i. rewrite Hkeys, list_elem_of_fmap. split.
    + intros (c & -> & Hc). rewrite Hdash by done. by apply Hall.
    + intros [-> | ->].
      * exists ca. by rewrite Hdash.
      * exists cb. by rewrite Hdash.
Qed.

Lemma unrecognized_outranks_peer_to_peer_witness :
  peer_to_peer "awdl0" ∧ unrecognized "bridge0" ∧
  score "awdl0" = 40 ∧ score "bridge0" = 50 ∧
  (summarize_ifaces [iface_only "awdl0"; iface_only "bridge0"]).1
  = ("bridge0", 1).
Proof.
  assert (Ha : peer_to_peer "awdl0") by reflexivity.
  assert (Hb : unrecognized "bridge0").
  { unfold unrecognized. split_and!; try reflexivity; try discriminate; by_decide. }
  split; [exact Ha|]. split; [exact Hb|].
  apply (unrecognized_outranks_peer_to_peer
           [iface_only "awdl0"; iface_only "bridge0"] "awdl0" "bridge0" Ha Hb).
  - intros c Hc. apply list_elem_of_In in Hc.
    destruct Hc as [<-|[<-|[]]]; [by left|by right].
  - exists (iface_only "awdl0"). split; [left|reflexivity].
  - exists (iface_only "bridge0"). split; [right; left|reflexivity].
Defined.

(** ** The snapshot parser *)

Lemma dict_get_set_is_Some {K V : Type} `{EqDecision K}
    (k k' : K) (v : V) (d : list (K * V)) :
  is_Some (dict_get k d) → is_Some (dict_get k (dict_set k' v d)).
Proof.
  intros Hk. destruct (decide (k' = k)) as [->|Hne].
  - rewrite dict_get_set_eq. eauto.
  - by rewrite dict_get_set_ne.
Qed.

Section ParseRows.
Variable py_int : string → option Z.
Variables col_iface col_state col_in col_out : option nat.

(** A process-summary row binds its process in both dictionaries. *)
Lemma parse_row_process st r :
  is_conn (cell1 r) = false → cell1 r ≠ "" →
  dict_get (cell1 r)
    (proc_totals (parse_row py_int col_iface col_state col_in col_out st r))
  = Some (parse_counters py_int col_in col_out r) ∧
  is_Some (dict_get (cell1 r)
    (proc_conns (parse_row py_int col_iface col_state col_in col_out st r))).
Proof.
  intros Hconn Hname. unfold parse_row. rewrite Hconn.
  apply nonempty_true in Hname. rewrite Hname. simpl. split.
  - apply dict_get_set_eq.
  - unfold dict_setdefault, dict_mem.
    destruct (dict_get (cell1 r) (proc_conns st)) eqn:Hg.
    + rewrite Hg. eauto.
    + rewrite dict_get_set_eq. eauto.
Qed.

(** Later rows that are not summary rows of [p] leave its counters. *)
Lemma parse_rows_keep_totals p rows : ∀ st,
  (∀ r, r ∈ rows → is_conn (cell1 r) = true ∨ cell1 r ≠ p) →
  dict_get p (proc_totals
    (fold_left (parse_row py_int col_iface col_state col_in col_out) rows st))
  = dict_get p (proc_totals st).
Proof.
  induction rows as [|r rows IH]; intros st Hrows; simpl; [done|].
  rewrite IH by (intros r' Hr'; apply Hrows; by right).
  unfold parse_row.
  destruct (Hrows r) as [Hc|Hne]; [left| |].
  - rewrite Hc. by destruct (cur_proc st).
  - destruct (is_conn (cell1 r)); [by destruct (cur_proc st)|].
    destruct (nonempty (cell1 r)); [|done]. simpl.
    by rewrite dict_get_set_ne.
Qed.

(** No row unbinds a process of [proc_conns]. *)
Lemma parse_rows_keep_conns p rows : ∀ st,
  is_Some (dict_get p (proc_conns st)) →
  is_Some (dict_get p (proc_conns
    (fold_left (parse_row py_int col_iface col_state col_in col_out) rows st))).
Proof.
  induction rows as [|r rows IH]; intros st Hp; simpl; [done|].
  apply IH. unfold parse_row.
  destruct (is_conn (cell1 r)).
  - destruct (cur_proc st) as [q|]; [|done]. simpl.
    unfold dict_append. by apply dict_get_set_is_Some.
  - destruct (nonempty (cell1 r)); [|done]. simpl.
    unfold dict_setdefault. destruct (dict_mem (cell1 r) (proc_conns st)); [done|].
    by apply dict_get_set_is_Some.
Qed.

End ParseRows.

(** The counters recorded for the last summary row of a process. *)
Lemma parse_snapshot_totals (py_int : string → option Z) header pre r post :
  header ≠ [] →
  is_conn (cell1 r) = false → cell1 r ≠ "" →
  (∀ r', r' ∈ post → is_conn (cell1 r') = true ∨ cell1 r' ≠ cell1 r) →
  dict_get (cell1 r) (parse_snapshot py_int header (pre ++ r :: post)).1
  = Some (parse_counters py_int (dict_get "bytes_in" (header_index header))
                         (dict_get "bytes_out" (header_index header)) r) ∧
  is_Some (dict_get (cell1 r) (parse_snapshot py_int header (pre ++ r :: post)).2).
Proof.
  intros Hh Hconn Hname Hpost. unfold parse_snapshot.
  destruct header as [|h header]; [done|]. cbv zeta.
  rewrite fold_left_app. cbn [fold_left fst snd].
  set (st := fold_left _ pre _).
  destruct (parse_row_process py_int
              (dict_get "interface" (header_index (h :: header)))
              (dict_get "state" (header_index (h :: header)))
              (dict_get "bytes_in" (header_index (h :: header)))
              (dict_get "bytes_out" (header_index (h :: header)))
              st r Hconn Hname) as [Htot Hcon].
  split.
  - by rewrite parse_rows_keep_totals.
  - by apply parse_rows_keep_conns.
Qed.

(** C5, as stated, fails: the bytes-in cell of [garbled_row] parses as 100,
    the bytes-out cell ["1.2 KiB"] does not parse, and the counters
    recorded are not (100, 0). *)
Lemma garbled_row_loses_bytes_in :
  read_int "100" = Some 100 ∧ read_int "1.2 KiB" = None ∧
  dict_get "Safari.1234" (parse_snapshot read_int nettop_header [garbled_row]).1
  ≠ Some (100, 0).
Proof. split_and!; [reflexivity|reflexivity|vm_compute; discriminate]. Qed.

(** C5, amended. When a cell of a process-summary row under the bytes-in or
    bytes-out column is not empty and [int] raises on it, the counters
    recorded for the row are (0, 0), whatever the other cell holds; the
    process is still bound in both dictionaries. The row is taken as the
    last summary row of its process in the snapshot. This holds whatever
    texts [int] accepts. *)
Theorem unparsable_cell_zeroes_both (py_int : string → option Z)
    header pre r post i_in i_out s_in s_out :
  dict_get "bytes_in" (header_index header) = Some i_in →
  dict_get "bytes_out" (header_index header) = Some i_out →
  is_conn (cell1 r) = false → cell1 r ≠ "" →
  (∀ r', r' ∈ post → is_conn (cell1 r') = true ∨ cell1 r' ≠ cell1 r) →
  r !! i_in = Some s_in → r !! i_out = Some s_out →
  (s_in ≠ "" ∧ py_int s_in = None) ∨ (s_out ≠ "" ∧ py_int s_out = None) →
  dict_get (cell1 r) (parse_snapshot py_int header (pre ++ r :: post)).1 = Some (0, 0) ∧
  is_Some (dict_get (cell1 r) (parse_snapshot py_int header (pre ++ r :: post)).2).
Proof.
  intros Hin Hout Hconn Hname Hpost Hsi Hso Hbad.
  assert (Hh : header ≠ []) by (intros ->; discriminate Hin).
  destruct (parse_snapshot_totals py_int header pre r post Hh Hconn Hname Hpost)
    as [Htot Hcon].
  split; [|done]. rewrite Htot, Hin, Hout. f_equal.
  unfold parse_counters, cell_int. rewrite Hsi, Hso.
  destruct Hbad as [[Hne Hbad]|[Hne Hbad]];
    apply nonempty_true in Hne; rewrite Hne, Hbad; simpl; [done|].
  by destruct (if nonempty s_in then py_int s_in else Some 0).
Qed.

Lemma unparsable_cell_zeroes_both_witness :
  dict_get "bytes_in" (header_index nettop_header) = Some 4%nat ∧
  dict_get "bytes_out" (header_index nettop_header) = Some 5%nat ∧
  garbled_row !! 4%nat = Some "100" ∧ garbled_row !! 5%nat = Some "1.2 KiB" ∧
  read_int "1.2 KiB" = None ∧
  dict_get "Safari.1234" (parse_snapshot read_int nettop_header [garbled_row]).1
  = Some (0, 0).
Proof.
  split_and!; [reflexivity..|].
  refine (proj1 (unparsable_cell_zeroes_both read_int nettop_header [] garbled_row []
                   4 5 "100" "1.2 KiB" eq_refl eq_refl eq_refl _ _
                   eq_refl eq_refl _)).
  - discriminate.
  - intros r' Hr'. by apply elem_of_nil in Hr'.
  - right. split; [discriminate|reflexivity].
Defined.

(** ** The interval prompt *)

(** C4, as stated, fails: after an empty entry at time 42 the state is not
    the one before the prompt, the next tick target has moved from 5 to 42. *)
Lemma empty_entry_resets_anchor :
  apply_action read_decimal ChangeInterval "" 42 loop_state_0
  ≠ Some loop_state_0 ∧
  next_target <$> apply_action read_decimal ChangeInterval "" 42 loop_state_0
  = Some 42%Q.
Proof. split; [vm_compute; discriminate|reflexivity]. Qed.

(** C4, amended. After the interval prompt returns the loop goes on, with
    the tick target set to the current time whatever was entered. The
    interval keeps its value when the entry is empty, is not a number or is
    a number that is not positive, and becomes the entered number when that
    is positive; the other loop variables keep their values. *)
Theorem change_interval_step (py_float : string → option Q) s now st :
  ∃ st',
    apply_action py_float ChangeInterval s now st = Some st' ∧
    next_target st' = now ∧
    (s = "" ∨ py_float s = None ∨ (∃ v, py_float s = Some v ∧ (v <= 0)%Q) →
       interval st' = interval st) ∧
    (∀ v, s ≠ "" → py_float s = Some v → (0 < v)%Q → interval st' = v) ∧
    prev_totals st' = prev_totals st ∧ prev_time st' = prev_time st ∧
    display_metric st' = display_metric st ∧ sort_key st' = sort_key st ∧
    show_help st' = show_help st.
Proof.
  eexists. split; [reflexivity|]. simpl. split_and!; try done.
  - unfold interval_after_prompt.
    intros [-> | [Hnone | (v & Hv & Hle)]]; [done| |].
    + rewrite Hnone. by destruct (nonempty s).
    + rewrite Hv. destruct (nonempty s); [|done].
      destruct (Qlt_le_dec 0 v) as [Hlt|_]; [|done].
      exfalso. apply (Qlt_not_le _ _ Hlt Hle).
  - intros v Hs Hv Hpos. unfold interval_after_prompt.
    apply nonempty_true in Hs. rewrite Hs, Hv.
    destruct (Qlt_le_dec 0 v) as [_|Hle]; [done|].
    exfalso. apply (Qlt_not_le _ _ Hpos Hle).
Qed.

Lemma change_interval_step_witness :
  read_decimal "fast" = None ∧
  ∃ st',
    apply_action read_decimal ChangeInterval "fast" 42 loop_state_0 = Some st' ∧
    next_target st' = 42%Q ∧ interval st' = interval loop_state_0.
Proof.
  assert (Hbad : read_decimal "fast" = None) by reflexivity.
  split; [exact Hbad|].
  destruct (change_interval_step read_decimal "fast" 42 loop_state_0)
    as (st' & Hstep & Hanchor & Hkeep & _).
  exists st'. split; [exact Hstep|]. split; [exact Hanchor|].
  apply Hkeep. right. left. exact Hbad.
Defined.

(** * Further properties of the pipeline *)

(** ** The snapshot parser: what every parsed snapshot satisfies *)

Lemma dict_setdefault_keys {K V : Type} `{EqDecision K} (k : K) (v : V)
    (d : list (K * V)) :
  (dict_setdefault k v d).*1 = if decide (k ∈ d.*1) then d.*1 else d.*1 ++ [k].
Proof.
  unfold dict_setdefault, dict_mem.
  destruct (dict_get k d) as [w|] eqn:Hg.
  - rewrite decide_True; [done|]. apply dict_get_is_Some. by eexists.
  - apply dict_get_None in Hg. rewrite decide_False by done.
    by rewrite dict_set_fresh, fmap_app.
Qed.

Section ParseInvariants.
Variable py_int : string → option Z.
Variables col_iface col_state col_in col_out : option nat.

Lemma parse_row_inv st r :
  parse_inv st → parse_inv (parse_row py_int col_iface col_state col_in col_out st r).
Proof.
  intros (Hkeys & Hnd & Hcur). unfold parse_row.
  destruct (is_conn (cell1 r)).
  - destruct (cur_proc st) as [p|] eqn:Hp; [|by rewrite <- Hp in Hcur].
    unfold parse_inv. simpl. unfold dict_append.
    rewrite dict_set_keys_bound by by apply Hcur.
    split_and!; [done..|]. intros q [= <-]. by apply Hcur.
  - destruct (nonempty (cell1 r)); [|done].
    unfold parse_inv. simpl.
    rewrite dict_set_keys, dict_setdefault_keys, <- Hkeys.
    case_decide as Hin.
    + split_and!; [done..|]. intros q [= <-]. done.
    + split_and!; [done| |].
      * apply NoDup_app. split_and!; [done| |apply NoDup_singleton].
        intros x Hx Hx'. apply list_elem_of_singleton in Hx'. by subst.
      * intros q [= <-]. apply elem_of_app. right. left.
Qed.

Lemma parse_rows_inv rows : ∀ st,
  parse_inv st →
  parse_inv (fold_left (parse_row py_int col_iface col_state col_in col_out) rows st).
Proof.
  induction rows as [|r rows IH]; intros st Hst; simpl; [done|].
  by apply IH, parse_row_inv.
Qed.

(** A property of counters that the default and every stored pair have. *)
Lemma parse_rows_totals_Forall (P : Z * Z → Prop) rows : ∀ st,
  (∀ r, P (parse_counters py_int col_in col_out r)) →
  Forall P (proc_totals st).*2 →
  Forall P (proc_totals
    (fold_left (parse_row py_int col_iface col_state col_in col_out) rows st)).*2.
Proof.
  induction rows as [|r rows IH]; intros st HP Hst; simpl; [done|].
  apply IH; [done|]. unfold parse_row.
  destruct (is_conn (cell1 r)); [by destruct (cur_proc st)|].
  destruct (nonempty (cell1 r)); [|done]. simpl.
  by apply dict_set_values.
Qed.

(** A property of connection records that every appended record has. *)
Lemma parse_rows_conns_Forall (P : Conn → Prop) rows : ∀ st,
  (∀ c1 i s, P (conn_of_row c1 i s)) →
  Forall (Forall P) (proc_conns st).*2 →
  Forall (Forall P) (proc_conns
    (fold_left (parse_row py_int col_iface col_state col_in col_out) rows st)).*2.
Proof.
  induction rows as [|r rows IH]; intros st HP Hst; simpl; [done|].
  apply IH; [done|]. unfold parse_row.
  destruct (is_conn (cell1 r)).
  - destruct (cur_proc st) as [p|]; [|done]. simpl. unfold dict_append.
    apply dict_set_values; [|done].
    apply Forall_app. split; [|by repeat constructor].
    destruct (dict_get p (proc_conns st)) as [cs|] eqn:Hg; [|by constructor].
    apply dict_get_Some_elem in Hg. simpl.
    eapply (proj1 (Forall_forall _ _) Hst).
    apply list_elem_of_fmap. by exists (p, cs).
  - destruct (nonempty (cell1 r)); [|done]. simpl.
    unfold dict_setdefault. destruct (dict_mem _ _); [done|].
    apply dict_set_values; [constructor|done].
Qed.

(** Rows that are connection rows or have no name leave the initial state. *)
Lemma parse_rows_orphans rows :
  Forall (fun r => is_conn (cell1 r) = true ∨ cell1 r = "") rows →
  fold_left (parse_row py_int col_iface col_state col_in col_out) rows
            (mkParse [] [] None)
  = mkParse [] [] None.
Proof.
  induction 1 as [|r rows Hr _ IH]; simpl; [done|].
  replace (parse_row py_int col_iface col_state col_in col_out (mkParse [] [] None) r)
    with (mkParse [] [] None); [done|].
  unfold parse_row. destruct Hr as [-> | ->]; [done|].
  by destruct (is_conn "").
Qed.


End ParseInvariants.

(** *** [strip] *)

(** Induction along the recursion of [lstrip]. *)
Lemma lstrip_ind (P : string → Prop) :
  P "" →
  (∀ a s1, is_space a = true → P s1 → P (String a s1)) →
  (∀ a b s2, is_space a = false → is_space2 a b = true → P s2 →
             P (String a (String b s2))) →
  (∀ a b c s3, is_space a = false → is_space2 a b = false →
               is_space3 a b c = true → P s3 →
               P (String a (String b (String c s3)))) →
  (∀ s, s ≠ "" → lstrip s = s → P s) →
  ∀ s, P s.
Proof.
  intros H0 H1 H2 H3 Hfix s.
  assert (Hgen : ∀ n s, (String.length s ≤ n)%nat → P s).
  { clear s. induction n as [|n IH]; intros s Hn.
    - destruct s; [done|simpl in Hn; lia].
    - destruct s as [|a s1]; [done|]. simpl in Hn.
      destruct (is_space a) eqn:Ha; [apply H1; [done|apply IH; lia]|].
      destruct s1 as [|b s2].
      { apply Hfix; [done|]. simpl. by rewrite Ha. }
      simpl in Hn.
      destruct (is_space2 a b) eqn:Hb; [apply H2; [done..|apply IH; lia]|].
      destruct s2 as [|c s3].
      { apply Hfix; [done|]. simpl. by rewrite Ha, Hb. }
      simpl in Hn.
      destruct (is_space3 a b c) eqn:Hc; [apply H3; [done..|apply IH; lia]|].
      apply Hfix; [done|]. simpl. by rewrite Ha, Hb, Hc. }
  by apply (Hgen (String.length s)).
Qed.

Lemma lstrip_space a s : is_space a = true → lstrip (String a s) = lstrip s.
Proof. intros Ha. simpl. by rewrite Ha. Qed.

Lemma lstrip_space2 a b s :
  is_space a = false → is_space2 a b = true →
  lstrip (String a (String b s)) = lstrip s.
Proof. intros Ha Hb. simpl. by rewrite Ha, Hb. Qed.

Lemma lstrip_space3 a b c s :
  is_space a = false → is_space2 a b = false → is_space3 a b c = true →
  lstrip (String a (String b (String c s))) = lstrip s.
Proof. intros Ha Hb Hc. simpl. by rewrite Ha, Hb, Hc. Qed.

Lemma lstrip_length s : (String.length (lstrip s) ≤ String.length s)%nat.
Proof.
  induction s using lstrip_ind.
  - done.
  - rewrite lstrip_space by done. simpl. lia.
  - rewrite lstrip_space2 by done. simpl. lia.
  - rewrite lstrip_space3 by done. simpl. lia.
  - by rewrite H0.
Qed.

Lemma lstrip_idem s : lstrip (lstrip s) = lstrip s.
Proof.
  induction s using lstrip_ind.
  - done.
  - by rewrite lstrip_space.
  - by rewrite lstrip_space2.
  - by rewrite lstrip_space3.
  - by rewrite !H0.
Qed.

(** White space in front of a text is stripped with it. *)
Lemma lstrip_app_space x w : lstrip x = "" → lstrip (x +:+ w) = lstrip w.
Proof.
  induction x using lstrip_ind; intros Hx.
  - done.
  - rewrite lstrip_space in Hx by done.
    change (String a x +:+ w) with (String a (x +:+ w)).
    rewrite lstrip_space by done. auto.
  - rewrite lstrip_space2 in Hx by done.
    change (String a (String b x) +:+ w) with (String a (String b (x +:+ w))).
    rewrite lstrip_space2 by done. auto.
  - rewrite lstrip_space3 in Hx by done.
    change (String a (String b (String c x)) +:+ w)
      with (String a (String b (String c (x +:+ w)))).
    rewrite lstrip_space3 by done. auto.
  - congruence.
Qed.

(** A text without white space in front has no prefix with some. *)
Lemma lstrip_fixed_prefix p w : lstrip (p +:+ w) = p +:+ w → lstrip p = p.
Proof.
  assert (Hshort : ∀ s t, (String.length s < String.length t)%nat → lstrip s ≠ t).
  { intros s t Hlt Heq. pose proof (lstrip_length s) as Hle. rewrite Heq in Hle. lia. }
  destruct p as [|a [|b [|c p]]]; [done| | |].
  - destruct (is_space a) eqn:Ha; [|simpl; by rewrite Ha]. intros Hf.
    change (String a "" +:+ w) with (String a w) in Hf.
    rewrite lstrip_space in Hf by done.
    exfalso. apply (Hshort w (String a w)); [simpl; lia|done].
  - change (String a (String b "") +:+ w) with (String a (String b w)).
    intros Hf. destruct (is_space a) eqn:Ha.
    { rewrite lstrip_space in Hf by done.
      exfalso. eapply Hshort; [|exact Hf]. simpl. lia. }
    destruct (is_space2 a b) eqn:Hb; [|simpl; by rewrite Ha, Hb].
    rewrite lstrip_space2 in Hf by done.
    exfalso. eapply Hshort; [|exact Hf]. simpl. lia.
  - change (String a (String b (String c p)) +:+ w)
      with (String a (String b (String c (p +:+ w)))).
    intros Hf. destruct (is_space a) eqn:Ha.
    { rewrite lstrip_space in Hf by done.
      exfalso. eapply Hshort; [|exact Hf]. simpl. lia. }
    destruct (is_space2 a b) eqn:Hb.
    { rewrite lstrip_space2 in Hf by done.
      exfalso. eapply Hshort; [|exact Hf]. simpl. lia. }
    destruct (is_space3 a b c) eqn:Hc; [|simpl; by rewrite Ha, Hb, Hc].
    rewrite lstrip_space3 in Hf by done.
    exfalso. eapply Hshort; [|exact Hf]. simpl. lia.
Qed.

Lemma rstrip_cons a s :
  rstrip (String a s)
  = if nonempty (lstrip (String a s)) then String a (rstrip s) else "".
Proof. done. Qed.

(** [rstrip] cuts a tail of white space. *)
Lemma rstrip_cut s : ∃ w, s = rstrip s +:+ w ∧ lstrip w = "".
Proof.
  induction s as [|a s (w & Hs & Hw)]; [by exists ""|].
  rewrite rstrip_cons. destruct (lstrip (String a s)) as [|x t] eqn:Hl.
  - by exists (String a s).
  - exists w. split; [|done].
    change (String a s = String a (rstrip s +:+ w)). by rewrite <- Hs.
Qed.

Lemma rstrip_idem s : rstrip (rstrip s) = rstrip s.
Proof.
  induction s as [|a s IH]; [done|].
  rewrite rstrip_cons. destruct (lstrip (String a s)) as [|x t] eqn:Hl; [done|].
  cbn [nonempty]. rewrite rstrip_cons, IH.
  destruct (lstrip (String a (rstrip s))) as [|y u] eqn:Hl'; [|done].
  exfalso. destruct (rstrip_cut s) as (w & Hs & Hw).
  pose proof (lstrip_app_space (String a (rstrip s)) w Hl') as Happ.
  change (String a (rstrip s) +:+ w) with (String a (rstrip s +:+ w)) in Happ.
  rewrite <- Hs, Hl, Hw in Happ. done.
Qed.

(** [strip] leaves a stripped text as it is. *)
Lemma strip_idem s : strip (strip s) = strip s.
Proof.
  unfold strip. destruct (rstrip_cut (lstrip s)) as (w & Hs & _).
  rewrite (lstrip_fixed_prefix (rstrip (lstrip s)) w).
  - apply rstrip_idem.
  - by rewrite <- Hs, lstrip_idem.
Qed.

Lemma or_dash_nonempty s : or_dash s ≠ "".
Proof. unfold or_dash. by destruct s. Qed.

Lemma or_dash_fixed s : or_dash (or_dash s) = or_dash s.
Proof. unfold or_dash. by destruct s. Qed.

Lemma header_index_None header k :
  dict_get k (header_index header) = None ↔ k ∉ lower <$> header.
Proof.
  unfold header_index, enumerate. rewrite dict_get_None.
  assert (Hgen : ∀ (l : list (nat * string)) (acc : list (string * nat)),
    k ∈ (fold_left (fun idx '(i, name) => dict_set (lower name) i idx) l acc).*1
    ↔ k ∈ acc.*1 ∨ k ∈ lower <$> l.*2).
  { induction l as [|[i name] l IH]; intros acc; csimpl.
    - rewrite elem_of_nil. tauto.
    - rewrite IH, dict_set_keys, elem_of_cons. case_decide as Hin.
      + split; [tauto|]. intros [?|[->|?]]; tauto.
      + rewrite elem_of_app, list_elem_of_singleton. tauto. }
  rewrite Hgen, snd_zip by (rewrite length_seq; lia).
  csimpl. rewrite elem_of_nil. tauto.
Qed.

(** X1. The two dictionaries of a parsed snapshot bind the same processes,
    in the same order, and no process twice. *)
Theorem parse_snapshot_same_processes (py_int : string → option Z) header body :
  dict_keys (parse_snapshot py_int header body).1
  = dict_keys (parse_snapshot py_int header body).2
  ∧ wf_dict (parse_snapshot py_int header body).1
  ∧ wf_dict (parse_snapshot py_int header body).2.
Proof.
  unfold parse_snapshot, dict_keys, wf_dict.
  destruct header as [|h header]; [split_and!; [done|constructor..]|].
  cbv zeta. cbn [fst snd].
  match goal with |- context [fold_left (parse_row ?f ?a ?b ?c ?d) body ?st] =>
    destruct (parse_rows_inv f a b c d body st) as (Hkeys & Hnd & _)
  end.
  { split_and!; [done|constructor|done]. }
  split_and!; [done|done|by rewrite <- Hkeys].
Qed.

(** X2. Every connection record of a parsed snapshot names an interface
    and a state (the placeholder [-] when the cell is empty or absent), and
    its endpoints carry no surrounding white space. *)
Theorem parse_snapshot_records_normal (py_int : string → option Z) header body p cs c :
  (p, cs) ∈ (parse_snapshot py_int header body).2 → c ∈ cs →
  iface c ≠ "" ∧ state c ≠ "" ∧ iface_or_dash c = iface c ∧
  strip (local c) = local c ∧ strip (remote c) = remote c.
Proof.
  unfold parse_snapshot. destruct header as [|h header].
  { intros Hin. by apply elem_of_nil in Hin. }
  cbv zeta. cbn [fst snd]. intros Hcs Hc.
  assert (Hgood : ∀ c1 i s,
    (fun c => iface c ≠ "" ∧ state c ≠ "" ∧ iface_or_dash c = iface c ∧
              strip (local c) = local c ∧ strip (remote c) = remote c)
      (conn_of_row c1 i s)).
  { intros c1 i s. unfold conn_of_row, iface_or_dash.
    destruct (split_once "<->" c1) as [[l r]|]; simpl;
      split_and!; auto using or_dash_nonempty, or_dash_fixed, strip_idem. }
  match type of Hcs with
  | _ ∈ proc_conns (fold_left (parse_row ?f ?a ?b ?c ?d) body ?st) =>
      pose proof (parse_rows_conns_Forall f a b c d _ body st Hgood
                    (Forall_nil_2 _)) as Hvals
  end.
  rewrite Forall_forall in Hvals.
  specialize (Hvals cs). rewrite Forall_forall in Hvals.
  apply Hvals; [|done]. apply list_elem_of_fmap. by exists (p, cs).
Qed.

Lemma parse_snapshot_records_normal_witness :
  ("Safari.1", [mkConn "-" "-" "udp4 *:53" ""])
  ∈ (parse_snapshot read_int nettop_header
       [["t"; "Safari.1"; ""; ""; "1"; "2"]; ["t"; "  udp4 *:53 "]]).2 ∧
  iface (mkConn "-" "-" "udp4 *:53" "") ≠ "" ∧
  strip (local (mkConn "-" "-" "udp4 *:53" ""))
  = local (mkConn "-" "-" "udp4 *:53" "").
Proof.
  assert (Hin : ("Safari.1", [mkConn "-" "-" "udp4 *:53" ""])
    ∈ (parse_snapshot read_int nettop_header
         [["t"; "Safari.1"; ""; ""; "1"; "2"]; ["t"; "  udp4 *:53 "]]).2).
  { apply list_elem_of_In. left. reflexivity. }
  assert (Hc : mkConn "-" "-" "udp4 *:53" "" ∈ [mkConn "-" "-" "udp4 *:53" ""])
    by left.
  destruct (parse_snapshot_records_normal _ _ _ _ _ _ Hin Hc)
    as (Hi & _ & _ & Hl & _).
  split; [exact Hin|]. split; [exact Hi|exact Hl].
Defined.

(** X3. When the header has no [bytes_out] column, in any letter case,
    every process gets a zero outbound counter; likewise without a
    [bytes_in] column every inbound counter is zero. *)
Theorem parse_snapshot_missing_column (py_int : string → option Z) header body p bin_ bout_ :
  (p, (bin_, bout_)) ∈ (parse_snapshot py_int header body).1 →
  ("bytes_out" ∉ lower <$> header → bout_ = 0) ∧
  ("bytes_in" ∉ lower <$> header → bin_ = 0).
Proof.
  unfold parse_snapshot. destruct header as [|h header].
  { intros Hin. by apply elem_of_nil in Hin. }
  cbv zeta. cbn [fst snd]. intros Hin.
  assert (Hval : ∀ (P : Z * Z → Prop),
    (∀ r, P (parse_counters py_int (dict_get "bytes_in" (header_index (h :: header)))
                            (dict_get "bytes_out" (header_index (h :: header)))
                            r)) →
    P (bin_, bout_)).
  { intros P HP.
    match type of Hin with
    | _ ∈ proc_totals (fold_left (parse_row ?f ?a ?b ?c ?d) body ?st) =>
        pose proof (parse_rows_totals_Forall f a b c d P body st HP
                      (Forall_nil_2 _)) as Hall
    end.
    rewrite Forall_forall in Hall. apply Hall.
    apply list_elem_of_fmap. by exists (p, (bin_, bout_)). }
  split; intros Hcol; apply header_index_None in Hcol.
  - apply (Hval (fun v => v.2 = 0)). intros r.
    unfold parse_counters. rewrite Hcol. simpl.
    by destruct (cell_int _ _ r).
  - apply (Hval (fun v => v.1 = 0)). intros r.
    unfold parse_counters. rewrite Hcol. simpl.
    by destruct (cell_int _ _ r).
Qed.

Lemma parse_snapshot_missing_column_witness :
  ("P", (7, 0)) ∈ (parse_snapshot read_int ["time"; "process"; "BYTES_IN"]
                                  [["t"; "P"; "7"; "9"]]).1 ∧
  ("bytes_out" ∉ lower <$> ["time"; "process"; "BYTES_IN"]) ∧
  (0 : Z) = 0.
Proof.
  assert (Hin : ("P", (7, 0)) ∈ (parse_snapshot read_int ["time"; "process"; "BYTES_IN"]
                                                [["t"; "P"; "7"; "9"]]).1).
  { apply list_elem_of_In. left. reflexivity. }
  assert (Hnot : "bytes_out" ∉ lower <$> ["time"; "process"; "BYTES_IN"])
    by by_decide.
  split; [exact Hin|]. split; [exact Hnot|].
  exact (proj1 (parse_snapshot_missing_column _ _ _ _ _ _ Hin) Hnot).
Defined.

(** X4. Rows before the first process row that are connection rows, or
    have an empty name cell, are dropped: the snapshot is that of the
    remaining rows. A body of such rows only gives the empty snapshot. *)
Theorem parse_snapshot_orphans_dropped (py_int : string → option Z) header orphans body :
  Forall (fun r => is_conn (cell1 r) = true ∨ cell1 r = "") orphans →
  parse_snapshot py_int header (orphans ++ body) = parse_snapshot py_int header body ∧
  parse_snapshot py_int header orphans = ([], []).
Proof.
  intros Horph. unfold parse_snapshot.
  destruct header as [|h header]; [done|]. cbv zeta.
  rewrite fold_left_app, !parse_rows_orphans by done. done.
Qed.

Lemma parse_snapshot_orphans_dropped_witness :
  parse_snapshot read_int nettop_header
    ([["t"; "tcp4 10.0.0.2:1<->10.0.0.3:2"; "en0"]; ["t"]] ++ [garbled_row])
  = parse_snapshot read_int nettop_header [garbled_row].
Proof.
  refine (proj1 (parse_snapshot_orphans_dropped read_int nettop_header
           [["t"; "tcp4 10.0.0.2:1<->10.0.0.3:2"; "en0"]; ["t"]] [garbled_row]
           _)).
  apply Forall_cons. split; [left; reflexivity|].
  apply Forall_cons. split; [right; reflexivity|]. constructor.
Defined.



(** X6. Counter cells that [int] accepts are recorded with the values it
    returns, and an empty cell counts as zero for its own field only: the
    counters of the last summary row of a process are the values of its
    two cells. *)
Theorem parse_snapshot_counters (py_int : string → option Z) header pre r post i_in i_out s_in s_out a b :
  dict_get "bytes_in" (header_index header) = Some i_in →
  dict_get "bytes_out" (header_index header) = Some i_out →
  is_conn (cell1 r) = false → cell1 r ≠ "" →
  (∀ r', r' ∈ post → is_conn (cell1 r') = true ∨ cell1 r' ≠ cell1 r) →
  r !! i_in = Some s_in → r !! i_out = Some s_out →
  (s_in = "" ∧ a = 0) ∨ (s_in ≠ "" ∧ py_int s_in = Some a) →
  (s_out = "" ∧ b = 0) ∨ (s_out ≠ "" ∧ py_int s_out = Some b) →
  dict_get (cell1 r) (parse_snapshot py_int header (pre ++ r :: post)).1 = Some (a, b).
Proof.
  intros Hin Hout Hconn Hname Hpost Hsi Hso Ha Hb.
  assert (Hh : header ≠ []) by (intros ->; discriminate Hin).
  destruct (parse_snapshot_totals py_int header pre r post Hh Hconn Hname Hpost)
    as [Htot _].
  rewrite Htot, Hin, Hout. f_equal.
  unfold parse_counters, cell_int. rewrite Hsi, Hso.
  assert (Hcell : ∀ s v, (s = "" ∧ v = 0) ∨ (s ≠ "" ∧ py_int s = Some v) →
                         (if nonempty s then py_int s else Some 0) = Some v).
  { intros s v [[-> ->]|[Hne Hv]]; [done|].
    apply nonempty_true in Hne. by rewrite Hne. }
  by rewrite (Hcell _ _ Ha), (Hcell _ _ Hb).
Qed.

Lemma parse_snapshot_counters_witness :
  dict_get "mDNS.2"
    (parse_snapshot read_int nettop_header
       ([garbled_row] ++ ["t"; "mDNS.2"; ""; ""; " 1_500 "; ""] :: [])).1
  = Some (1500, 0).
Proof.
  refine (parse_snapshot_counters read_int nettop_header [garbled_row]
            ["t"; "mDNS.2"; ""; ""; " 1_500 "; ""] [] 4 5 " 1_500 " ""
            1500 0 eq_refl eq_refl eq_refl _ _ eq_refl eq_refl _ _).
  - discriminate.
  - intros r' Hr'. by apply elem_of_nil in Hr'.
  - right. split; [discriminate|reflexivity].
  - left. done.
Defined.

(** ** The interface prioritizer: what the summary always satisfies *)

Lemma ascii_compare_trans a b c :
  Ascii.compare a b = Lt → Ascii.compare b c = Lt → Ascii.compare a c = Lt.
Proof.
  unfold Ascii.compare. rewrite !N.compare_lt_iff. lia.
Qed.

Lemma ascii_compare_refl a : Ascii.compare a a = Eq.
Proof. unfold Ascii.compare. apply N.compare_refl. Qed.

Lemma string_compare_trans s1 : ∀ s2 s3,
  String.compare s1 s2 = Lt → String.compare s2 s3 = Lt →
  String.compare s1 s3 = Lt.
Proof.
  induction s1 as [|a s1 IH]; intros [|b s2] [|c s3]; simpl; try done.
  destruct (Ascii.compare a b) eqn:Hab; [|clear IH|done];
    destruct (Ascii.compare b c) eqn:Hbc; try done.
  - apply Ascii.compare_eq_iff in Hab, Hbc. subst.
    rewrite ascii_compare_refl. apply IH.
  - apply Ascii.compare_eq_iff in Hab. subst. by rewrite Hbc.
  - apply Ascii.compare_eq_iff in Hbc. subst. by rewrite Hab.
  - by rewrite (ascii_compare_trans _ _ _ Hab Hbc).
Qed.

Lemma string_ltb_trans s1 s2 s3 :
  String.ltb s1 s2 = true → String.ltb s2 s3 = true → String.ltb s1 s3 = true.
Proof.
  unfold String.ltb. intros H12 H23.
  destruct (String.compare s1 s2) eqn:E12; try done.
  destruct (String.compare s2 s3) eqn:E23; try done.
  by rewrite (string_compare_trans _ _ _ E12 E23).
Qed.

(** The key order of [max] is transitive. *)
Lemma key_gt_trans a b c :
  key_gt a b = true → key_gt b c = true → key_gt a c = true.
Proof.
  unfold key_gt. rewrite !orb_true_iff, !andb_true_iff.
  rewrite !Z.ltb_lt, !Z.eqb_eq.
  intros [Hab|[Hab Hs1]] [Hbc|[Hbc Hs2]].
  - left. lia.
  - left. lia.
  - left. lia.
  - right. split; [lia|]. by apply (string_ltb_trans _ b).
Qed.

Lemma max_by_key_elem x xs : max_by_key x xs ∈ x :: xs.
Proof.
  unfold max_by_key. revert x.
  induction xs as [|y xs IH]; intros x; simpl; [left|].
  destruct (key_gt y x).
  - right. apply IH.
  - specialize (IH x). apply elem_of_cons in IH as [->|IH]; [left|].
    right. by right.
Qed.

Lemma string_compare_refl s : String.compare s s = Eq.
Proof.
  induction s as [|a s IH]; simpl; [done|]. by rewrite ascii_compare_refl.
Qed.

Lemma key_gt_irrefl a : key_gt a a = false.
Proof.
  unfold key_gt, String.ltb.
  by rewrite Z.ltb_irrefl, Z.eqb_refl, string_compare_refl.
Qed.

Lemma key_gt_asym a b : key_gt a b = true → key_gt b a = false.
Proof.
  intros Hab. destruct (key_gt b a) eqn:Hba; [|done].
  pose proof (key_gt_irrefl a) as Hirr.
  by rewrite (key_gt_trans _ _ _ Hab Hba) in Hirr.
Qed.

(** [max] returns an element that no element exceeds in the key. *)
Lemma max_by_key_greatest x xs i :
  i ∈ x :: xs → key_gt i (max_by_key x xs) = false.
Proof.
  unfold max_by_key.
  assert (Hgen : ∀ xs best,
    let m := fold_left (fun best i => if key_gt i best then i else best) xs best in
    (m = best ∨ key_gt m best = true) ∧ ∀ i, i ∈ xs → key_gt i m = false).
  { clear. induction xs as [|y xs IH]; intros best; simpl.
    - split; [by left|]. intros i Hi. by apply elem_of_nil in Hi.
    - destruct (key_gt y best) eqn:Hy.
      + destruct (IH y) as [Hm Hrest]. split.
        * right. destruct Hm as [-> |Hm]; [done|].
          by apply (key_gt_trans _ y).
        * intros i Hi. apply elem_of_cons in Hi as [->|Hi]; [|auto].
          destruct Hm as [-> |Hm]; [apply key_gt_irrefl|].
          by apply key_gt_asym.
      + destruct (IH best) as [Hm Hrest]. split; [done|].
        intros i Hi. apply elem_of_cons in Hi as [->|Hi]; [|auto].
        destruct Hm as [-> |Hm]; [done|].
        destruct (key_gt y (fold_left _ xs best)) eqn:Hb; [|done].
        by rewrite (key_gt_trans _ _ _ Hb Hm) in Hy. }
  intros Hi. destruct (Hgen xs x) as [Hm Hxs].
  apply elem_of_cons in Hi as [->|Hi]; [|auto].
  destruct Hm as [-> |Hm]; [apply key_gt_irrefl|by apply key_gt_asym].
Qed.

Lemma summarize_primary conns :
  conns ≠ [] →
  (summarize_ifaces conns).1.1
  = match candidate_pool conns with
    | x :: xs => max_by_key x xs
    | [] => "-"
    end.
Proof. by destruct conns. Qed.

Lemma summarize_state conns :
  conns ≠ [] →
  (summarize_ifaces conns).2 = state_for (summarize_ifaces conns).1.1 conns.
Proof. by destruct conns. Qed.

Lemma summarize_extra conns :
  conns ≠ [] →
  (summarize_ifaces conns).1.2
  = Z.max 0
      (match filter (fun i => i ∉ placeholder) (dict_keys (seen_ifaces conns)) with
       | _ :: _ =>
           Z.of_nat (length (remove_dups
             (filter (fun i => i ∉ placeholder) (dict_keys (seen_ifaces conns)))))
           - 1
       | [] => 0
       end).
Proof. by destruct conns. Qed.

Lemma length_remove_dups_le (l : list string) :
  (length (remove_dups l) ≤ length l)%nat.
Proof.
  induction l as [|x l IH]; simpl; [done|].
  destruct (decide_rel _ x l); simpl; lia.
Qed.

(** The pool is never empty and holds names met in the connections. *)
Lemma candidate_pool_elem conns i :
  conns ≠ [] → i ∈ candidate_pool conns → i ∈ iface_or_dash <$> conns.
Proof.
  intros Hne. destruct (seen_ifaces_keys conns) as [_ Hnames].
  unfold candidate_pool. cbv zeta.
  destruct (filter (fun i => i ∉ loopbacks) _) as [|e es] eqn:Hext.
  - destruct (filter (fun i => i ∉ placeholder) _) as [|r rs] eqn:Hreal.
    + intros Hi. apply list_elem_of_singleton in Hi as ->.
      destruct conns as [|c conns]; [done|].
      assert (Hc : iface_or_dash c ∈ dict_keys (seen_ifaces (c :: conns)))
        by (apply Hnames; left).
      destruct (decide (iface_or_dash c ∈ placeholder)) as [Hp|Hp].
      * apply list_elem_of_singleton in Hp. rewrite <- Hp. left.
      * exfalso. eapply (filter_nil_not_elem_of _ _ _ Hreal); [|exact Hc]. done.
    + rewrite <- Hreal. intros Hi.
      apply list_elem_of_filter in Hi as [_ Hi]. by apply Hnames.
  - rewrite <- Hext. intros Hi.
    apply list_elem_of_filter in Hi as [_ Hi].
    apply list_elem_of_filter in Hi as [_ Hi]. by apply Hnames.
Qed.

Lemma candidate_pool_nonempty conns : candidate_pool conns ≠ [].
Proof.
  unfold candidate_pool. cbv zeta.
  destruct (filter (fun i => i ∉ loopbacks) _); [|done].
  by destruct (filter (fun i => i ∉ placeholder) _).
Qed.

Lemma summarize_primary_pool conns :
  conns ≠ [] →
  (summarize_ifaces conns).1.1 ∈ candidate_pool conns ∧
  ∀ i, i ∈ candidate_pool conns → key_gt i (summarize_ifaces conns).1.1 = false.
Proof.
  intros Hne. rewrite summarize_primary by done.
  pose proof (candidate_pool_nonempty conns) as Hpool.
  destruct (candidate_pool conns) as [|x xs]; [done|]. split.
  - apply max_by_key_elem.
  - intros i Hi. by apply max_by_key_greatest.
Qed.

(** X7. For a process with connections, the primary interface is the
    interface of one of them ([-] for a connection without one), the
    returned state is the state of the first connection on the primary
    interface, so the fall-back to the first connection never decides, and
    the extra count is at least 0 and less than the number of
    connections. *)
Theorem summarize_primary_state conns :
  conns ≠ [] →
  (∃ pre c post,
     conns = pre ++ c :: post ∧
     iface_or_dash c = (summarize_ifaces conns).1.1 ∧
     state c = (summarize_ifaces conns).2 ∧
     Forall (fun c' => iface_or_dash c' ≠ (summarize_ifaces conns).1.1) pre) ∧
  0 ≤ (summarize_ifaces conns).1.2 < Z.of_nat (length conns).
Proof.
  intros Hne. split.
  - destruct (summarize_primary_pool conns Hne) as [Hpool _].
    apply candidate_pool_elem in Hpool; [|done].
    apply list_elem_of_fmap in Hpool as (c0 & Hc0 & Hin).
    rewrite summarize_state by done. unfold state_for.
    set (primary := (summarize_ifaces conns).1.1) in *.
    destruct (list_find_elem_of (fun c => iface_or_dash c = primary) conns c0)
      as [[n c] Hfind]; [done..|].
    rewrite Hfind. apply list_find_Some in Hfind as (Hn & Hc & Hbefore).
    exists (take n conns), c, (drop (S n) conns). split_and!; [|done..|].
    + by rewrite take_drop_middle.
    + apply Forall_forall. intros c' Hc'.
      apply list_elem_of_lookup in Hc' as [j Hj].
      pose proof (lookup_lt_Some _ _ _ Hj) as Hlt.
      rewrite length_take in Hlt.
      rewrite lookup_take_lt in Hj by lia. apply (Hbefore j); [done|lia].
  - rewrite summarize_extra by done.
    destruct (seen_ifaces_keys conns) as [Hnd Hnames].
    assert (Hlen : (length (dict_keys (seen_ifaces conns)) ≤ length conns)%nat).
    { rewrite <- (length_fmap iface_or_dash conns).
      apply submseteq_length, NoDup_submseteq; [done|].
      intros x. apply Hnames. }
    pose proof (length_filter (fun i => i ∉ placeholder)
                  (dict_keys (seen_ifaces conns))) as Hreal.
    pose proof (length_remove_dups_le
                  (filter (fun i => i ∉ placeholder)
                     (dict_keys (seen_ifaces conns)))) as Hdup.
    assert (0 < length conns)%nat by (destruct conns; [done|simpl; lia]).
    destruct (filter _ _); lia.
Qed.

Lemma summarize_primary_state_witness :
  [iface_only "lo0"; mkConn "en0" "Established" "" ""; mkConn "en0" "Closed" "" ""]
  ≠ [] ∧
  (summarize_ifaces
     [iface_only "lo0"; mkConn "en0" "Established" "" ""; mkConn "en0" "Closed" "" ""]).2
  = "Established" ∧
  0 ≤ (summarize_ifaces
         [iface_only "lo0"; mkConn "en0" "Established" "" "";
          mkConn "en0" "Closed" "" ""]).1.2 < 3.
Proof.
  assert (Hne : [iface_only "lo0"; mkConn "en0" "Established" "" "";
                 mkConn "en0" "Closed" "" ""] ≠ []) by discriminate.
  split; [exact Hne|]. split; [reflexivity|].
  exact (proj2 (summarize_primary_state _ Hne)).
Defined.

(** X8. The choice of the primary interface, for any connection [c] of the
    process: if [c] is on a real interface the primary is real; if [c] is
    on an external interface (real and not a loopback) the primary is
    external and its (score, name) key is not below that of [c]'s
    interface; and if the primary is a loopback, no real interface of the
    process has a greater key. *)
Theorem summarize_prefers_external conns c :
  c ∈ conns →
  (iface_or_dash c ∉ placeholder →
     (summarize_ifaces conns).1.1 ∉ placeholder) ∧
  (iface_or_dash c ∉ placeholder → iface_or_dash c ∉ loopbacks →
     ((summarize_ifaces conns).1.1 ∉ loopbacks) ∧
     key_gt (iface_or_dash c) (summarize_ifaces conns).1.1 = false) ∧
  (iface_or_dash c ∉ placeholder → (summarize_ifaces conns).1.1 ∈ loopbacks →
     key_gt (iface_or_dash c) (summarize_ifaces conns).1.1 = false).
Proof.
  intros Hc.
  assert (Hne : conns ≠ []) by (intros ->; by apply elem_of_nil in Hc).
  destruct (summarize_primary_pool conns Hne) as [Hpool Hmax].
  destruct (seen_ifaces_keys conns) as [_ Hnames].
  assert (Hi : iface_or_dash c ∈ dict_keys (seen_ifaces conns))
    by (apply Hnames; by apply list_elem_of_fmap_2).
  set (primary := (summarize_ifaces conns).1.1) in *.
  set (i := iface_or_dash c) in *.
  unfold candidate_pool in Hpool, Hmax. cbv zeta in Hpool, Hmax.
  set (real := filter (fun i => i ∉ placeholder) (dict_keys (seen_ifaces conns)))
    in *.
  assert (Hreal : ∀ x, x ∈ real
                       ↔ (x ∉ placeholder) ∧ x ∈ dict_keys (seen_ifaces conns))
    by (intros x; exact (list_elem_of_filter _ _ x)).
  assert (Hext : ∀ x, x ∈ filter (fun i => i ∉ loopbacks) real
                      ↔ (x ∉ loopbacks) ∧ x ∈ real)
    by (intros x; exact (list_elem_of_filter _ _ x)).
  destruct (filter (fun i => i ∉ loopbacks) real) as [|e es] eqn:Hf.
  - destruct real as [|r rs] eqn:Hr.
    + split_and!; intros Hp; exfalso;
        apply (not_elem_of_nil i); apply Hreal; done.
    + apply Hreal in Hpool as [Hpr _]. split_and!; [done| |].
      * intros Hp Hl. exfalso. apply (not_elem_of_nil i).
        apply Hext. split; [done|]. by apply Hreal.
      * intros Hp _. apply Hmax. by apply Hreal.
  - apply Hext in Hpool as [Hpl Hpr]. apply Hreal in Hpr as [Hpr _].
    split_and!; [done| |done].
    intros Hp Hl. split; [done|]. apply Hmax, Hext. split; [done|].
    by apply Hreal.
Qed.

Lemma summarize_prefers_external_witness :
  mkConn "utun3" "-" "" "" ∈ [iface_only "lo0"; mkConn "utun3" "-" "" "";
                              iface_only "awdl0"] ∧
  (summarize_ifaces [iface_only "lo0"; mkConn "utun3" "-" "" "";
                     iface_only "awdl0"]).1.1 ∉ loopbacks.
Proof.
  assert (Hc : mkConn "utun3" "-" "" "" ∈ [iface_only "lo0";
               mkConn "utun3" "-" "" ""; iface_only "awdl0"]) by (right; left).
  split; [exact Hc|].
  refine (proj1 (proj1 (proj2 (summarize_prefers_external _ _ Hc)) _ _));
    by_decide.
Defined.

(** ** The rate engine and the row builder: more of what they guarantee *)

Lemma proc_rates_no_prev curr dt : proc_rates [] curr dt = [].
Proof.
  unfold proc_rates. generalize (@nil (string * Rate)) as acc.
  induction curr as [|[p [bn bo]] curr IH]; intros acc; simpl; [done|].
  unfold prev_counters, delta. simpl. rewrite !Z.sub_diag. simpl. apply IH.
Qed.

Lemma proc_rates_same curr dt : wf_dict curr → proc_rates curr curr dt = [].
Proof.
  intros Hwf. rewrite proc_rates_omap by done.
  assert (Hnone : ∀ item, item ∈ curr → rate_entry curr dt item = None).
  { intros [p [bn bo]] Hin. unfold rate_entry, prev_counters.
    rewrite (dict_get_elem_wf _ _ _ Hwf Hin). simpl.
    unfold delta. by rewrite !Z.sub_diag. }
  revert Hnone. generalize (rate_entry curr dt) as f. clear Hwf.
  induction curr as [|item curr' IH]; intros f Hnone; csimpl; [done|].
  rewrite Hnone by left. apply IH. intros it Hit. apply Hnone. by right.
Qed.

Lemma build_rows_no_rates group prev curr conns dt :
  proc_rates prev curr (floor_dt dt) = [] →
  build_rows group prev curr conns dt = [].
Proof.
  intros Hpr. unfold build_rows. cbv zeta. rewrite Hpr.
  case_decide; [|done].
  replace (fold_left (group_proc []) conns []) with (@nil (GroupKey * Row));
    [done|].
  symmetry. induction conns as [|[p cs] conns IH]; simpl; [done|]. apply IH.
Qed.

(** X9. Without a previous snapshot no row is built, whatever the current
    counters; and when the current counters are those of the previous
    snapshot no row is built either. *)
Theorem build_rows_idle group curr_totals curr_conns dt_seconds :
  build_rows group [] curr_totals curr_conns dt_seconds = [] ∧
  (wf_dict curr_totals →
   build_rows group curr_totals curr_totals curr_conns dt_seconds = []).
Proof.
  split.
  - apply build_rows_no_rates, proc_rates_no_prev.
  - intros Hwf. by apply build_rows_no_rates, proc_rates_same.
Qed.

Lemma build_rows_idle_witness :
  wf_dict tick_curr ∧ build_rows "remote" tick_curr tick_curr tick_conns 1 = [].
Proof.
  assert (Hwf : wf_dict tick_curr) by by_decide.
  split; [exact Hwf|].
  exact (proj2 (build_rows_idle "remote" tick_curr tick_conns 1) Hwf).
Defined.

Lemma omap_keys_sublist prev dt curr :
  (omap (rate_entry prev dt) curr).*1 `sublist_of` curr.*1.
Proof.
  induction curr as [|item curr IH]; csimpl; [done|].
  destruct (rate_entry prev dt item) as [[p r]|] eqn:He; csimpl.
  - rewrite (rate_entry_proc _ _ _ _ _ He). by apply sublist_skip.
  - by apply sublist_cons.
Qed.

(** X10. Process grouping gives one row per process: no two rows have the
    same process, and the rows follow the order of the processes in the
    current totals. *)
Theorem process_rows_order group prev_totals curr_totals curr_conns dt_seconds :
  group ≠ "remote" →
  NoDup (r_proc <$> build_rows group prev_totals curr_totals curr_conns dt_seconds) ∧
  (wf_dict curr_totals →
   (r_proc <$> build_rows group prev_totals curr_totals curr_conns dt_seconds)
   `sublist_of` dict_keys curr_totals).
Proof.
  intros Hg. rewrite build_rows_process by done.
  assert (Hnames : r_proc <$> (process_row curr_conns
                     <$> proc_rates prev_totals curr_totals (floor_dt dt_seconds))
                   = (proc_rates prev_totals curr_totals (floor_dt dt_seconds)).*1).
  { rewrite <- list_fmap_compose. apply list_fmap_ext.
    intros i [p r] _. simpl. apply process_row_proc. }
  rewrite Hnames. split; [apply proc_rates_wf|].
  intros Hwf. rewrite proc_rates_omap by done. apply omap_keys_sublist.
Qed.

Lemma process_rows_order_witness :
  "process" ≠ "remote" ∧ wf_dict tick_curr ∧
  (r_proc <$> build_rows "process" tick_prev tick_curr tick_conns 1)
  `sublist_of` dict_keys tick_curr.
Proof.
  assert (Hg : "process" ≠ "remote") by discriminate.
  assert (Hwf : wf_dict tick_curr) by by_decide.
  split; [exact Hg|]. split; [exact Hwf|].
  exact (proj2 (process_rows_order "process" tick_prev tick_curr tick_conns 1
                  Hg) Hwf).
Defined.






Lemma length_remotes_of_le conns :
  (length (remove_dups (remotes_of conns)) ≤ length conns)%nat.
Proof.
  etrans; [apply length_remove_dups_le|]. unfold remotes_of.
  etrans; [apply length_filter|]. by rewrite length_fmap.
Qed.

(** X12. In process grouping the overflow annotation is shown exactly for
    a process with more than one socket: with at most one connection the
    field is the first remote alone, with more it ends with the counts of
    further distinct remotes and further sockets. *)
Theorem process_row_annotation
    group prev_totals curr_totals curr_conns dt_seconds e :
  group ≠ "remote" →
  e ∈ build_rows group prev_totals curr_totals curr_conns dt_seconds →
  let conns := default [] (dict_get (r_proc e) curr_conns) in
  let distinct := Z.of_nat (length (remove_dups (remotes_of conns))) in
  ((length conns ≤ 1)%nat → r_detail e = ByProcess (first_remote conns)) ∧
  ((1 < length conns)%nat →
   r_detail e =
     ByProcess (first_remote conns +:+ "  [+" +:+ pretty (Z.max 0 (distinct - 1))
                +:+ " remotes, +" +:+ pretty (Z.of_nat (length conns) - 1)
                +:+ " sockets]")).
Proof.
  intros Hg Hin conns distinct.
  assert (Hfield : r_detail e
                   = ByProcess (first_remote conns +:+ extra_note conns)).
  { rewrite build_rows_process in Hin by done.
    apply list_elem_of_fmap in Hin as ([p r] & -> & _).
    unfold conns. rewrite process_row_proc. apply process_row_detail. }
  pose proof (length_remotes_of_le conns) as Hle.
  rewrite Hfield. unfold extra_note. fold distinct. split; intros Hlen.
  - assert ((1 <? distinct) || (1 <? Z.of_nat (length conns)) = false) as ->.
    { apply orb_false_iff. split; apply Z.ltb_ge; unfold distinct; lia. }
    by rewrite string_app_nil_r.
  - assert ((1 <? distinct) || (1 <? Z.of_nat (length conns)) = true) as ->.
    { apply orb_true_iff. right. apply Z.ltb_lt. lia. }
    by rewrite (Z.max_r 0 (Z.of_nat (length conns) - 1)) by lia.
Qed.

Lemma process_row_annotation_witness :
  "process" ≠ "remote" ∧
  tick_row_P_process ∈ build_rows "process" tick_prev tick_curr tick_conns 1 ∧
  (1 < length (default [] (dict_get (r_proc tick_row_P_process) tick_conns)))%nat ∧
  r_detail tick_row_P_process
  = ByProcess "93.184.216.34:443  [+0 remotes, +1 sockets]".
Proof.
  assert (Hg : "process" ≠ "remote") by discriminate.
  assert (Hin : tick_row_P_process
                ∈ build_rows "process" tick_prev tick_curr tick_conns 1).
  { apply list_elem_of_In. left. reflexivity. }
  assert (Hlen : (1 < length (default []
                    (dict_get (r_proc tick_row_P_process) tick_conns)))%nat).
  { simpl. lia. }
  split; [exact Hg|]. split; [exact Hin|]. split; [exact Hlen|].
  exact (proj2 (process_row_annotation _ _ _ _ _ _ Hg Hin) Hlen).
Defined.

Lemma rate_of_order din dout dt :
  0 ≤ din → 0 ≤ dout → din ≠ 0 ∨ dout ≠ 0 → (0 < dt)%Q →
  let '(ri, ro, rs, rd) := rate_of din dout dt in
  (0 < rs)%Q ∧ (rd <= rs)%Q ∧ (ri <= rs)%Q ∧ (ro <= rs)%Q.
Proof.
  intros Hi Ho Hnz Hdt. unfold rate_of.
  assert (Hq : ∀ z, 0 ≤ z → (0 <= inject_Z z / dt)%Q).
  { intros z Hz. apply Qle_shift_div_l; [done|].
    rewrite Qmult_0_l. change 0%Q with (inject_Z 0). by rewrite <- Zle_Qle. }
  assert (Hpos : ∀ z, 0 ≤ z → z ≠ 0 → (0 < inject_Z z / dt)%Q).
  { intros z Hz Hz'. apply Qlt_shift_div_l; [done|].
    rewrite Qmult_0_l. change 0%Q with (inject_Z 0). rewrite <- Zlt_Qlt. lia. }
  pose proof (Hq _ Hi) as Hri. pose proof (Hq _ Ho) as Hro.
  assert (Hsum : (0 < inject_Z din / dt + inject_Z dout / dt)%Q).
  { destruct Hnz as [Hn|Hn]; [pose proof (Hpos _ Hi Hn)|pose proof (Hpos _ Ho Hn)];
      lra. }
  split_and!; [done| |lra|lra].
  apply Qabs_case; intros; lra.
Qed.

Lemma Qgtb_true a b : Qgtb a b = true ↔ (b < a)%Q.
Proof.
  unfold Qgtb. rewrite negb_true_iff. split.
  - intros Hle. apply Qnot_le_lt. intros Hc. apply Qle_bool_iff in Hc. congruence.
  - intros Hlt. destruct (Qle_bool a b) eqn:Hle; [|done].
    apply Qle_bool_iff in Hle. exfalso. apply (Qlt_not_le _ _ Hlt Hle).
Qed.

(** X14. Highlighting: the full-screen and the stream loop mark the same
    rows; a threshold that is not positive marks none; and a row marked
    while the column shows the asymmetry stays marked when the column is
    switched to the sum. *)
Theorem hilite_consistent
    group prev_totals curr_totals curr_conns dt_seconds e threshold :
  e ∈ build_rows group prev_totals curr_totals curr_conns dt_seconds →
  (∀ display_metric,
     hilite_ui threshold (metric_val display_metric e)
     = hilite_stream threshold (metric_val display_metric e)) ∧
  ((threshold <= 0)%Q →
   ∀ display_metric, hilite_ui threshold (metric_val display_metric e) = false) ∧
  (hilite_ui threshold (metric_val "delta" e) = true →
   ∀ display_metric, hilite_ui threshold (metric_val display_metric e) = true).
Proof.
  intros Hin.
  assert (Hthr : Qgtb (threshold * 1024) 0 = Qgtb threshold 0).
  { apply eq_true_iff_eq. rewrite !Qgtb_true. split; intros; lra. }
  split_and!.
  - intros m. unfold hilite_ui, hilite_stream. cbv zeta. by rewrite Hthr.
  - intros Hle m. unfold hilite_ui. cbv zeta. rewrite Hthr.
    destruct (Qgtb threshold 0) eqn:Hg; [|done].
    apply Qgtb_true in Hg. exfalso. apply (Qlt_not_le _ _ Hg Hle).
  - unfold hilite_ui. cbv zeta. rewrite andb_true_iff, !Qgtb_true.
    intros [Hpos Hd] m. rewrite andb_true_iff, !Qgtb_true. split; [done|].
    unfold metric_val in *. rewrite decide_True in Hd by done.
    case_decide; [done|].
    destruct (row_rate_spec _ _ _ _ _ _ Hin) as (bn & bo & _ & Hrate & Hnz).
    pose proof (rate_of_order _ _ _
      (delta_nonneg bn (prev_counters prev_totals (r_proc e) (bn, bo)).1)
      (delta_nonneg bo (prev_counters prev_totals (r_proc e) (bn, bo)).2)
      Hnz (floor_dt_pos dt_seconds)) as Hord.
    rewrite <- Hrate in Hord. destruct Hord as (_ & Hle & _). lra.
Qed.

Lemma hilite_consistent_witness :
  tick_row_P_process ∈ build_rows "process" tick_prev tick_curr tick_conns 1 ∧
  hilite_ui 0.5 (metric_val "delta" tick_row_P_process) = true ∧
  hilite_ui 0.5 (metric_val "sum" tick_row_P_process) = true ∧
  hilite_stream 0.5 (metric_val "sum" tick_row_P_process) = true.
Proof.
  assert (Hin : tick_row_P_process
                ∈ build_rows "process" tick_prev tick_curr tick_conns 1).
  { apply list_elem_of_In. left. reflexivity. }
  assert (Hd : hilite_ui 0.5 (metric_val "delta" tick_row_P_process) = true)
    by reflexivity.
  destruct (hilite_consistent _ _ _ _ _ _ 0.5 Hin) as (Hsame & _ & Hup).
  split; [exact Hin|]. split; [exact Hd|]. split; [exact (Hup Hd "sum")|].
  rewrite <- Hsame. exact (Hup Hd "sum").
Defined.

(** ** Rendering the connection column *)

Lemma strip_prefix_app p : ∀ s rest,
  strip_prefix p s = Some rest → s = p +:+ rest.
Proof.
  induction p as [|a p IH]; intros s rest; simpl.
  - by intros [= ->].
  - destruct s as [|b s]; [done|]. case_decide as Hab; [|done].
    intros Hrest. subst b.
    change (String a s = String a (p +:+ rest)). f_equal. by apply IH.
Qed.

(** [split_once] cuts the text at an occurrence of the separator. *)
Lemma split_once_app sep : ∀ s l r,
  split_once sep s = Some (l, r) → s = l +:+ sep +:+ r.
Proof.
  induction s as [|a s IH]; intros l r; simpl.
  - destruct (strip_prefix sep "") as [rest|] eqn:Hp; [|done].
    intros [= <- <-]. change ("" = sep +:+ rest). by apply strip_prefix_app.
  - destruct (strip_prefix sep (String a s)) as [rest|] eqn:Hp.
    + intros [= <- <-]. change (String a s = sep +:+ rest).
      by apply strip_prefix_app.
    + destruct (split_once sep s) as [[l' r']|] eqn:Hs; [|done].
      intros [= <- <-].
      change (String a s = String a (l' +:+ sep +:+ r')). f_equal. by apply IH.
Qed.

(** X15. The renderer finds the fields it reads in every row built for the
    same grouping mode. In process grouping it shows the row's connection
    field; in remote grouping a row has a first local endpoint, shown
    before [<->] unless it is empty, then the remote, then the number of
    further local endpoints in brackets when there are any. *)
Theorem conn_str_built group prev_totals curr_totals curr_conns dt_seconds e :
  e ∈ build_rows group prev_totals curr_totals curr_conns dt_seconds →
  (group ≠ "remote" →
   ∃ c, r_detail e = ByProcess c ∧ conn_str group e = Some c) ∧
  (group = "remote" →
   ∃ l ls,
     row_locals e = l :: ls ∧
     conn_str group e =
       Some ((if nonempty l then l +:+ "<->" else "") +:+ (row_key e).2
             +:+ (if bool_decide (ls = []) then ""
                  else " [+" +:+ pretty (Z.of_nat (length ls)) +:+ "]"))).
Proof.
  intros Hin. split.
  - intros Hg. rewrite build_rows_process in Hin by done.
    apply list_elem_of_fmap in Hin as ([p r] & -> & _).
    rewrite process_row_detail. eexists. split; [done|].
    unfold conn_str. rewrite decide_False by done.
    by rewrite process_row_detail.
  - intros ->.
    destruct (remote_row_group _ _ _ _ _ Hin) as (x & ms & _ & ->).
    destruct x as [[p [[[ri ro] rs] rd]] c].
    exists (local c), ((fun y : Tagged => local y.2) <$> ms).
    split; [done|]. unfold conn_str, group_row, row_key. simpl.
    rewrite length_fmap. destruct ms as [|m ms]; [done|]. simpl.
    by replace (Z.of_nat (S (S (length ms))) - 1)
      with (Z.of_nat (S (length ms))) by lia.
Qed.

Lemma conn_str_built_witness :
  tick_row_P_remote ∈ build_rows "remote" tick_prev tick_curr tick_conns 1 ∧
  conn_str "remote" tick_row_P_remote
  = Some "10.0.0.2:50001<->93.184.216.34:443 [+1]".
Proof.
  assert (Hin : tick_row_P_remote
                ∈ build_rows "remote" tick_prev tick_curr tick_conns 1).
  { apply list_elem_of_In. left. reflexivity. }
  split; [exact Hin|].
  destruct (proj2 (conn_str_built _ _ _ _ _ _ Hin) eq_refl)
    as (l & ls & Hloc & Hstr).
  injection Hloc as <- <-. exact Hstr.
Defined.

Lemma string_app_assoc (a b c : string) : (a +:+ b) +:+ c = a +:+ b +:+ c.
Proof.
  induction a as [|x a IH]; [done|].
  change (String x ((a +:+ b) +:+ c) = String x (a +:+ b +:+ c)).
  by rewrite IH.
Qed.

(** X16. From the parser to the screen: a connection cell [local<->remote]
    whose two endpoints [str.strip] leaves as they are, the local one not
    empty, alone in its group, is shown in remote grouping exactly as it
    was read. *)
Theorem conn_cell_round_trip p rate c1 iface_cell state_cell l r :
  split_once "<->" c1 = Some (l, r) →
  strip l = l → strip r = r → l ≠ "" →
  conn_str "remote"
    <$> dict_values (group_conn p rate []
                       (conn_of_row c1 iface_cell state_cell))
  = [Some c1].
Proof.
  intros Hsplit Hl Hr Hne.
  destruct rate as [[[ri ro] rs] rd]. unfold conn_of_row. rewrite Hsplit.
  unfold group_conn, conn_str. simpl. rewrite Hl, Hr.
  apply nonempty_true in Hne. rewrite Hne.
  rewrite string_app_nil_r, string_app_assoc.
  by rewrite <- (split_once_app _ _ _ _ Hsplit).
Qed.

Lemma conn_cell_round_trip_witness :
  split_once "<->" "tcp4 10.0.0.2:1<->10.0.0.3:443"
  = Some ("tcp4 10.0.0.2:1", "10.0.0.3:443") ∧
  conn_str "remote"
    <$> dict_values (group_conn "P" (1, 0, 1, 1)%Q []
                       (conn_of_row "tcp4 10.0.0.2:1<->10.0.0.3:443" "en0" ""))
  = [Some "tcp4 10.0.0.2:1<->10.0.0.3:443"].
Proof.
  split; [reflexivity|].
  apply (conn_cell_round_trip "P" (1, 0, 1, 1)%Q
           "tcp4 10.0.0.2:1<->10.0.0.3:443" "en0" ""
           "tcp4 10.0.0.2:1" "10.0.0.3:443");
    [reflexivity..|discriminate].
Defined.


(** ** Ranking in binary64 *)

Lemma SFcompare_rank x y :
  x ≠ f_nan → y ≠ f_nan →
  match SFcompare x y with
  | Some Lt => lex_lt (frank x) (frank y)
  | Some Eq => lex_eq (frank x) (frank y)
  | Some Gt => lex_lt (frank y) (frank x)
  | None => False
  end.
Proof.
  unfold lex_lt, lex_eq.
  destruct x as [[]|[]| |[] mx ex]; try done;
    destruct y as [[]|[]| |[] my ey]; try done; intros _ _; simpl; try lia.
  - change (Pos.compare_cont Eq mx my) with (Pos.compare mx my).
    destruct (Z.compare_spec ex ey) as [->| |]; simpl; try lia.
    destruct (Pos.compare_spec mx my) as [->| |]; simpl; lia.
  - change (Pos.compare_cont Eq mx my) with (Pos.compare mx my).
    destruct (Z.compare_spec ex ey) as [->| |]; simpl; try lia.
    destruct (Pos.compare_spec mx my) as [->| |]; simpl; lia.
Qed.

Lemma flt_rank x y :
  flt x y = true ↔ x ≠ f_nan ∧ y ≠ f_nan ∧ lex_lt (frank x) (frank y).
Proof.
  unfold flt, SFltb. split.
  - intros Hlt.
    assert (x ≠ f_nan ∧ y ≠ f_nan) as [Hx Hy].
    { split; intros ->; [done|by destruct x]. }
    pose proof (SFcompare_rank x y Hx Hy) as Hr.
    destruct (SFcompare x y) as [[]|]; done.
  - intros (Hx & Hy & Hlt). pose proof (SFcompare_rank x y Hx Hy) as Hr.
    unfold lex_lt, lex_eq in *.
    destruct (SFcompare x y) as [[]|]; [lia|done|lia|done].
Qed.

Lemma fle_rank x y :
  fle x y = true
  ↔ x ≠ f_nan ∧ y ≠ f_nan ∧ ¬ lex_lt (frank y) (frank x).
Proof.
  unfold fle, SFleb. split.
  - intros Hle.
    assert (x ≠ f_nan ∧ y ≠ f_nan) as [Hx Hy].
    { split; intros ->; [done|by destruct x]. }
    pose proof (SFcompare_rank x y Hx Hy) as Hr.
    unfold lex_lt, lex_eq in *.
    destruct (SFcompare x y) as [[]|]; try done; split_and!; try done; lia.
  - intros (Hx & Hy & Hlt). pose proof (SFcompare_rank x y Hx Hy) as Hr.
    unfold lex_lt, lex_eq in *.
    destruct (SFcompare x y) as [[]|]; [done|done|lia|done].
Qed.

Lemma feq_rank x y :
  feq x y = true ↔ x ≠ f_nan ∧ y ≠ f_nan ∧ lex_eq (frank x) (frank y).
Proof.
  unfold feq, SFeqb. split.
  - intros Heq.
    assert (x ≠ f_nan ∧ y ≠ f_nan) as [Hx Hy].
    { split; intros ->; [done|by destruct x]. }
    pose proof (SFcompare_rank x y Hx Hy) as Hr.
    destruct (SFcompare x y) as [[]|]; done.
  - intros (Hx & Hy & Heq). pose proof (SFcompare_rank x y Hx Hy) as Hr.
    unfold lex_lt, lex_eq in *.
    destruct (SFcompare x y) as [[]|]; [done|lia|lia|done].
Qed.

Lemma insert_desc64_perm key x l : B64.insert_desc key x l ≡ₚ x :: l.
Proof.
  induction l as [|y l IH]; simpl; [done|].
  destruct (flt (key x) (key y)); [|done].
  rewrite IH. apply Permutation_swap.
Qed.

Lemma sort_desc64_perm key rows : B64.sort_desc key rows ≡ₚ rows.
Proof.
  unfold B64.sort_desc. induction rows as [|x rows IH]; simpl; [done|].
  by rewrite insert_desc64_perm, IH.
Qed.

Lemma insert_desc64_sorted key x l :
  key x ≠ f_nan → Forall (fun e => key e ≠ f_nan) l →
  StronglySorted (fun a b => fle (key b) (key a) = true) l →
  StronglySorted (fun a b => fle (key b) (key a) = true)
                 (B64.insert_desc key x l).
Proof.
  intros Hx Hnan. induction 1 as [|y l Hl IH Hy]; simpl; [repeat constructor|].
  apply Forall_cons in Hnan as [Hyn Hnan].
  destruct (flt (key x) (key y)) eqn:Hlt.
  - constructor; [by apply IH|].
    rewrite Forall_forall. intros z Hz.
    rewrite insert_desc64_perm in Hz. apply elem_of_cons in Hz as [->|Hz].
    + apply flt_rank in Hlt as (_ & _ & Hlt). apply fle_rank.
      unfold lex_lt in *. split_and!; [done..|lia].
    + by apply (proj1 (Forall_forall _ _) Hy).
  - assert (Hle : fle (key y) (key x) = true).
    { apply fle_rank. split_and!; [done..|]. intros Hc.
      assert (flt (key x) (key y) = true) by (by apply flt_rank).
      congruence. }
    constructor; [by constructor|]. constructor; [done|].
    rewrite Forall_forall. intros z Hz.
    pose proof (proj1 (Forall_forall _ _) Hy z Hz) as Hzy.
    apply fle_rank in Hzy as (Hzn & _ & Hzy), Hle as (_ & _ & Hle).
    apply fle_rank. unfold lex_lt in *. split_and!; [done..|lia].
Qed.

Lemma sort_desc64_sorted key rows :
  Forall (fun e => key e ≠ f_nan) rows →
  StronglySorted (fun a b => fle (key b) (key a) = true) (B64.sort_desc key rows).
Proof.
  unfold B64.sort_desc. induction rows as [|x rows IH]; simpl; [constructor|].
  intros Hnan. apply Forall_cons in Hnan as [Hx Hnan].
  apply insert_desc64_sorted; [done| |by apply IH].
  change (foldr (B64.insert_desc key) [] rows) with (B64.sort_desc key rows).
  by rewrite sort_desc64_perm.
Qed.

(** Rows of equal key keep their order when a row is inserted. *)
Lemma insert_desc64_stable key q x l :
  filter (fun e => feq (key e) q = true) (B64.insert_desc key x l)
  = filter (fun e => feq (key e) q = true) (x :: l).
Proof.
  induction l as [|y l IH]; simpl; [done|].
  destruct (flt (key x) (key y)) eqn:Hlt; [|done].
  rewrite (filter_cons _ y), IH, !(filter_cons _ x), !(filter_cons _ y).
  destruct (decide (feq (key x) q = true)) as [Hx|Hx]; [|done].
  destruct (decide (feq (key y) q = true)) as [Hy|Hy]; [|done].
  exfalso. apply flt_rank in Hlt as (_ & _ & Hlt).
  apply feq_rank in Hx as (_ & _ & Hx), Hy as (_ & _ & Hy).
  unfold lex_lt, lex_eq in *. lia.
Qed.

Lemma sort_desc64_stable key q rows :
  filter (fun e => feq (key e) q = true) (B64.sort_desc key rows)
  = filter (fun e => feq (key e) q = true) rows.
Proof.
  unfold B64.sort_desc. induction rows as [|x rows IH]; simpl; [done|].
  by rewrite insert_desc64_stable, !(filter_cons _ x), IH.
Qed.

(** X17. The rows a tick hands to the renderer are the rows built from the
    previous and the new snapshot for the elapsed time ([now - prev_time],
    or a microsecond when that is not more), each once. When none of the
    sort keys ([rin] for [in], [rout] for [out], [rdelta] otherwise) is
    NaN, they are in descending order of the key, rows of equal key in the
    order they were built. *)
Theorem tick_rows_ranked
    group sort_key prev_totals prev_time curr_totals curr_conns now shown :
  B64.tick_rows group sort_key prev_totals prev_time (curr_totals, curr_conns) now
  = Some shown →
  let elapsed :=
    if flt B64.micro (fsub now prev_time) then fsub now prev_time
    else B64.micro in
  let key e :=
    if decide (sort_key = "in") then B64.rin e
    else if decide (sort_key = "out") then B64.rout e
    else B64.rdelta e in
  ∃ built,
    B64.build_rows group prev_totals curr_totals curr_conns elapsed = Some built ∧
    shown ≡ₚ built ∧
    (Forall (fun e => key e ≠ f_nan) built →
     StronglySorted (fun a b => fle (key b) (key a) = true) shown ∧
     ∀ q, filter (fun e => feq (key e) q = true) shown
          = filter (fun e => feq (key e) q = true) built).
Proof.
  unfold B64.tick_rows, B64.tick_dt. cbv zeta.
  destruct (B64.build_rows _ _ _ _ _) as [built|]; [|done]. simpl.
  intros [= <-]. exists built. split; [done|]. unfold B64.sort_rows.
  split; [apply sort_desc64_perm|]. intros Hnan.
  split; [by apply sort_desc64_sorted|]. intros q. apply sort_desc64_stable.
Qed.

Lemma tick_rows_ranked_witness :
  B64.tick_rows "process" "out" tick64_prev f_zero (tick64_curr, tick_conns)
                three_seconds
  = Some [tick64_row_P_process; tick64_row_Q_process] ∧
  StronglySorted (fun a b => fle (B64.rout b) (B64.rout a) = true)
                 [tick64_row_P_process; tick64_row_Q_process].
Proof.
  assert (Hshown : B64.tick_rows "process" "out" tick64_prev f_zero
                     (tick64_curr, tick_conns) three_seconds
                   = Some [tick64_row_P_process; tick64_row_Q_process])
    by reflexivity.
  split; [exact Hshown|].
  destruct (tick_rows_ranked _ _ _ _ _ _ _ _ Hshown)
    as (built & Hbuilt & _ & Hsorted).
  injection Hbuilt as <-.
  apply Hsorted. repeat constructor; discriminate.
Defined.

(** ** Repeated snapshots and truncation *)



Lemma printed_rows_take args_top rows : ∀ shown,
  printed_rows args_top shown rows = take (Z.to_nat (args_top - shown)) rows.
Proof.
  induction rows as [|e rows IH]; intros shown; simpl.
  - by rewrite take_nil.
  - destruct (Z.leb_spec args_top shown) as [Hle|Hlt].
    + by replace (Z.to_nat (args_top - shown)) with 0%nat by lia.
    + rewrite IH.
      replace (Z.to_nat (args_top - shown))
        with (S (Z.to_nat (args_top - (shown + 1)))) by lia.
      done.
Qed.

Lemma drawn_rows_take args_top maxy rows : ∀ top shown,
  drawn_rows args_top maxy top shown rows
  = take (Z.to_nat (Z.min (args_top - shown) (maxy - 1 - top))) rows.
Proof.
  induction rows as [|e rows IH]; intros top shown; simpl.
  - by rewrite take_nil.
  - destruct (Z.leb_spec args_top shown) as [Hle|Hlt]; simpl.
    + by replace (Z.to_nat _) with 0%nat by lia.
    + destruct (Z.leb_spec (maxy - 1) top) as [Hle'|Hlt'].
      * by replace (Z.to_nat _) with 0%nat by lia.
      * rewrite IH.
        replace (Z.to_nat (Z.min (args_top - shown) (maxy - 1 - top)))
          with (S (Z.to_nat (Z.min (args_top - (shown + 1))
                                   (maxy - 1 - (top + 1))))) by lia.
        done.
Qed.

(** X19. Truncation keeps the best ranked rows: the stream loop prints
    the first [top] rows, the full-screen loop draws the first rows up to
    [top] and up to the lines left above the last screen line, starting at
    line [first_line]; a limit that is not positive shows no row. *)
Theorem shown_rows_prefix args_top maxy first_line rows :
  printed_rows args_top 0 rows = take (Z.to_nat args_top) rows ∧
  drawn_rows args_top maxy first_line 0 rows
  = take (Z.to_nat (Z.min args_top (maxy - 1 - first_line))) rows ∧
  (args_top ≤ 0 →
   printed_rows args_top 0 rows = [] ∧
   drawn_rows args_top maxy first_line 0 rows = []).
Proof.
  rewrite printed_rows_take, drawn_rows_take, !Z.sub_0_r.
  split_and!; [done..|]. intros Hle.
  replace (Z.to_nat args_top) with 0%nat by lia.
  replace (Z.to_nat (Z.min args_top (maxy - 1 - first_line))) with 0%nat by lia.
  done.
Qed.

Lemma shown_rows_prefix_witness :
  (0 : Z) ≤ 0 ∧
  printed_rows 0 0 [tick_row_P_process; tick_row_Q_process] = [] ∧
  drawn_rows 0 24 6 0 [tick_row_P_process; tick_row_Q_process] = [].
Proof.
  assert (Hle : (0 : Z) ≤ 0) by lia.
  split; [exact Hle|].
  exact (proj2 (proj2 (shown_rows_prefix 0 24 6
                         [tick_row_P_process; tick_row_Q_process])) Hle).
Defined.

(** ** The cadence of the interactive loop *)

Lemma schedule64_inv next_target interval clock ms next :
  B64.schedule next_target interval clock = Some (ms, next) →
  10 ≤ ms ∧ next = fadd next_target interval.
Proof.
  unfold B64.schedule. cbv zeta.
  destruct (int_of_float _) as [n|]; [|done]. simpl.
  intros [= <- <-]. split; [lia|done].
Qed.

(** X20. The key wait of a tick is at least 10 ms, and exactly 10 ms when
    the loop is late, that is when the next tick target is not after the
    clock reading. The target moves on by one interval, whatever the clock
    says. The step ends with an exception only when the remaining time in
    milliseconds is beyond the largest float. *)
Theorem schedule_wait next_target interval clock :
  let next := fadd next_target interval in
  let remaining := if flt f_zero (fsub next clock) then fsub next clock else f_zero in
  (∀ ms next', B64.schedule next_target interval clock = Some (ms, next') →
     10 ≤ ms ∧ next' = next) ∧
  (flt f_zero (fsub next clock) = false →
     B64.schedule next_target interval clock = Some (10, next)) ∧
  (B64.schedule next_target interval clock = None
   ↔ fmul remaining (float_of_Z 1000) = f_inf).
Proof.
  intros next remaining. split_and!.
  - intros ms next'. apply schedule64_inv.
  - intros Hlate. unfold B64.schedule. cbv zeta. fold next. by rewrite Hlate.
  - unfold B64.schedule. cbv zeta. fold next. fold remaining.
    assert (Hrem : signed false remaining).
    { unfold remaining. destruct (flt f_zero (fsub next clock)) eqn:Hlt; [|done].
      apply flt_rank in Hlt as (_ & Hn & Hlt).
      destruct (fsub next clock) as [[]|[]| |[] m e]; try done;
        unfold lex_lt in Hlt; simpl in Hlt; lia. }
    assert (Hprod : signed false (fmul remaining (float_of_Z 1000))).
    { destruct remaining as [[]|[]| |[] m e]; try done.
      unfold fmul, SFmul, float_of_Z. simpl binary_normalize.
      cbn [xorb]. by apply binary_round_aux_signed. }
    destruct (fmul remaining (float_of_Z 1000)) as [[]|[]| |[] m e];
      try done; simpl; split; try done; intros [=].
Qed.

Lemma schedule_wait_witness :
  flt f_zero (fsub (fadd (float_of_Z 5) (float_of_Z 3)) (float_of_Z 9)) = false ∧
  B64.schedule (float_of_Z 5) (float_of_Z 3) (float_of_Z 9)
  = Some (10, float_of_Z 8).
Proof.
  assert (Hlate : flt f_zero (fsub (fadd (float_of_Z 5) (float_of_Z 3))
                                   (float_of_Z 9)) = false) by reflexivity.
  split; [exact Hlate|].
  exact (proj1 (proj2 (schedule_wait (float_of_Z 5) (float_of_Z 3) (float_of_Z 9)))
           Hlate).
Defined.

(** With the tick target at 8.0 and the clock at 7.883 the wait is 117 ms:
    the remaining time is the float 0.11699999999999999, and its product
    with 1000 rounds to 117.0. *)
Example schedule_117 :
  B64.schedule (float_of_Z 5) (float_of_Z 3)
               (fdiv (float_of_Z 7883) (float_of_Z 1000))
  = Some (117, float_of_Z 8).
Proof. reflexivity. Qed.

(** X21. The cadence is anchored to the targets, not to the clock: after
    any number of ticks without an interval change the tick target is the
    first target with the interval added that many times, in float
    arithmetic, whatever the clock readings were. *)
Theorem schedule_anchored interval clocks : ∀ target target',
  fold_left (fun acc clock =>
               t ← acc; snd <$> B64.schedule t interval clock)
            clocks (Some target) = Some target' →
  target' = Nat.iter (length clocks) (fun t => fadd t interval) target.
Proof.
  induction clocks as [|clock clocks IH]; intros target target'; simpl.
  - by intros [= <-].
  - destruct (B64.schedule target interval clock) as [[ms next]|] eqn:Hs; simpl.
    + apply schedule64_inv in Hs as [_ ->]. intros Hfold.
      rewrite (IH _ _ Hfold). clear.
      induction (length clocks) as [|n IHn]; simpl; [done|]. by rewrite IHn.
    + intros Hfold. exfalso. revert Hfold. clear.
      induction clocks as [|c cs IHc]; simpl; [done|exact IHc].
Qed.

Lemma schedule_anchored_witness :
  Nat.iter 2 (fun t => fadd t (float_of_Z 3)) (float_of_Z 5) = float_of_Z 11.
Proof.
  symmetry.
  apply (schedule_anchored (float_of_Z 3) [float_of_Z 9; float_of_Z 10]
           (float_of_Z 5) (float_of_Z 11)).
  reflexivity.
Defined.

(** Ten additions of 0.1 to 100.0 do not give 101.0. *)
Example cadence_rounds :
  Nat.iter 10 (fun t => fadd t (fdiv (float_of_Z 1) (float_of_Z 10)))
           (float_of_Z 100)
  ≠ float_of_Z 101.
Proof. vm_compute. discriminate. Qed.

(** ** Keys *)

(** X22. For every typed character: the loop ends exactly for [q] (in
    either case), and every key other than [q] and [t] leaves the interval,
    the tick target and the remembered snapshot untouched. *)
Theorem key_dispatch (py_float : string → option Q) ch s now st :
  (apply_action py_float (action_of_char ch) s now st = None
   ↔ lower_ascii ch = "q"%char) ∧
  (lower_ascii ch ≠ "q"%char → lower_ascii ch ≠ "t"%char →
   ∃ st',
     apply_action py_float (action_of_char ch) s now st = Some st' ∧
     interval st' = interval st ∧ next_target st' = next_target st ∧
     prev_totals st' = prev_totals st ∧ prev_time st' = prev_time st).
Proof.
  unfold action_of_char. cbv zeta.
  destruct (decide (lower_ascii ch = "q"%char)) as [Hq|Hq]; [by split|].
  split.
  - repeat (case_decide; [by split|]). by split.
  - intros _ Ht.
    repeat case_decide; try done; (eexists; split; [reflexivity|done]).
Qed.

Lemma key_dispatch_witness :
  lower_ascii "M" ≠ "q"%char ∧ lower_ascii "M" ≠ "t"%char ∧
  ∃ st',
    apply_action read_decimal (action_of_char "M") "" 42 loop_state_0 = Some st' ∧
    interval st' = interval loop_state_0 ∧
    next_target st' = next_target loop_state_0.
Proof.
  assert (Hq : lower_ascii "M" ≠ "q"%char) by discriminate.
  assert (Ht : lower_ascii "M" ≠ "t"%char) by discriminate.
  split; [exact Hq|]. split; [exact Ht|].
  destruct (proj2 (key_dispatch read_decimal "M" "" 42 loop_state_0) Hq Ht)
    as (st' & Hstep & Hi & Hn & _).
  exists st'. split; [exact Hstep|]. split; [exact Hi|exact Hn].
Defined.

(** X23. The two toggles undo themselves: pressing [h] twice gives back the
    state, and so does pressing [m] twice when the displayed metric is one
    of its two values [delta] and [sum]; after one [m] it always is. *)
Theorem toggles_involutive (py_float : string → option Q) s now st :
  (apply_action py_float Help s now st ≫= apply_action py_float Help s now
   = Some st) ∧
  (display_metric st = "delta" ∨ display_metric st = "sum" →
   apply_action py_float ToggleMetricColumn s now st
     ≫= apply_action py_float ToggleMetricColumn s now
   = Some st) ∧
  (∀ st', apply_action py_float ToggleMetricColumn s now st = Some st' →
          display_metric st' = "delta" ∨ display_metric st' = "sum").
Proof.
  destruct st as [pt ptime dm sk sh iv nt]. simpl. split_and!.
  - by rewrite negb_involutive.
  - by intros [-> | ->].
  - intros st' [= <-]. simpl. case_decide; auto.
Qed.

Lemma toggles_involutive_witness :
  (display_metric loop_state_0 = "delta" ∨ display_metric loop_state_0 = "sum") ∧
  apply_action read_decimal ToggleMetricColumn "" 0 loop_state_0
    ≫= apply_action read_decimal ToggleMetricColumn "" 0
  = Some loop_state_0.
Proof.
  assert (Hm : display_metric loop_state_0 = "delta"
               ∨ display_metric loop_state_0 = "sum") by (left; reflexivity).
  split; [exact Hm|].
  exact (proj1 (proj2 (toggles_involutive read_decimal "" 0 loop_state_0)) Hm).
Defined.

(** ** The command line *)

Lemma lower_app a b : lower (a +:+ b) = lower a +:+ lower b.
Proof.
  induction a as [|x a IH]; [done|].
  change (String (lower_ascii x) (lower (a +:+ b))
          = String (lower_ascii x) (lower a +:+ lower b)).
  by rewrite IH.
Qed.

Lemma join_app sep l1 l2 :
  l1 ≠ [] → l2 ≠ [] →
  join sep (l1 ++ l2) = join sep l1 +:+ sep +:+ join sep l2.
Proof.
  intros H1 H2. induction l1 as [|x l1 IH]; [done|].
  destruct l1 as [|y l1].
  - destruct l2 as [|z l2]; [done|]. done.
  - change (x +:+ sep +:+ join sep ((y :: l1) ++ l2)
            = (x +:+ sep +:+ join sep (y :: l1)) +:+ sep +:+ join sep l2).
    rewrite IH by done. by rewrite !string_app_assoc.
Qed.

Lemma split_ws_nonspace a s :
  is_space a = false → split_ws (String a s) ≠ [].
Proof.
  intros Ha. simpl. rewrite Ha. destruct s as [|b s]; [done|].
  destruct (is_space b); [done|]. by destruct (split_ws (String b s)).
Qed.

Lemma split_ws_cons a s :
  split_ws (String a s) =
  if is_space a then split_ws s
  else match s with
       | EmptyString => [String a EmptyString]
       | String b _ =>
           if is_space b then String a EmptyString :: split_ws s
           else match split_ws s with
                | w :: ws => String a w :: ws
                | [] => [String a EmptyString]
                end
       end.
Proof. by destruct s. Qed.

(** The words of two texts joined by a blank. *)
Lemma split_ws_app_space s t :
  split_ws (s +:+ " " +:+ t) = split_ws s ++ split_ws t.
Proof.
  induction s as [|a s IH]; [done|].
  change (String a s +:+ " " +:+ t) with (String a (s +:+ " " +:+ t)).
  rewrite !(split_ws_cons a). destruct (is_space a) eqn:Ha; [done|].
  destruct s as [|b s]; [done|].
  change (String b s +:+ " " +:+ t) with (String b (s +:+ " " +:+ t)) in *.
  destruct (is_space b) eqn:Hb; rewrite ?Hb, IH; [done|].
  pose proof (split_ws_nonspace b s Hb) as Hne.
  by destruct (split_ws (String b s)).
Qed.

Lemma strip_prefix_app_r p : ∀ s t rest,
  strip_prefix p s = Some rest → strip_prefix p (s +:+ t) = Some (rest +:+ t).
Proof.
  induction p as [|a p IH]; intros s t rest.
  - simpl. by intros [= ->].
  - destruct s as [|b s]; [done|].
    change (String b s +:+ t) with (String b (s +:+ t)). simpl.
    case_decide; [|done]. apply IH.
Qed.

Lemma contains_app_l p s t : contains p s = true → contains p (s +:+ t) = true.
Proof.
  unfold contains. induction s as [|a s IH].
  - simpl. destruct (strip_prefix p "") as [rest|] eqn:Hp; [|done].
    intros _. destruct p; [|done]. simpl.
    destruct t; simpl; done.
  - change (String a s +:+ t) with (String a (s +:+ t)).
    cbn [split_once].
    destruct (strip_prefix p (String a s)) as [rest|] eqn:Hp.
    + intros _.
      pose proof (strip_prefix_app_r p (String a s) t rest Hp) as Hp'.
      change (String a s +:+ t) with (String a (s +:+ t)) in Hp'.
      by rewrite Hp'.
    + intros Hs. destruct (strip_prefix p (String a (s +:+ t))); [done|].
      destruct (split_once p s) as [[l r]|]; [|done].
      specialize (IH eq_refl).
      by destruct (split_once p (s +:+ t)) as [[l' r']|].
Qed.

Lemma contains_app_r p s t : contains p t = true → contains p (s +:+ t) = true.
Proof.
  unfold contains. intros Ht. induction s as [|a s IH]; [done|].
  change (String a s +:+ t) with (String a (s +:+ t)).
  cbn [split_once].
  destruct (strip_prefix p (String a (s +:+ t))); [done|].
  by destruct (split_once p (s +:+ t)) as [[l r]|].
Qed.

Lemma lower_ascii_not_L a : lower_ascii a ≠ "L"%char.
Proof. destruct a as [[] [] [] [] [] [] [] []]; vm_compute; discriminate. Qed.

(** A lower-cased text has no [-L]: the second test of line 42 never
    decides. *)
Lemma contains_L_lower s : contains "-L" (lower s) = false.
Proof.
  unfold contains. induction s as [|a s IH]; [done|].
  cbn [lower split_once].
  assert (strip_prefix "-L" (String (lower_ascii a) (lower s)) = None) as ->.
  { simpl. case_decide; [|done]. destruct s as [|b s]; [done|]. simpl.
    case_decide as Hb; [|done]. by destruct (lower_ascii_not_L b). }
  by destruct (split_once "-L" (lower s)) as [[l r]|].
Qed.

(** The command as the program name, the arguments, and the options the
    lower-cased command line lacks. *)
Lemma build_nettop_cmd_shape args :
  build_nettop_cmd args =
  ("nettop" :: args)
  ++ ((if bool_decide ("-n" ∈ split_ws (lower (join " " ("nettop" :: args))))
       then [] else ["-n"])
      ++ (if bool_decide ("-x" ∈ split_ws (lower (join " " ("nettop" :: args))))
          then [] else ["-x"])
      ++ (if contains "-l" (lower (join " " ("nettop" :: args)))
          then [] else ["-L"; "1"])).
Proof.
  unfold build_nettop_cmd. cbv zeta. rewrite contains_L_lower.
  destruct (bool_decide ("-n" ∈ _)), (bool_decide ("-x" ∈ _)),
    (contains "-l" _); cbn [negb andb app];
    rewrite ?app_nil_r, <- ?app_assoc; done.
Qed.

Lemma flat_extend args added :
  added ≠ [] →
  lower (join " " (("nettop" :: args) ++ added))
  = lower (join " " ("nettop" :: args)) +:+ " " +:+ lower (join " " added).
Proof. intros Hne. by rewrite join_app, !lower_app. Qed.

(** Read in lower case, a built command has the three options. *)
Lemma built_cmd_flags args :
  "-n" ∈ split_ws (lower (join " " (build_nettop_cmd args))) ∧
  "-x" ∈ split_ws (lower (join " " (build_nettop_cmd args))) ∧
  contains "-l" (lower (join " " (build_nettop_cmd args))) = true.
Proof.
  rewrite build_nettop_cmd_shape.
  set (flat := lower (join " " ("nettop" :: args))).
  destruct (bool_decide ("-n" ∈ split_ws flat)) eqn:Hn;
    destruct (bool_decide ("-x" ∈ split_ws flat)) eqn:Hx;
    destruct (contains "-l" flat) eqn:Hl;
    try apply bool_decide_eq_true in Hn; try apply bool_decide_eq_true in Hx;
    match goal with
    | |- context [("nettop" :: args) ++ ?added] =>
        let a := eval cbn in added in change added with a
    end;
    try (rewrite app_nil_r; fold flat; by split_and!);
    (rewrite flat_extend by done; fold flat; rewrite split_ws_app_space;
     split_and!;
     [ first [apply elem_of_app; left; exact Hn
             |apply elem_of_app; right; by_decide]
     | first [apply elem_of_app; left; exact Hx
             |apply elem_of_app; right; by_decide]
     | first [apply contains_app_l; exact Hl
             |apply contains_app_r; reflexivity] ]).
Qed.

(** X24. The command starts with the program name and the user's
    arguments, unchanged and in order, followed only by options out of
    [-n], [-x], [-L 1]; and, read in lower case, it always has the words
    [-n] and [-x] and contains [-l]: what is missing is appended. *)
Theorem build_nettop_cmd_complete args :
  (∃ added, build_nettop_cmd args = "nettop" :: args ++ added ∧
            added `sublist_of` ["-n"; "-x"; "-L"; "1"]) ∧
  "-n" ∈ split_ws (lower (join " " (build_nettop_cmd args))) ∧
  "-x" ∈ split_ws (lower (join " " (build_nettop_cmd args))) ∧
  contains "-l" (lower (join " " (build_nettop_cmd args))) = true.
Proof.
  split; [|apply built_cmd_flags].
  rewrite build_nettop_cmd_shape. eexists. split; [done|].
  destruct (bool_decide ("-n" ∈ _)), (bool_decide ("-x" ∈ _)),
    (contains "-l" _); cbn [app];
    repeat first [apply sublist_nil_l | apply sublist_skip | apply sublist_cons].
Qed.

(** X25. Building is idempotent: the arguments of a built command, built
    again, give the same command. *)
Theorem build_nettop_cmd_idempotent args :
  build_nettop_cmd (drop 1 (build_nettop_cmd args)) = build_nettop_cmd args.
Proof.
  destruct (built_cmd_flags args) as (Hn & Hx & Hl).
  rewrite (build_nettop_cmd_shape args) in *.
  set (added := (if bool_decide _ then _ else _) ++ _) in *.
  change (drop 1 (("nettop" :: args) ++ added)) with (args ++ added).
  rewrite (build_nettop_cmd_shape (args ++ added)).
  change ("nettop" :: args ++ added) with (("nettop" :: args) ++ added).
  rewrite Hl, !bool_decide_eq_true_2 by done. by rewrite app_nil_r.
Qed.
